(** * Engram Go SDK: codec, integrity and in-memory index

    A shallow embedding of [types.go], [tree.go] and the codec file of
    github.com/Terronex-dev/engram-go, with the properties of its
    specification stated and proved over it.

    Conventions.
    - Go [string] is [string] (a sequence of bytes), [[]byte] is
      [list byte], Go [int] is [Z].
    - [float32] and [float64] values are IEEE-754 values of
      [SpecFloat.spec_float]; arithmetic is the correctly rounded one of
      [SpecFloat] at precision 24 / 53.
    - A pointer [*MemoryNode] into the slice held by a [MemoryTree] is the
      index of the element it points to.
    - A Go map is a [gmap]. *)

From Stdlib Require Import ZArith List String Ascii Strings.Byte Bool Lia.
From Stdlib Require Import SpecFloat.
From stdpp Require Import gmap strings list sorting.

Set Warnings "-register-all".

Open Scope string_scope.
Open Scope list_scope.
Open Scope Z_scope.

(** ** Basic types *)

Definition bytes := list byte.

(** [spec_float] has one NaN: the sign and the payload of a NaN are not
    represented, and an equation between floats says of two NaN results
    only that both are NaN. *)
Definition float32 := spec_float.
Definition float64 := spec_float.

(** The zero value of a Go float. *)
Definition fzero : spec_float := S754_zero false.

(** [time.Time], reduced to the instant it denotes: seconds since the Unix
    epoch and nanoseconds within the second. *)
Record Time := { unix_sec : Z; unix_nsec : Z }.

(** Errors of the libraries the package calls ([io], [os], msgpack).
    They are values distinct from the package's own sentinel errors. *)
Inductive lib_error :=
| io_EOF
| io_ErrUnexpectedEOF
| lib_failure (msg : string).

(** A Go result [(value, error)]. *)
Inductive result (E A : Type) :=
| Ok (a : A)
| Err (e : E).
Arguments Ok {E A} a.
Arguments Err {E A} e.

(** Sequencing: the first error is returned. *)
#[global] Instance result_bind {E} : MBind (result E) :=
  λ A B k r, match r with Ok a => k a | Err e => Err e end.

(** ** Bytes *)

(** The byte of an integer, modulo 256 ([byte(x)] in Go). *)
Definition byte_of_Z (z : Z) : byte :=
  match Byte.of_N (Z.to_N (z mod 256)) with
  | Some b => b
  | None => x00
  end.

Definition Z_of_byte (b : byte) : Z := Z.of_N (Byte.to_N b).

(** [len(x)] *)
Definition len {A} (l : list A) : Z := Z.of_nat (length l).

(** [n] bytes, most significant first ([binary.BigEndian]). *)
Fixpoint be_bytes (n : nat) (z : Z) : bytes :=
  match n with
  | O => []
  | S n' => byte_of_Z (Z.shiftr z (8 * Z.of_nat n')) :: be_bytes n' z
  end.

Definition be_value (bs : bytes) : Z :=
  fold_left (λ acc b, acc * 256 + Z_of_byte b) bs 0.

(** ** IEEE-754 interchange formats

    The bit pattern of a float, for a fraction field of [mw] bits and an
    exponent field of [ew] bits ([math.Float32bits] and
    [math.Float32frombits] at 23 and 8).  [spec_float] has a single NaN;
    it is written as the quiet NaN with an empty payload. *)
Section interchange.
Variables mw ew : Z.

Definition bits_emin : Z := 3 - 2 ^ (ew - 1) - (mw + 1).

Definition join_bits (s : bool) (e m : Z) : Z :=
  (if s then 2 ^ (mw + ew) else 0) + e * 2 ^ mw + m.

Definition bits_of_float (x : spec_float) : Z :=
  match x with
  | S754_zero s => join_bits s 0 0
  | S754_infinity s => join_bits s (2 ^ ew - 1) 0
  | S754_nan => join_bits false (2 ^ ew - 1) (2 ^ (mw - 1))
  | S754_finite s m e =>
      if 2 ^ mw <=? Zpos m then join_bits s (e - bits_emin + 1) (Zpos m - 2 ^ mw)
      else join_bits s 0 (Zpos m)
  end.

Definition float_of_bits (x : Z) : spec_float :=
  let s := Z.testbit x (mw + ew) in
  let e := (x / 2 ^ mw) mod 2 ^ ew in
  let m := x mod 2 ^ mw in
  if e =? 0 then
    match m with
    | Zpos p => S754_finite s p bits_emin
    | _ => S754_zero s
    end
  else if e =? 2 ^ ew - 1 then
    if m =? 0 then S754_infinity s else S754_nan
  else
    match m + 2 ^ mw with
    | Zpos p => S754_finite s p (e + bits_emin - 1)
    | _ => S754_nan
    end.
End interchange.

Definition math_Float32bits : float32 → Z := bits_of_float 23 8.
Definition math_Float32frombits : Z → float32 := float_of_bits 23 8.
Definition math_Float64bits : float64 → Z := bits_of_float 52 11.
Definition math_Float64frombits : Z → float64 := float_of_bits 52 11.

(** ** MessagePack

    The wire format, as github.com/vmihailenco/msgpack/v5 writes and
    reads it.  A Go [interface{}] value that reaches the encoder is
    represented by the object it is written as. *)
Module Msgpack.

Inductive value :=
| VNil
| VBool (b : bool)
| VInt (z : Z)
| VFloat32 (f : float32)
| VFloat64 (f : float64)
| VStr (s : string)
| VBin (b : bytes)
| VArray (l : list value)
| VMap (l : list (value * value))
| VExt (ty : Z) (data : bytes).

(** *** Encoding *)

(** [EncodeInt]: the shortest form that holds the number. *)
Definition encode_int (n : Z) : bytes :=
  if 0 <=? n then
    if n <=? 127 then [byte_of_Z n]
    else if n <=? 255 then xcc :: be_bytes 1 n
    else if n <=? 65535 then xcd :: be_bytes 2 n
    else if n <=? 4294967295 then xce :: be_bytes 4 n
    else xcf :: be_bytes 8 n
  else
    if -32 <=? n then [byte_of_Z n]
    else if -128 <=? n then xd0 :: be_bytes 1 n
    else if -32768 <=? n then xd1 :: be_bytes 2 n
    else if -2147483648 <=? n then xd2 :: be_bytes 4 n
    else xd3 :: be_bytes 8 n.

Definition str_header (n : Z) : bytes :=
  if n <? 32 then [byte_of_Z (160 + n)]
  else if n <? 256 then xd9 :: be_bytes 1 n
  else if n <? 65536 then xda :: be_bytes 2 n
  else xdb :: be_bytes 4 n.

Definition bin_header (n : Z) : bytes :=
  if n <? 256 then xc4 :: be_bytes 1 n
  else if n <? 65536 then xc5 :: be_bytes 2 n
  else xc6 :: be_bytes 4 n.

Definition array_header (n : Z) : bytes :=
  if n <? 16 then [byte_of_Z (144 + n)]
  else if n <? 65536 then xdc :: be_bytes 2 n
  else xdd :: be_bytes 4 n.

Definition map_header (n : Z) : bytes :=
  if n <? 16 then [byte_of_Z (128 + n)]
  else if n <? 65536 then xde :: be_bytes 2 n
  else xdf :: be_bytes 4 n.

Definition ext_header (n : Z) : bytes :=
  if n =? 1 then [xd4]
  else if n =? 2 then [xd5]
  else if n =? 4 then [xd6]
  else if n =? 8 then [xd7]
  else if n =? 16 then [xd8]
  else if n <? 256 then xc7 :: be_bytes 1 n
  else if n <? 65536 then xc8 :: be_bytes 2 n
  else xc9 :: be_bytes 4 n.

Fixpoint encode (v : value) : bytes :=
  match v with
  | VNil => [xc0]
  | VBool false => [xc2]
  | VBool true => [xc3]
  | VInt n => encode_int n
  | VFloat32 f => xca :: be_bytes 4 (math_Float32bits f)
  | VFloat64 f => xcb :: be_bytes 8 (math_Float64bits f)
  | VStr s => str_header (len (list_byte_of_string s)) ++ list_byte_of_string s
  | VBin b => bin_header (len b) ++ b
  | VArray l => array_header (len l) ++ flat_map encode l
  | VMap l =>
      map_header (len l)
      ++ flat_map (λ kv : value * value, let (k, x) := kv in encode k ++ encode x) l
  | VExt ty data => ext_header (len data) ++ byte_of_Z ty :: data
  end.

(** *** Decoding *)

(** Outcome of reading from a stream of bytes: a value and the bytes
    left unread, or a failure.  Running out of input before the first
    byte of what is read is [io.EOF], running out in the middle
    [io.ErrUnexpectedEOF]. *)
Inductive parsed (A : Type) :=
| Parsed (a : A) (rest : bytes)
| Failed (e : lib_error).
Arguments Parsed {A} a rest.
Arguments Failed {A} e.

Definition bind {A B} (p : parsed A) (k : A → bytes → parsed B) : parsed B :=
  match p with
  | Parsed a rest => k a rest
  | Failed e => Failed e
  end.

Definition read_n (n : Z) (bs : bytes) : parsed bytes :=
  if n <=? 0 then Parsed ([] : bytes) bs
  else
    match bs with
    | [] => Failed io_EOF
    | _ =>
        if len bs <? n then Failed io_ErrUnexpectedEOF
        else Parsed (take (Z.to_nat n) bs) (drop (Z.to_nat n) bs)
    end.

Definition read_uint (k : Z) (bs : bytes) : parsed Z :=
  bind (read_n k bs) (λ b rest, Parsed (be_value b) rest).

Definition read_int (k : Z) (bs : bytes) : parsed Z :=
  bind (read_uint k bs) (λ u rest,
    Parsed (if u <? 2 ^ (8 * k - 1) then u else u - 2 ^ (8 * k)) rest).

(** [n] values in a row. *)
Fixpoint read_values (one : bytes → parsed value) (n : nat) (bs : bytes)
  : parsed (list value) :=
  match n with
  | O => Parsed ([] : list value) bs
  | S n' =>
      bind (one bs) (λ v rest,
        bind (read_values one n' rest) (λ vs rest', Parsed (v :: vs) rest'))
  end.

(** [n] keys, each followed by its value. *)
Fixpoint read_entries (one : bytes → parsed value) (n : nat) (bs : bytes)
  : parsed (list (value * value)) :=
  match n with
  | O => Parsed ([] : list (value * value)) bs
  | S n' =>
      bind (one bs) (λ k rest,
        bind (one rest) (λ v rest',
          bind (read_entries one n' rest') (λ kvs rest'', Parsed ((k, v) :: kvs) rest'')))
  end.

Definition read_str (n : Z) (bs : bytes) : parsed value :=
  bind (read_n n bs) (λ b rest, Parsed (VStr (string_of_list_byte b)) rest).

Definition read_bin (n : Z) (bs : bytes) : parsed value :=
  bind (read_n n bs) (λ b rest, Parsed (VBin b) rest).

Definition read_ext (n : Z) (bs : bytes) : parsed value :=
  bind (read_int 1 bs) (λ ty rest,
    bind (read_n n rest) (λ b rest', Parsed (VExt ty b) rest')).

(** One object whose first byte [c] has been read, the objects nested
    in it being read by [one]. *)
Definition decode_object (one : bytes → parsed value) (c : Z) (bs : bytes)
  : parsed value :=
  let uint k := bind (read_uint k bs) (λ u rest, Parsed (VInt u) rest) in
  let int k := bind (read_int k bs) (λ u rest, Parsed (VInt u) rest) in
  let array n bs :=
    bind (read_values one (Z.to_nat n) bs) (λ l rest, Parsed (VArray l) rest) in
  let map n bs :=
    bind (read_entries one (Z.to_nat n) bs) (λ l rest, Parsed (VMap l) rest) in
  if c <=? 127 then Parsed (VInt c) bs
  else if c <=? 143 then map (c - 128) bs
  else if c <=? 159 then array (c - 144) bs
  else if c <=? 191 then read_str (c - 160) bs
  else if 224 <=? c then Parsed (VInt (c - 256)) bs
  else
    match c with
    | 192 => Parsed VNil bs
    | 194 => Parsed (VBool false) bs
    | 195 => Parsed (VBool true) bs
    | 196 => bind (read_uint 1 bs) read_bin
    | 197 => bind (read_uint 2 bs) read_bin
    | 198 => bind (read_uint 4 bs) read_bin
    | 199 => bind (read_uint 1 bs) read_ext
    | 200 => bind (read_uint 2 bs) read_ext
    | 201 => bind (read_uint 4 bs) read_ext
    | 202 => bind (read_uint 4 bs)
                  (λ u rest, Parsed (VFloat32 (math_Float32frombits u)) rest)
    | 203 => bind (read_uint 8 bs)
                  (λ u rest, Parsed (VFloat64 (math_Float64frombits u)) rest)
    | 204 => uint 1
    | 205 => uint 2
    | 206 => uint 4
    | 207 => uint 8
    | 208 => int 1
    | 209 => int 2
    | 210 => int 4
    | 211 => int 8
    | 212 => read_ext 1 bs
    | 213 => read_ext 2 bs
    | 214 => read_ext 4 bs
    | 215 => read_ext 8 bs
    | 216 => read_ext 16 bs
    | 217 => bind (read_uint 1 bs) read_str
    | 218 => bind (read_uint 2 bs) read_str
    | 219 => bind (read_uint 4 bs) read_str
    | 220 => bind (read_uint 2 bs) array
    | 221 => bind (read_uint 4 bs) array
    | 222 => bind (read_uint 2 bs) map
    | 223 => bind (read_uint 4 bs) map
    | _ => Failed (lib_failure "msgpack: invalid code")
    end.

(** One object.  [fuel] bounds the nesting depth. *)
Fixpoint decode (fuel : nat) (bs : bytes) : parsed value :=
  match fuel with
  | O => Failed (lib_failure "msgpack: nesting too deep")
  | S fuel' =>
      match bs with
      | [] => Failed io_EOF
      | code :: bs => decode_object (decode fuel') (Z_of_byte code) bs
      end
  end.

(** Every object takes at least one byte, so the length of the input
    bounds the depth. *)
Definition decode_value (bs : bytes) : parsed value := decode (S (length bs)) bs.

(** *** Objects the format can hold *)

(** The exact representations: a float that is the reading of its own
    bit pattern of the given width. *)
Definition is_float32 (f : float32) : Prop :=
  0 <= math_Float32bits f < 2 ^ 32 ∧ math_Float32frombits (math_Float32bits f) = f.
Definition is_float64 (f : float64) : Prop :=
  0 <= math_Float64bits f < 2 ^ 64 ∧ math_Float64frombits (math_Float64bits f) = f.

(** Integers of 64 bits, signed or unsigned; lengths below 2^32;
    extension types of one signed byte. *)
Fixpoint wf_value (v : value) : Prop :=
  match v with
  | VNil | VBool _ => True
  | VInt z => - 2 ^ 63 <= z < 2 ^ 64
  | VFloat32 f => is_float32 f
  | VFloat64 f => is_float64 f
  | VStr s => len (list_byte_of_string s) < 2 ^ 32
  | VBin b => len b < 2 ^ 32
  | VArray l =>
      len l < 2 ^ 32
      ∧ (fix all (l : list value) : Prop :=
           match l with [] => True | x :: l' => wf_value x ∧ all l' end) l
  | VMap l =>
      len l < 2 ^ 32
      ∧ (fix all (l : list (value * value)) : Prop :=
           match l with
           | [] => True
           | (k, x) :: l' => wf_value k ∧ wf_value x ∧ all l'
           end) l
  | VExt ty data => -128 <= ty < 128 ∧ len data < 2 ^ 32
  end.

(** Nesting depth. *)
Fixpoint depth (v : value) : nat :=
  match v with
  | VArray l => S (fold_right (λ x d, Nat.max (depth x) d) O l)
  | VMap l =>
      S (fold_right (λ (kv : value * value) d,
                       let (k, x) := kv in Nat.max (depth k) (Nat.max (depth x) d)) O l)
  | _ => 1%nat
  end.

End Msgpack.
(** ** types.go

    A value of type [interface{}] in a [map[string]interface{}] is
    represented by the MessagePack object it is written as.  The Go type
    of the value is not part of the representation: an [int] and an
    [int8] of the same value are one object, although the decoder
    returns the second for both.  The properties below that read such
    values back are stated for nil, booleans, strings and floats, which
    come back as the Go values they were (see [Wf.wf_interface]). *)

Record Entity := {
  Name : string;
  Entity_Type : string;
  Entity_Confidence : float32;
  Entity_Start : Z;
  Entity_End : Z }.

Record Link := {
  TargetID : string;
  Link_Type : string;
  Weight : float32;
  Link_Metadata : gmap string Msgpack.value }.

Record NodeMeta := {
  Source : string;
  CreatedAt : option Time;
  UpdatedAt : option Time;
  NodeMeta_Confidence : float32;
  Importance : float32;
  AccessCount : Z;
  NodeMeta_Custom : gmap string Msgpack.value }.

Record MemoryNode := {
  ID : string;
  Content : string;
  Embedding : list float32;
  Tags : list string;
  Entities : list Entity;
  Links : list Link;
  Metadata : NodeMeta;
  Children : list string;
  ParentID : string }.

Record SchemaInfo := {
  Schema_Version : string;
  EmbeddingModel : string;
  EmbeddingDim : Z;
  Features : list string }.

Record SecurityInfo := {
  Integrity : string;
  Encryption : string;
  KeyID : string }.

Record FileMeta := {
  Title : string;
  Description : string;
  Author : string;
  License : string;
  FileMeta_Tags : list string;
  FileMeta_Custom : gmap string Msgpack.value }.

Record EngramHeader := {
  Version : string;
  Created : string;
  Modified : string;
  NodeCount : Z;
  Schema : SchemaInfo;
  Security : SecurityInfo;
  Header_Metadata : FileMeta }.

Record EngramFile := {
  Header : EngramHeader;
  Nodes : list MemoryNode }.

(** Zero values. *)
Definition zero_NodeMeta : NodeMeta :=
  {| Source := ""; CreatedAt := None; UpdatedAt := None;
     NodeMeta_Confidence := fzero; Importance := fzero; AccessCount := 0;
     NodeMeta_Custom := ∅ |}.

Definition zero_MemoryNode : MemoryNode :=
  {| ID := ""; Content := ""; Embedding := []; Tags := []; Entities := [];
     Links := []; Metadata := zero_NodeMeta; Children := []; ParentID := "" |}.

Definition zero_SchemaInfo : SchemaInfo :=
  {| Schema_Version := ""; EmbeddingModel := ""; EmbeddingDim := 0; Features := [] |}.

Definition zero_SecurityInfo : SecurityInfo :=
  {| Integrity := ""; Encryption := ""; KeyID := "" |}.

Definition zero_FileMeta : FileMeta :=
  {| Title := ""; Description := ""; Author := ""; License := "";
     FileMeta_Tags := []; FileMeta_Custom := ∅ |}.

Definition zero_EngramHeader : EngramHeader :=
  {| Version := ""; Created := ""; Modified := ""; NodeCount := 0;
     Schema := zero_SchemaInfo; Security := zero_SecurityInfo;
     Header_Metadata := zero_FileMeta |}.

(** ** tree.go: the index *)

Record MemoryTree := {
  nodes : list MemoryNode;
  byID : gmap string nat;
  byTag : gmap string (list nat);
  children : gmap string (list nat) }.

(** [m[k] = append(m[k], p)]: a missing key reads as the nil slice. *)
Definition bucket_append (p : nat) (m : gmap string (list nat)) (k : string)
  : gmap string (list nat) :=
  <[k := default [] (m !! k) ++ [p]]> m.

(** One iteration of the loop of [NewMemoryTree], for [node := &nodes[i]]. *)
Definition index_node (tree : MemoryTree) (i : nat) (node : MemoryNode) : MemoryTree :=
  {| nodes := nodes tree;
     byID := <[ID node := i]> (byID tree);
     byTag := foldl (bucket_append i) (byTag tree) (Tags node);
     children :=
       if decide (ParentID node = "") then children tree
       else bucket_append i (children tree) (ParentID node) |}.

(** [for i := range nodes], from index [i] on. *)
Fixpoint index_from (i : nat) (rest : list MemoryNode) (tree : MemoryTree) : MemoryTree :=
  match rest with
  | [] => tree
  | node :: rest' => index_from (S i) rest' (index_node tree i node)
  end.

Definition NewMemoryTree (ns : list MemoryNode) : MemoryTree :=
  index_from 0 ns {| nodes := ns; byID := ∅; byTag := ∅; children := ∅ |}.

(** [Get] returns a pointer, [None] being the nil pointer. *)
Definition Get (t : MemoryTree) (id : string) : option nat := byID t !! id.

(** Dereference of a pointer into the tree's slice. *)
Definition deref (t : MemoryTree) (p : nat) : option MemoryNode := nodes t !! p.

Definition GetAll (t : MemoryTree) : list MemoryNode := nodes t.

Definition Count (t : MemoryTree) : Z := Z.of_nat (length (nodes t)).

Definition GetByTag (t : MemoryTree) (tag : string) : list nat :=
  default [] (byTag t !! tag).

(** [sort.Strings]: sorting into increasing byte-wise order.  The keys of a
    map are pairwise distinct and the order is total, so the outcome does
    not depend on the sorting algorithm nor on the order in which the map
    was ranged over (see [GetTags_canonical]). *)
Definition sort_Strings (l : list string) : list string := merge_sort String.le l.

Definition GetTags (t : MemoryTree) : list string :=
  sort_Strings (elements (dom (byTag t))).

Definition GetChildren (t : MemoryTree) (parentID : string) : list nat :=
  default [] (children t !! parentID).

Definition GetRoots (t : MemoryTree) : list nat :=
  (fst <$> filter (λ p, ParentID p.2 = "") (imap pair (nodes t))).

Definition Filter (t : MemoryTree) (predicate : MemoryNode → bool) : list nat :=
  (fst <$> filter (λ p, predicate p.2 = true) (imap pair (nodes t))).

(** Number of times a value occurs in a list. *)
Definition occurrences {A} `{EqDecision A} (x : A) (l : list A) : nat :=
  length (filter (λ y, y = x) l).

(** ** Floating point *)

(** Conversion [float64(x)] of a [float32]: exact, the result is put in
    binary64 normal form. *)
Definition float64_of_float32 (x : float32) : float64 :=
  match x with
  | S754_finite s m e => binary_round 53 1024 s m e
  | _ => x
  end.

(** Conversion [float32(x)] of a [float64]: rounds to nearest even at
    precision 24, overflowing to an infinity. *)
Definition float32_of_float64 (x : float64) : float32 :=
  match x with
  | S754_finite s m e => binary_round 24 128 s m e
  | _ => x
  end.

Definition f64_add : float64 → float64 → float64 := SFadd 53 1024.
Definition f64_mul : float64 → float64 → float64 := SFmul 53 1024.
Definition f64_div : float64 → float64 → float64 := SFdiv 53 1024.
(** [math.Sqrt] *)
Definition math_Sqrt : float64 → float64 := SFsqrt 53 1024.

(** Go's [x == y] and [x > y] on floats. *)
Definition float_eq (x y : spec_float) : bool := SFeqb x y.
Definition float_gt (x y : spec_float) : bool := SFltb y x.

Definition is_nan (x : spec_float) : bool :=
  match x with S754_nan => true | _ => false end.

(** A small integer as a [float32], and the [float32] closest to a
    fraction, for writing literals such as [0.9]. *)
Definition float32_of_Z (z : Z) : float32 := binary_normalize 24 128 z 0 false.
Definition float32_of_ratio (p q : Z) : float32 :=
  SFdiv 24 128 (float32_of_Z p) (float32_of_Z q).

(** ** tree.go: cosine similarity and semantic search *)

(** The three [float64] accumulators of [cosineSimilarity]. *)
Record accum := { dotProduct : float64; normA : float64; normB : float64 }.

Definition accum_zero : accum :=
  {| dotProduct := fzero; normA := fzero; normB := fzero |}.

(** The body of [for i := range a]. *)
Definition accum_step (acc : accum) (ai bi : float32) : accum :=
  {| dotProduct := f64_add (dotProduct acc)
                     (f64_mul (float64_of_float32 ai) (float64_of_float32 bi));
     normA := f64_add (normA acc)
                (f64_mul (float64_of_float32 ai) (float64_of_float32 ai));
     normB := f64_add (normB acc)
                (f64_mul (float64_of_float32 bi) (float64_of_float32 bi)) |}.

(** The loop, over two slices of the same length. *)
Fixpoint accumulate (a b : list float32) (acc : accum) : accum :=
  match a, b with
  | ai :: a', bi :: b' => accumulate a' b' (accum_step acc ai bi)
  | _, _ => acc
  end.

(** The divisor [math.Sqrt(normA) * math.Sqrt(normB)]. *)
Definition norm_product (acc : accum) : float64 :=
  f64_mul (math_Sqrt (normA acc)) (math_Sqrt (normB acc)).

Definition cosineSimilarity (a b : list float32) : float32 :=
  if negb (length a =? length b)%nat || (length a =? 0)%nat then fzero
  else
    let acc := accumulate a b accum_zero in
    if float_eq (normA acc) fzero || float_eq (normB acc) fzero then fzero
    else float32_of_float64 (f64_div (dotProduct acc) (norm_product acc)).

Record SearchResult := { Node : nat; Score : float32 }.

(** [sort.Slice(x, less)] as the slice it leaves in [x].  The comparison
    of the source takes two positions of the slice being sorted; here it
    takes the two elements found there. *)
Class SliceSorter := sort_Slice : ∀ A : Type, (A → A → bool) → list A → list A.
Arguments sort_Slice {_ _} _ _.

(** What the package documentation asks of [less] ("a transitive
    ordering": transitive, and with a transitive "neither is less"),
    on the elements being sorted. *)
Record less_ordering {A} (less : A → A → bool) (l : list A) : Prop := {
  less_irrefl : ∀ x, x ∈ l → less x x = false;
  less_trans : ∀ x y z, x ∈ l → y ∈ l → z ∈ l →
      less x y = true → less y z = true → less x z = true;
  less_neg_trans : ∀ x y z, x ∈ l → y ∈ l → z ∈ l →
      less x y = false → less y z = false → less x z = false }.

(** [x] is not less than [y]. *)
Definition not_less {A} (less : A → A → bool) : relation A := λ x y, less x y = false.

(** No element of the slice is less than one that comes before it. *)
Definition sorted_by {A} (less : A → A → bool) (l : list A) : Prop :=
  StronglySorted (λ x y, less y x = false) l.

(** What [sort.Slice] promises: the elements are rearranged, and into
    order when [less] is an ordering.  It is documented as not
    guaranteed to be stable. *)
Class SliceSorterSpec (S : SliceSorter) : Prop := {
  sort_Slice_perm : ∀ A (less : A → A → bool) l, sort_Slice less l ≡ₚ l;
  sort_Slice_sorted : ∀ A (less : A → A → bool) l,
      less_ordering less l → sorted_by less (sort_Slice less l) }.

(** The comparison passed to [sort.Slice] by [Search]. *)
Definition by_score_desc (x y : SearchResult) : bool := float_gt (Score x) (Score y).

(** The scoring loop of [Search], from index [i] on. *)
Fixpoint score_from (queryEmbedding : list float32) (i : nat) (rest : list MemoryNode)
  : list SearchResult :=
  match rest with
  | [] => []
  | node :: rest' =>
      if (length (Embedding node) =? 0)%nat then score_from queryEmbedding (S i) rest'
      else {| Node := i; Score := cosineSimilarity queryEmbedding (Embedding node) |}
           :: score_from queryEmbedding (S i) rest'
  end.

Definition Search `{SliceSorter} (t : MemoryTree) (queryEmbedding : list float32)
    (limit : Z) : list SearchResult :=
  if (length queryEmbedding =? 0)%nat then []
  else
    let results := score_from queryEmbedding 0 (nodes t) in
    let results := sort_Slice by_score_desc results in
    if (0 <? limit) && (limit <? Z.of_nat (length results))
    then take (Z.to_nat limit) results
    else results.

(** Insertion sort as in [insertionSort_func] of package [sort]: each
    element in turn moves towards the front while it is less than its
    predecessor.  [insert_back] works on the sorted prefix reversed. *)
Fixpoint insert_back {A} (less : A → A → bool) (x : A) (rev_prefix : list A) : list A :=
  match rev_prefix with
  | [] => [x]
  | y :: r => if less x y then y :: insert_back less x r else x :: y :: r
  end.

Definition insertionSort {A} (less : A → A → bool) (l : list A) : list A :=
  reverse (foldl (λ acc x, insert_back less x acc) [] l).

(** One pass of Shell sort with gap 6: for [i] from 6 on, the elements at
    [i] and [i-6] are swapped when the former is less. *)
Definition swap_if_less {A} (less : A → A → bool) (l : list A) (i : nat) : list A :=
  match l !! i, l !! (i - 6)%nat with
  | Some x, Some y => if less x y then <[(i - 6)%nat := x]> (<[i := y]> l) else l
  | _, _ => l
  end.

Definition shell_pass_6 {A} (less : A → A → bool) (l : list A) : list A :=
  foldl (swap_if_less less) l (seq 6 (length l - 6)).

(** Two sorters that keep the promise of [sort.Slice]: plain insertion
    sort (what package [sort] runs on at most 12 elements since Go 1.19)
    and the gap-6 pass followed by insertion sort (what it ran on at most
    12 elements before). *)
Definition insertion_sorter : SliceSorter := λ A less l, insertionSort less l.
Definition shell_insertion_sorter : SliceSorter :=
  λ A less l, insertionSort less (shell_pass_6 less l).

(** A key that orders the floats other than NaN as [SFcompare] does:
    class (infinities, sign), then exponent, then mantissa. *)
Definition float_key (x : spec_float) : Z * Z * Z :=
  match x with
  | S754_nan => (0, 0, 0)
  | S754_zero _ => (0, 0, 0)
  | S754_infinity true => (-2, 0, 0)
  | S754_infinity false => (2, 0, 0)
  | S754_finite false m e => (1, e, Zpos m)
  | S754_finite true m e => (-1, - e, - Zpos m)
  end.

Definition key_lt (a b : Z * Z * Z) : Prop :=
  a.1.1 < b.1.1 ∨ (a.1.1 = b.1.1 ∧ (a.1.2 < b.1.2 ∨ (a.1.2 = b.1.2 ∧ a.2 < b.2))).

(** [results[:limit]] when [limit > 0] cuts anything. *)
Definition truncate (limit : Z) (l : list SearchResult) : list SearchResult :=
  if 0 <? limit then take (Z.to_nat limit) l else l.

(** The ranking as the specification words it: the scored pairs, by score
    descending, pairs of equal score in the order of the collection. *)
Definition stable_ranking (scored ranked : list SearchResult) : Prop :=
  ranked ≡ₚ scored ∧ sorted_by by_score_desc ranked ∧
  ∀ i j x y, (i < j)%nat → ranked !! i = Some x → ranked !! j = Some y →
             float_eq (Score x) (Score y) = true → (Node x < Node y)%nat.

(** A node with an embedding and nothing else. *)
Definition embedded_node (id : string) (embedding : list float32) : MemoryNode :=
  {| ID := id; Content := ""; Embedding := embedding; Tags := []; Entities := [];
     Links := []; Metadata := zero_NodeMeta; Children := []; ParentID := "" |}.

(** The magnitude of a float: number of binary digits of the mantissa
    plus exponent, so that the value is below 2 to this power and at
    least half of it. *)
Definition magnitude (m : positive) (e : Z) : Z := Zpos (digits2_pos m) + e.

(** Not a finite number of exponent below the smallest one of binary64
    (2^-1074 is the smallest positive [float64]). *)
Definition above_floor (x : float64) : Prop :=
  match x with
  | S754_finite _ _ e => -1074 <= e
  | _ => True
  end.

(** Infinite, NaN, or finite and of magnitude at least [k]. *)
Definition at_least (k : Z) (x : float64) : Prop :=
  match x with
  | S754_finite _ m e => k <= magnitude m e
  | S754_zero _ => False
  | _ => True
  end.

(** ** Hexadecimal and SHA-256 *)

(** [encoding/hex]: [EncodeToString], over the table
    ["0123456789abcdef"]. *)
Definition hextable : list ascii := list_ascii_of_string "0123456789abcdef".

Definition hex_digit (v : Z) : ascii := nth (Z.to_nat v) hextable "0"%char.

Fixpoint hex_EncodeToString (src : bytes) : string :=
  match src with
  | [] => ""
  | b :: src' =>
      String (hex_digit (Z.shiftr (Z_of_byte b) 4))
        (String (hex_digit (Z.land (Z_of_byte b) 15)) (hex_EncodeToString src'))
  end.

(** [crypto/sha256] (FIPS 180-4), on 32-bit words held in [Z]. *)
Module SHA256.

Definition w32 (x : Z) : Z := x mod 2 ^ 32.
Definition add32 (x y : Z) : Z := w32 (x + y).
Definition rotr (n x : Z) : Z := Z.lor (Z.shiftr x n) (w32 (Z.shiftl x (32 - n))).
Definition not32 (x : Z) : Z := Z.lxor x 4294967295.

Definition Ch (x y z : Z) : Z := Z.lxor (Z.land x y) (Z.land (not32 x) z).
Definition Maj (x y z : Z) : Z :=
  Z.lxor (Z.lxor (Z.land x y) (Z.land x z)) (Z.land y z).
Definition Sigma0 (x : Z) : Z := Z.lxor (Z.lxor (rotr 2 x) (rotr 13 x)) (rotr 22 x).
Definition Sigma1 (x : Z) : Z := Z.lxor (Z.lxor (rotr 6 x) (rotr 11 x)) (rotr 25 x).
Definition sigma0 (x : Z) : Z := Z.lxor (Z.lxor (rotr 7 x) (rotr 18 x)) (Z.shiftr x 3).
Definition sigma1 (x : Z) : Z := Z.lxor (Z.lxor (rotr 17 x) (rotr 19 x)) (Z.shiftr x 10).

(** The first 64 primes. *)
Definition primes : list Z :=
  [2; 3; 5; 7; 11; 13; 17; 19; 23; 29; 31; 37; 41; 43; 47; 53; 59; 61; 67; 71;
   73; 79; 83; 89; 97; 101; 103; 107; 109; 113; 127; 131; 137; 139; 149; 151;
   157; 163; 167; 173; 179; 181; 191; 193; 197; 199; 211; 223; 227; 229; 233;
   239; 241; 251; 257; 263; 269; 271; 277; 281; 283; 293; 307; 311].

(** The integer cube root of a number below 2^(3 * bits), one bit at a
    time from the top. *)
Fixpoint cube_root_bits (bits : nat) (n r : Z) : Z :=
  match bits with
  | O => r
  | S bits' =>
      let r' := r + 2 ^ Z.of_nat bits' in
      cube_root_bits bits' n (if r' * r' * r' <=? n then r' else r)
  end.

(** The round constants: the first 32 bits of the fractional parts of
    the cube roots of the primes (the table [_K] of the package). *)
Definition K : list Z :=
  (λ p, w32 (cube_root_bits 36 (p * 2 ^ 96) 0)) <$> primes.

(** Padding: one 1 bit, zeros up to 56 modulo 64 bytes, the length in
    bits on 8 bytes. *)
Definition pad (msg : bytes) : bytes :=
  let len := Z.of_nat (length msg) in
  let zeros := Z.to_nat ((55 - len) mod 64) in
  msg ++ x80 :: replicate zeros x00 ++ be_bytes 8 (8 * len).

(** The 16 words of a 64-byte block. *)
Fixpoint words (n : nat) (block : bytes) : list Z :=
  match n with
  | O => []
  | S n' => be_value (take 4 block) :: words n' (drop 4 block)
  end.

(** The message schedule, most recent word first: [w] holds
    [W(t-1), W(t-2), ...]. *)
Fixpoint schedule (n : nat) (w : list Z) : list Z :=
  match n with
  | O => w
  | S n' =>
      let wt := add32 (add32 (sigma1 (nth 1 w 0)) (nth 6 w 0))
                      (add32 (sigma0 (nth 14 w 0)) (nth 15 w 0)) in
      schedule n' (wt :: w)
  end.

Record state := { a : Z; b : Z; c : Z; d : Z; e : Z; f : Z; g : Z; h : Z }.

Definition round (s : state) (kw : Z * Z) : state :=
  let t1 := add32 (add32 (add32 (h s) (Sigma1 (e s))) (Ch (e s) (f s) (g s)))
                  (add32 kw.1 kw.2) in
  let t2 := add32 (Sigma0 (a s)) (Maj (a s) (b s) (c s)) in
  {| a := add32 t1 t2; b := a s; c := b s; d := c s;
     e := add32 (d s) t1; f := e s; g := f s; h := g s |}.

Definition compress (hs : state) (block : bytes) : state :=
  let w := reverse (schedule 48 (reverse (words 16 block))) in
  let s := fold_left round (zip K w) hs in
  {| a := add32 (a hs) (a s); b := add32 (b hs) (b s); c := add32 (c hs) (c s);
     d := add32 (d hs) (d s); e := add32 (e hs) (e s); f := add32 (f hs) (f s);
     g := add32 (g hs) (g s); h := add32 (h hs) (h s) |}.

Fixpoint blocks (n : nat) (hs : state) (data : bytes) : state :=
  match n with
  | O => hs
  | S n' => blocks n' (compress hs (take 64 data)) (drop 64 data)
  end.

(** The initial hash value: the first 32 bits of the fractional parts
    of the square roots of the first 8 primes. *)
Definition sqrt_frac (p : Z) : Z := w32 (Z.sqrt (p * 2 ^ 64)).

Definition init_state : state :=
  {| a := sqrt_frac 2; b := sqrt_frac 3; c := sqrt_frac 5; d := sqrt_frac 7;
     e := sqrt_frac 11; f := sqrt_frac 13; g := sqrt_frac 17; h := sqrt_frac 19 |}.

(** [sha256.Sum256] *)
Definition Sum256 (data : bytes) : bytes :=
  let p := pad data in
  let s := blocks (length p / 64) init_state p in
  be_bytes 4 (a s) ++ be_bytes 4 (b s) ++ be_bytes 4 (c s) ++ be_bytes 4 (d s)
  ++ be_bytes 4 (e s) ++ be_bytes 4 (f s) ++ be_bytes 4 (g s) ++ be_bytes 4 (h s).

End SHA256.

(** The integrity string of a payload: the SHA-256 digest in hexadecimal. *)
Definition payload_integrity (payloadBytes : bytes) : string :=
  hex_EncodeToString (SHA256.Sum256 payloadBytes).

(** [strings.ToLower] and [strings.ToUpper], on ASCII letters. *)
Definition ascii_lower (c : ascii) : ascii :=
  let n := nat_of_ascii c in
  if (65 <=? n)%nat && (n <=? 90)%nat then ascii_of_nat (n + 32) else c.

Definition ascii_upper (c : ascii) : ascii :=
  let n := nat_of_ascii c in
  if (97 <=? n)%nat && (n <=? 122)%nat then ascii_of_nat (n - 32) else c.

Fixpoint strings_ToLower (s : string) : string :=
  match s with
  | EmptyString => EmptyString
  | String c s' => String (ascii_lower c) (strings_ToLower s')
  end.

Fixpoint strings_ToUpper (s : string) : string :=
  match s with
  | EmptyString => EmptyString
  | String c s' => String (ascii_upper c) (strings_ToUpper s')
  end.

(** ** MessagePack for the types of the package

    How the encoder writes the structs of [types.go] under their
    [msgpack:"name,omitempty"] tags (a map from field names to values, an
    [omitempty] field left out when empty), and how the decoder fills
    them (fields found by name, absent ones left at their zero value;
    an array of as many objects as the struct has fields is also
    accepted and read positionally). *)
Module MsgpackGo.
Import Msgpack.

Definition res := result lib_error.

Definition failure {A} (msg : string) : res A := Err (lib_failure msg).

Fixpoint traverse {A B} (f : A → res B) (l : list A) : res (list B) :=
  match l with
  | [] => Ok []
  | x :: l' => y ← f x; ys ← traverse f l'; Ok (y :: ys)
  end.

(** *** Encoding *)

(** The fields of a struct in the order of their declaration, each
    with the object it is written as, or nothing when the field is
    [omitempty] and empty. *)
Definition fields := list (string * option value).

Definition keep (name : string) (v : value) : string * option value :=
  (name, Some v).
Definition omitempty (name : string) (empty : bool) (v : value)
  : string * option value :=
  (name, if empty then None else Some v).

(** The fields that are written. *)
Fixpoint present (t : fields) : list (string * value) :=
  match t with
  | [] => []
  | (name, Some v) :: t' => (name, v) :: present t'
  | (_, None) :: t' => present t'
  end.

(** A map from strings, as it is written. *)
Definition string_map (l : list (string * value)) : value :=
  VMap ((λ kv : string * value, (VStr kv.1, kv.2)) <$> l).

Definition struct_value (t : fields) : value := string_map (present t).

(** A struct is empty when none of its fields is written. *)
Definition struct_empty (t : fields) : bool :=
  match present t with [] => true | _ => false end.

Definition str_empty (s : string) : bool := bool_decide (s = "").
Definition list_empty {A} (l : list A) : bool :=
  match l with [] => true | _ => false end.
Definition strings_value (l : list string) : value := VArray (VStr <$> l).

(** A [map[string]interface{}]: the encoder ranges over the Go map,
    in an order that Go leaves unspecified and varies from one run to
    the next.  [map_to_list] stands for the order of one such run;
    what is proved below of an encoding holds whatever that order is,
    and nothing is claimed of the bytes of two separate runs. *)
Definition custom_value (m : gmap string value) : value :=
  string_map (map_to_list m).

(** The timestamp extension (type -1), on 4, 8 or 12 bytes. *)
Definition encodeTime (t : Time) : bytes :=
  let secs := unix_sec t mod 2 ^ 64 in
  if Z.shiftr secs 34 =? 0 then
    let data := Z.lor (Z.shiftl (unix_nsec t) 34) secs in
    if Z.shiftr data 32 =? 0 then be_bytes 4 data else be_bytes 8 data
  else be_bytes 4 (unix_nsec t) ++ be_bytes 8 secs.

(** The zero [time.Time]: January 1, year 1, 00:00 UTC. *)
Definition zero_Time : Time := {| unix_sec := -62135596800; unix_nsec := 0 |}.

Definition time_empty (t : option Time) : bool :=
  match t with
  | None => true
  | Some t => (unix_sec t =? unix_sec zero_Time) && (unix_nsec t =? 0)
  end.

Definition time_value (t : option Time) : value :=
  match t with
  | None => VNil
  | Some t => VExt (-1) (encodeTime t)
  end.

Definition Entity_fields (e : Entity) : fields :=
  [keep "name" (VStr (Name e));
   keep "type" (VStr (Entity_Type e));
   omitempty "confidence" (float_eq (Entity_Confidence e) fzero)
          (VFloat32 (Entity_Confidence e));
   omitempty "start" (Entity_Start e =? 0) (VInt (Entity_Start e));
   omitempty "end" (Entity_End e =? 0) (VInt (Entity_End e))].

Definition Entity_value (e : Entity) : value := struct_value (Entity_fields e).

Definition Link_fields (l : Link) : fields :=
  [keep "targetId" (VStr (TargetID l));
   keep "type" (VStr (Link_Type l));
   omitempty "weight" (float_eq (Weight l) fzero) (VFloat32 (Weight l));
   omitempty "metadata" (bool_decide (Link_Metadata l = ∅))
          (custom_value (Link_Metadata l))].

Definition Link_value (l : Link) : value := struct_value (Link_fields l).

Definition NodeMeta_fields (m : NodeMeta) : fields :=
  [omitempty "source" (str_empty (Source m)) (VStr (Source m));
   omitempty "createdAt" (time_empty (CreatedAt m)) (time_value (CreatedAt m));
   omitempty "updatedAt" (time_empty (UpdatedAt m)) (time_value (UpdatedAt m));
   omitempty "confidence" (float_eq (NodeMeta_Confidence m) fzero)
          (VFloat32 (NodeMeta_Confidence m));
   omitempty "importance" (float_eq (Importance m) fzero)
          (VFloat32 (Importance m));
   omitempty "accessCount" (AccessCount m =? 0) (VInt (AccessCount m));
   omitempty "custom" (bool_decide (NodeMeta_Custom m = ∅))
          (custom_value (NodeMeta_Custom m))].

Definition NodeMeta_value (m : NodeMeta) : value := struct_value (NodeMeta_fields m).

Definition MemoryNode_fields (n : MemoryNode) : fields :=
  [keep "id" (VStr (ID n));
   keep "content" (VStr (Content n));
   omitempty "embedding" (list_empty (Embedding n))
          (VArray (VFloat32 <$> Embedding n));
   omitempty "tags" (list_empty (Tags n)) (strings_value (Tags n));
   omitempty "entities" (list_empty (Entities n))
          (VArray (Entity_value <$> Entities n));
   omitempty "links" (list_empty (Links n)) (VArray (Link_value <$> Links n));
   omitempty "metadata" (struct_empty (NodeMeta_fields (Metadata n)))
          (NodeMeta_value (Metadata n));
   omitempty "children" (list_empty (Children n)) (strings_value (Children n));
   omitempty "parentId" (str_empty (ParentID n)) (VStr (ParentID n))].

Definition MemoryNode_value (n : MemoryNode) : value := struct_value (MemoryNode_fields n).

Definition SchemaInfo_fields (s : SchemaInfo) : fields :=
  [omitempty "version" (str_empty (Schema_Version s)) (VStr (Schema_Version s));
   omitempty "embeddingModel" (str_empty (EmbeddingModel s))
          (VStr (EmbeddingModel s));
   omitempty "embeddingDim" (EmbeddingDim s =? 0) (VInt (EmbeddingDim s));
   omitempty "features" (list_empty (Features s)) (strings_value (Features s))].

Definition SchemaInfo_value (s : SchemaInfo) : value := struct_value (SchemaInfo_fields s).

Definition SecurityInfo_fields (s : SecurityInfo) : fields :=
  [omitempty "integrity" (str_empty (Integrity s)) (VStr (Integrity s));
   omitempty "encryption" (str_empty (Encryption s)) (VStr (Encryption s));
   omitempty "keyId" (str_empty (KeyID s)) (VStr (KeyID s))].

Definition SecurityInfo_value (s : SecurityInfo) : value := struct_value (SecurityInfo_fields s).

Definition FileMeta_fields (m : FileMeta) : fields :=
  [omitempty "title" (str_empty (Title m)) (VStr (Title m));
   omitempty "description" (str_empty (Description m)) (VStr (Description m));
   omitempty "author" (str_empty (Author m)) (VStr (Author m));
   omitempty "license" (str_empty (License m)) (VStr (License m));
   omitempty "tags" (list_empty (FileMeta_Tags m)) (strings_value (FileMeta_Tags m));
   omitempty "custom" (bool_decide (FileMeta_Custom m = ∅))
          (custom_value (FileMeta_Custom m))].

Definition FileMeta_value (m : FileMeta) : value := struct_value (FileMeta_fields m).

Definition EngramHeader_fields (h : EngramHeader) : fields :=
  [keep "version" (VStr (Version h));
   keep "created" (VStr (Created h));
   keep "modified" (VStr (Modified h));
   keep "nodeCount" (VInt (NodeCount h));
   omitempty "schema" (struct_empty (SchemaInfo_fields (Schema h)))
          (SchemaInfo_value (Schema h));
   omitempty "security" (struct_empty (SecurityInfo_fields (Security h)))
          (SecurityInfo_value (Security h));
   omitempty "metadata" (struct_empty (FileMeta_fields (Header_Metadata h)))
          (FileMeta_value (Header_Metadata h))].

Definition EngramHeader_value (h : EngramHeader) : value := struct_value (EngramHeader_fields h).

(** A slice of nodes.  The nil slice is written as nil.  (A slice that
    is empty without being nil is written as an empty array; a list
    does not tell the two apart, and the empty list stands for the nil
    slice.) *)
Definition nodes_value (ns : list MemoryNode) : value :=
  match ns with
  | [] => VNil
  | _ => VArray (MemoryNode_value <$> ns)
  end.

(** *** Decoding *)

Definition as_string (v : value) : res string :=
  match v with
  | VStr s => Ok s
  | VBin b => Ok (string_of_list_byte b)
  | VNil => Ok ""
  | _ => failure "msgpack: invalid code decoding string/bytes length"
  end.

(** [int64(u)] of an unsigned 64-bit integer. *)
Definition signed64 (u : Z) : Z := if u <? 2 ^ 63 then u else u - 2 ^ 64.

(** An integer, into a Go [int]: an unsigned value above the largest
    [int64] wraps around. *)
Definition as_int (v : value) : res Z :=
  match v with
  | VInt z => Ok (signed64 z)
  | VNil => Ok 0
  | _ => failure "msgpack: invalid code decoding int64"
  end.

Definition as_float32 (v : value) : res float32 :=
  match v with
  | VFloat32 f => Ok f
  | VInt z => Ok (float32_of_Z z)
  | VNil => Ok fzero
  | _ => failure "msgpack: invalid code decoding float32"
  end.

Definition as_slice {A} (elem : value → res A) (v : value) : res (list A) :=
  match v with
  | VArray l => traverse elem l
  | VNil => Ok []
  | _ => failure "msgpack: invalid code decoding array length"
  end.

Definition as_key (kv : value * value) : res (string * value) :=
  k ← as_string kv.1; Ok (k, kv.2).

Definition as_time (v : value) : res (option Time) :=
  match v with
  | VNil => Ok None
  | VExt (-1) b =>
      match length b with
      | 4%nat => Ok (Some {| unix_sec := be_value b; unix_nsec := 0 |})
      | 8%nat =>
          let data := be_value b in
          Ok (Some {| unix_sec := Z.land data 17179869183; unix_nsec := Z.shiftr data 34 |})
      | 12%nat =>
          Ok (Some {| unix_sec := signed64 (be_value (drop 4 b));
                      unix_nsec := be_value (take 4 b) |})
      | _ => failure "msgpack: invalid ext len decoding time"
      end
  | _ => failure "msgpack: invalid code decoding time"
  end.

(** An object into an [interface{}] ([DecodeInterface]), as the object
    the Go value it returns is written as.  An extension type other
    than the timestamp is not known to the decoder, and a map is read
    as a [map[string]interface{}], so its keys must be strings. *)
Fixpoint as_interface (v : value) : res value :=
  match v with
  | VExt ty _ =>
      if ty =? -1 then _ ← as_time v; Ok v
      else failure "msgpack: unknown ext id"
  | VArray l =>
      l' ← (fix elements (l : list value) : res (list value) :=
              match l with
              | [] => Ok []
              | x :: l' => y ← as_interface x; ys ← elements l'; Ok (y :: ys)
              end) l;
      Ok (VArray l')
  | VMap l =>
      l' ← (fix entries (l : list (value * value)) : res (list (value * value)) :=
              match l with
              | [] => Ok []
              | (k, x) :: l' =>
                  k' ← as_string k; y ← as_interface x; ys ← entries l';
                  Ok ((VStr k', y) :: ys)
              end) l;
      Ok (VMap l')
  | _ => Ok v
  end.

(** An entry of a [map[string]interface{}] ([DecodeMap]). *)
Definition as_entry (kv : value * value) : res (string * value) :=
  k ← as_string kv.1; x ← as_interface kv.2; Ok (k, x).

Definition as_custom (v : value) : res (gmap string value) :=
  match v with
  | VMap l =>
      kvs ← traverse as_entry l;
      Ok (foldl (λ (m : gmap string value) (kv : string * value), <[kv.1 := kv.2]> m) ∅ kvs)
  | VNil => Ok ∅
  | _ => failure "msgpack: invalid code decoding map length"
  end.

(** The entries a struct with the given field names is filled from. *)
Definition struct_entries (names : list string) (v : value)
  : res (list (string * value)) :=
  match v with
  | VNil => Ok []
  | VMap l => traverse as_key l
  | VArray [] => Ok []
  | VArray l =>
      if (length l =? length names)%nat then Ok (zip names l)
      else failure "msgpack: number of fields in array-encoded struct doesn't match"
  | _ => failure "msgpack: invalid code decoding map length"
  end.

(** The value a field ends with: each entry under its name is decoded
    and assigned in turn. *)
Fixpoint field {A} (name : string) (dec : value → res A) (current : A)
    (entries : list (string * value)) : res A :=
  match entries with
  | [] => Ok current
  | (k, v) :: entries' =>
      if bool_decide (k = name) then x ← dec v; field name dec x entries'
      else field name dec current entries'
  end.

Definition Entity_of_value (v : value) : res Entity :=
  es ← struct_entries ["name"; "type"; "confidence"; "start"; "end"] v;
  name ← field "name" as_string "" es;
  type ← field "type" as_string "" es;
  confidence ← field "confidence" as_float32 fzero es;
  start ← field "start" as_int 0 es;
  end_ ← field "end" as_int 0 es;
  Ok {| Name := name; Entity_Type := type; Entity_Confidence := confidence;
        Entity_Start := start; Entity_End := end_ |}.

Definition Link_of_value (v : value) : res Link :=
  es ← struct_entries ["targetId"; "type"; "weight"; "metadata"] v;
  targetId ← field "targetId" as_string "" es;
  type ← field "type" as_string "" es;
  weight ← field "weight" as_float32 fzero es;
  metadata ← field "metadata" as_custom ∅ es;
  Ok {| TargetID := targetId; Link_Type := type; Weight := weight;
        Link_Metadata := metadata |}.

Definition NodeMeta_of_value (v : value) : res NodeMeta :=
  es ← struct_entries ["source"; "createdAt"; "updatedAt"; "confidence";
                       "importance"; "accessCount"; "custom"] v;
  source ← field "source" as_string "" es;
  createdAt ← field "createdAt" as_time None es;
  updatedAt ← field "updatedAt" as_time None es;
  confidence ← field "confidence" as_float32 fzero es;
  importance ← field "importance" as_float32 fzero es;
  accessCount ← field "accessCount" as_int 0 es;
  custom ← field "custom" as_custom ∅ es;
  Ok {| Source := source; CreatedAt := createdAt; UpdatedAt := updatedAt;
        NodeMeta_Confidence := confidence; Importance := importance;
        AccessCount := accessCount; NodeMeta_Custom := custom |}.

Definition MemoryNode_of_value (v : value) : res MemoryNode :=
  es ← struct_entries ["id"; "content"; "embedding"; "tags"; "entities"; "links";
                       "metadata"; "children"; "parentId"] v;
  id ← field "id" as_string "" es;
  content ← field "content" as_string "" es;
  embedding ← field "embedding" (as_slice as_float32) [] es;
  tags ← field "tags" (as_slice as_string) [] es;
  entities ← field "entities" (as_slice Entity_of_value) [] es;
  links ← field "links" (as_slice Link_of_value) [] es;
  metadata ← field "metadata" NodeMeta_of_value zero_NodeMeta es;
  children ← field "children" (as_slice as_string) [] es;
  parentId ← field "parentId" as_string "" es;
  Ok {| ID := id; Content := content; Embedding := embedding; Tags := tags;
        Entities := entities; Links := links; Metadata := metadata;
        Children := children; ParentID := parentId |}.

Definition SchemaInfo_of_value (v : value) : res SchemaInfo :=
  es ← struct_entries ["version"; "embeddingModel"; "embeddingDim"; "features"] v;
  version ← field "version" as_string "" es;
  embeddingModel ← field "embeddingModel" as_string "" es;
  embeddingDim ← field "embeddingDim" as_int 0 es;
  features ← field "features" (as_slice as_string) [] es;
  Ok {| Schema_Version := version; EmbeddingModel := embeddingModel;
        EmbeddingDim := embeddingDim; Features := features |}.

Definition SecurityInfo_of_value (v : value) : res SecurityInfo :=
  es ← struct_entries ["integrity"; "encryption"; "keyId"] v;
  integrity ← field "integrity" as_string "" es;
  encryption ← field "encryption" as_string "" es;
  keyId ← field "keyId" as_string "" es;
  Ok {| Integrity := integrity; Encryption := encryption; KeyID := keyId |}.

Definition FileMeta_of_value (v : value) : res FileMeta :=
  es ← struct_entries ["title"; "description"; "author"; "license"; "tags"; "custom"] v;
  title ← field "title" as_string "" es;
  description ← field "description" as_string "" es;
  author ← field "author" as_string "" es;
  license ← field "license" as_string "" es;
  tags ← field "tags" (as_slice as_string) [] es;
  custom ← field "custom" as_custom ∅ es;
  Ok {| Title := title; Description := description; Author := author;
        License := license; FileMeta_Tags := tags; FileMeta_Custom := custom |}.

Definition EngramHeader_of_value (v : value) : res EngramHeader :=
  es ← struct_entries ["version"; "created"; "modified"; "nodeCount"; "schema";
                       "security"; "metadata"] v;
  version ← field "version" as_string "" es;
  created ← field "created" as_string "" es;
  modified ← field "modified" as_string "" es;
  nodeCount ← field "nodeCount" as_int 0 es;
  schema ← field "schema" SchemaInfo_of_value zero_SchemaInfo es;
  security ← field "security" SecurityInfo_of_value zero_SecurityInfo es;
  metadata ← field "metadata" FileMeta_of_value zero_FileMeta es;
  Ok {| Version := version; Created := created; Modified := modified;
        NodeCount := nodeCount; Schema := schema; Security := security;
        Header_Metadata := metadata |}.

Definition nodes_of_value (v : value) : res (list MemoryNode) :=
  as_slice MemoryNode_of_value v.

(** [msgpack.Marshal(v)] for a value written as [to_value v]. *)
Definition Marshal {A} (to_value : A → value) (v : A) : res bytes :=
  Ok (encode (to_value v)).

(** [decoder.Decode(&v)] on the unread bytes [bs]: the value and the
    number of bytes read. *)
Definition Decode {A} (of_value : value → res A) (bs : bytes) : res (A * nat) :=
  match decode_value bs with
  | Failed e => Err e
  | Parsed v rest => a ← of_value v; Ok (a, (length bs - length rest)%nat)
  end.

End MsgpackGo.

(** ** Values within the ranges of the format

    The data that the library writes and reads back as it was.
    Strings, slices and maps shorter than 2^32, integers of 64 bits,
    floats that are [float32] values, times with nanoseconds below one
    second.  In a field tagged [omitempty] two values are written like
    the zero value (left out) and are excluded: the negative zero of a
    float and a pointer to the zero [time.Time].  The values of the
    custom maps are those of [wf_interface]. *)
Module Wf.
Import Msgpack MsgpackGo.

Definition wf_string (s : string) : Prop := len (list_byte_of_string s) < 2 ^ 32.

Definition wf_int (z : Z) : Prop := - 2 ^ 63 <= z < 2 ^ 63.

Definition wf_float32_omitempty (f : float32) : Prop :=
is_float32 f ∧ f ≠ S754_zero true.

Definition wf_strings (l : list string) : Prop :=
len l < 2 ^ 32 ∧ Forall wf_string l.

(** The values of a [map[string]interface{}] that the decoder returns
  as the Go values they were: nil, booleans, strings, [float32] and
  [float64].  (An integer comes back with the type of its encoding, a
  slice as a [[]interface{}], a [time.Time] in another location, and
  what is written as an unknown extension type or as a map with a key
  that is no string is not read at all.) *)
Definition wf_interface (v : value) : Prop :=
match v with
| VNil | VBool _ => True
| VStr s => wf_string s
| VFloat32 f => is_float32 f
| VFloat64 f => is_float64 f
| _ => False
end.

Definition wf_custom (m : gmap string value) : Prop :=
len (map_to_list m) < 2 ^ 32
∧ Forall (λ kv : string * value, wf_string kv.1 ∧ wf_interface kv.2) (map_to_list m).

Definition wf_time (t : Time) : Prop :=
0 <= unix_nsec t < 2 ^ 30 ∧ - 2 ^ 63 <= unix_sec t < 2 ^ 63.

Definition wf_time_pointer (t : option Time) : Prop :=
match t with
| None => True
| Some t => wf_time t ∧ t ≠ zero_Time
end.

Definition wf_Entity (e : Entity) : Prop :=
wf_string (Name e) ∧ wf_string (Entity_Type e)
∧ wf_float32_omitempty (Entity_Confidence e)
∧ wf_int (Entity_Start e) ∧ wf_int (Entity_End e).

Definition wf_Link (l : Link) : Prop :=
wf_string (TargetID l) ∧ wf_string (Link_Type l)
∧ wf_float32_omitempty (Weight l) ∧ wf_custom (Link_Metadata l).

Definition wf_NodeMeta (m : NodeMeta) : Prop :=
wf_string (Source m) ∧ wf_time_pointer (CreatedAt m) ∧ wf_time_pointer (UpdatedAt m)
∧ wf_float32_omitempty (NodeMeta_Confidence m) ∧ wf_float32_omitempty (Importance m)
∧ wf_int (AccessCount m) ∧ wf_custom (NodeMeta_Custom m).

Definition wf_MemoryNode (n : MemoryNode) : Prop :=
wf_string (ID n) ∧ wf_string (Content n)
∧ (len (Embedding n) < 2 ^ 32 ∧ Forall is_float32 (Embedding n))
∧ wf_strings (Tags n)
∧ (len (Entities n) < 2 ^ 32 ∧ Forall wf_Entity (Entities n))
∧ (len (Links n) < 2 ^ 32 ∧ Forall wf_Link (Links n))
∧ wf_NodeMeta (Metadata n)
∧ wf_strings (Children n) ∧ wf_string (ParentID n).

Definition wf_SchemaInfo (s : SchemaInfo) : Prop :=
wf_string (Schema_Version s) ∧ wf_string (EmbeddingModel s)
∧ wf_int (EmbeddingDim s) ∧ wf_strings (Features s).

Definition wf_SecurityInfo (s : SecurityInfo) : Prop :=
wf_string (Integrity s) ∧ wf_string (Encryption s) ∧ wf_string (KeyID s).

Definition wf_FileMeta (m : FileMeta) : Prop :=
wf_string (Title m) ∧ wf_string (Description m) ∧ wf_string (Author m)
∧ wf_string (License m) ∧ wf_strings (FileMeta_Tags m) ∧ wf_custom (FileMeta_Custom m).

Definition wf_EngramHeader (h : EngramHeader) : Prop :=
wf_string (Version h) ∧ wf_string (Created h) ∧ wf_string (Modified h)
∧ wf_int (NodeCount h) ∧ wf_SchemaInfo (Schema h) ∧ wf_SecurityInfo (Security h)
∧ wf_FileMeta (Header_Metadata h).

Definition wf_nodes (ns : list MemoryNode) : Prop :=
len ns < 2 ^ 32 ∧ Forall wf_MemoryNode ns.

(** A file, and the clock reading it is encoded at. *)
Definition wf_file (now : string) (file : EngramFile) : Prop :=
wf_string now ∧ wf_EngramHeader (Header file) ∧ wf_nodes (Nodes file).

(** The object a field is written as, if it is written. *)
Fixpoint table_get (name : string) (t : fields) : option value :=
match t with
| [] => None
| (k, ov) :: t' => if String.eqb k name then ov else table_get name t'
end.

(** Decoding of a field from the object found for it, if any. *)
Definition decode_field {A} (dec : value → res A) (zero : A) (ov : option value) : res A :=
match ov with
| Some v => dec v
| None => Ok zero
end.

(** The fields of a table are within the ranges of the format. *)
Definition wf_fields (t : fields) : Prop :=
Forall (λ kv : string * option value,
          wf_string kv.1 ∧ from_option wf_value True kv.2) t.

End Wf.

(** ** The codec *)

#[global] Instance byte_eq_dec : EqDecision byte := Byte.byte_eq_dec.

(** "ENGRAM" *)
Definition MagicBytes : bytes := [x45; x4e; x47; x52; x41; x4d].

(** The errors the package returns: its two sentinels, and a library
    error wrapped by [fmt.Errorf("...: %w", err)]. *)
Inductive error :=
| ErrInvalidMagic
| ErrIntegrityFailed
| Errorf (msg : string) (cause : lib_error).

(** [errors.Is(err, target)] for a sentinel [target]: the chain of an
    [Errorf] leads to a library error, which is no sentinel of the
    package. *)
Definition errors_Is (err target : error) : bool :=
  match err, target with
  | ErrInvalidMagic, ErrInvalidMagic => true
  | ErrIntegrityFailed, ErrIntegrityFailed => true
  | _, _ => false
  end.

(** The entry points of the msgpack library that the package calls.
    [Marshal_nodes] and [Marshal_header] are [msgpack.Marshal] at the two
    types it is used at.  [Decode_header], [Decode_nodes] and
    [Decode_node] are [decoder.Decode(&v)] for [v] an [EngramHeader], a
    [[]MemoryNode] and a [MemoryNode]: given the bytes its reader has
    yet to deliver, the decoder returns the value and the number of
    bytes it has read. *)
Class MsgpackLib := {
  Marshal_nodes : list MemoryNode → result lib_error bytes;
  Marshal_header : EngramHeader → result lib_error bytes;
  Decode_header : bytes → result lib_error (EngramHeader * nat);
  Decode_nodes : bytes → result lib_error (list MemoryNode * nat);
  Decode_node : bytes → result lib_error (MemoryNode * nat) }.

(** The library as modelled above. *)
Definition msgpack_v5 : MsgpackLib := {|
  Marshal_nodes := MsgpackGo.Marshal MsgpackGo.nodes_value;
  Marshal_header := MsgpackGo.Marshal MsgpackGo.EngramHeader_value;
  Decode_header := MsgpackGo.Decode MsgpackGo.EngramHeader_of_value;
  Decode_nodes := MsgpackGo.Decode MsgpackGo.nodes_of_value;
  Decode_node := MsgpackGo.Decode MsgpackGo.MemoryNode_of_value |}.

(** Assignments to the fields of a header. *)
Definition set_NodeCount (h : EngramHeader) (n : Z) : EngramHeader :=
  {| Version := Version h; Created := Created h; Modified := Modified h;
     NodeCount := n; Schema := Schema h; Security := Security h;
     Header_Metadata := Header_Metadata h |}.

Definition set_Modified (h : EngramHeader) (s : string) : EngramHeader :=
  {| Version := Version h; Created := Created h; Modified := s;
     NodeCount := NodeCount h; Schema := Schema h; Security := Security h;
     Header_Metadata := Header_Metadata h |}.

Definition set_Created (h : EngramHeader) (s : string) : EngramHeader :=
  {| Version := Version h; Created := s; Modified := Modified h;
     NodeCount := NodeCount h; Schema := Schema h; Security := Security h;
     Header_Metadata := Header_Metadata h |}.

Definition set_Version (h : EngramHeader) (s : string) : EngramHeader :=
  {| Version := s; Created := Created h; Modified := Modified h;
     NodeCount := NodeCount h; Schema := Schema h; Security := Security h;
     Header_Metadata := Header_Metadata h |}.

Definition set_Security_Integrity (h : EngramHeader) (s : string) : EngramHeader :=
  {| Version := Version h; Created := Created h; Modified := Modified h;
     NodeCount := NodeCount h; Schema := Schema h;
     Security := {| Integrity := s; Encryption := Encryption (Security h);
                    KeyID := KeyID (Security h) |};
     Header_Metadata := Header_Metadata h |}.

(** [Decode].  [reader] is what [bytes.NewReader(data[6:])] has left to
    deliver, so that [reader.Len()] is its length. *)
Definition Decode `{MsgpackLib} (data : bytes) : result error EngramFile :=
  if (len data <? 6) || negb (bool_decide (take 6 data = MagicBytes))
  then Err ErrInvalidMagic
  else
    let reader := drop 6 data in
    match Decode_header reader with
    | Err err => Err (Errorf "failed to decode header" err)
    | Ok (header, n) =>
        let reader := drop n reader in
        let payloadStart := 6 + (len data - 6 - len reader) in
        let payloadBytes := drop (Z.to_nat payloadStart) data in
        if negb (bool_decide (Integrity (Security header) = ""))
           && negb (bool_decide
                      (hex_EncodeToString (SHA256.Sum256 payloadBytes)
                       = Integrity (Security header)))
        then Err ErrIntegrityFailed
        else
          match Decode_nodes payloadBytes with
          | Err err => Err (Errorf "failed to decode nodes" err)
          | Ok (nodes, _) => Ok {| Header := header; Nodes := nodes |}
          end
    end.

(** The header [Encode] serializes: a copy of [file.Header] with the
    assignments of the source applied in order.  [now] is
    [time.Now().UTC().Format(time.RFC3339)]. *)
Definition updated_header (now : string) (file : EngramFile) (integrity : string)
  : EngramHeader :=
  let header := Header file in
  let header := set_NodeCount header (len (Nodes file)) in
  let header := set_Modified header now in
  let header :=
    if bool_decide (Created header = "") then set_Created header (Modified header)
    else header in
  let header :=
    if bool_decide (Version header = "") then set_Version header "1.0"
    else header in
  set_Security_Integrity header integrity.

Definition Encode `{MsgpackLib} (now : string) (file : EngramFile) : result error bytes :=
  match Marshal_nodes (Nodes file) with
  | Err err => Err (Errorf "failed to encode nodes" err)
  | Ok payloadBytes =>
      let integrity := hex_EncodeToString (SHA256.Sum256 payloadBytes) in
      let header := updated_header now file integrity in
      match Marshal_header header with
      | Err err => Err (Errorf "failed to encode header" err)
      | Ok headerBytes => Ok (MagicBytes ++ headerBytes ++ payloadBytes)
      end
  end.

(** The file system, for [os.ReadFile]. *)
Definition filesystem := string → result lib_error bytes.

Definition ReadFile `{MsgpackLib} (fs : filesystem) (path : string)
  : result error EngramFile :=
  match fs path with
  | Err err => Err (Errorf "failed to read file" err)
  | Ok data => Decode data
  end.

(** [VerifyIntegrity] returns [(bool, error)], [None] being the nil
    error. *)
Definition VerifyIntegrity `{MsgpackLib} (fs : filesystem) (path : string)
  : bool * option error :=
  match ReadFile fs path with
  | Err err =>
      if errors_Is err ErrIntegrityFailed then (false, None)
      else (false, Some err)
  | Ok _ => (true, None)
  end.

(** *** Streaming *)

(** [reader] is what the source has left to deliver; the decoder reads
    from it. *)
Record StreamReader := {
  reader : bytes;
  Stream_Header : EngramHeader;
  count : Z;
  index : Z }.

Definition NewStreamReader `{MsgpackLib} (r : bytes) : result error StreamReader :=
  match r with
  | [] => Err (Errorf "failed to read magic bytes" io_EOF)
  | _ =>
      if len r <? 6 then Err (Errorf "failed to read magic bytes" io_ErrUnexpectedEOF)
      else if negb (bool_decide (take 6 r = MagicBytes)) then Err ErrInvalidMagic
      else
        match Decode_header (drop 6 r) with
        | Err err => Err (Errorf "failed to decode header" err)
        | Ok (header, n) =>
            Ok {| reader := drop n (drop 6 r); Stream_Header := header;
                  count := NodeCount header; index := 0 |}
        end
  end.

(** The three outcomes of [Next]: a node, [(nil, nil)], an error. *)
Inductive next :=
| NextNode (node : MemoryNode)
| NextDone
| NextError (err : error).

(** [Next], with the reader as it leaves it (a failed call leaves the
    stream where the failure occurred; it is not read again here). *)
Definition Next `{MsgpackLib} (sr : StreamReader) : next * StreamReader :=
  if index sr >=? count sr then (NextDone, sr)
  else
    match Decode_node (reader sr) with
    | Err io_EOF => (NextDone, sr)
    | Err err => (NextError (Errorf "failed to decode node" err), sr)
    | Ok (node, n) =>
        (NextNode node,
         {| reader := drop n (reader sr); Stream_Header := Stream_Header sr;
            count := count sr; index := index sr + 1 |})
    end.

(** The loop of a consumer: call [Next] until it returns no node,
    collecting the nodes; an error ends it.  At most [fuel] nodes are
    taken. *)
Fixpoint collect `{MsgpackLib} (fuel : nat) (sr : StreamReader)
  : result error (list MemoryNode) :=
  match Next sr with
  | (NextDone, _) => Ok []
  | (NextError err, _) => Err err
  | (NextNode node, sr') =>
      match fuel with
      | O => Ok [node]
      | S fuel' =>
          match collect fuel' sr' with
          | Ok l => Ok (node :: l)
          | Err err => Err err
          end
      end
  end.

(** [count - index] calls return a node at most, so this fuel lets the
    loop run to its end. *)
Definition ReadAll `{MsgpackLib} (sr : StreamReader) : result error (list MemoryNode) :=
  collect (Z.to_nat (count sr - index sr)) sr.

(** Decoding a whole buffer through the streaming reader. *)
Definition StreamDecode `{MsgpackLib} (data : bytes) : result error (list MemoryNode) :=
  match NewStreamReader data with
  | Err err => Err err
  | Ok sr => ReadAll sr
  end.

(** A library with another node-slice decoder, everything else the same. *)
Definition with_Decode_nodes (L : MsgpackLib)
    (d : bytes → result lib_error (list MemoryNode * nat)) : MsgpackLib :=
  {| Marshal_nodes := @Marshal_nodes L; Marshal_header := @Marshal_header L;
     Decode_header := @Decode_header L; Decode_nodes := d;
     Decode_node := @Decode_node L |}.

(** ** Example data *)

(** The file of the package's round-trip test. *)
Definition test_file : EngramFile :=
  {| Header := set_Version zero_EngramHeader "1.0";
     Nodes := [ {| ID := "node-1"; Content := "First memory"; Embedding := [];
                   Tags := ["test"; "first"]; Entities := []; Links := [];
                   Metadata := zero_NodeMeta; Children := []; ParentID := "" |};
                {| ID := "node-2"; Content := "Second memory"; Embedding := [];
                   Tags := ["test"; "second"]; Entities := []; Links := [];
                   Metadata := zero_NodeMeta; Children := []; ParentID := "node-1" |} ] |}.

(** The clock reading used in the examples. *)
Definition test_now : string := "2026-02-27T00:00:00Z".

(** A file with a single node. *)
Definition one_node_file : EngramFile :=
  {| Header := set_Version zero_EngramHeader "1.0";
     Nodes := [embedded_node "test" []] |}.

(** [bytes_of r]: the bytes of a successful result. *)
Definition bytes_of {E} (r : result E bytes) : bytes :=
  match r with Ok b => b | Err _ => [] end.

(** The encoded one-node file. *)
Definition one_node_data : bytes := bytes_of (@Encode msgpack_v5 test_now one_node_file).

(** The same file with its last byte flipped, as in the package's
    integrity test. *)
Definition corrupted_data : bytes :=
  take (length one_node_data - 1) one_node_data
  ++ [byte_of_Z (Z.lxor (Z_of_byte (List.last one_node_data x00)) 255)].

(** The one-node file as another writer could have produced it: same
    header and payload, the digest in uppercase hexadecimal. *)
Definition uppercase_digest_data : bytes :=
  let payloadBytes := bytes_of (@Marshal_nodes msgpack_v5 (Nodes one_node_file)) in
  let header :=
    updated_header test_now one_node_file
      (strings_ToUpper (payload_integrity payloadBytes)) in
  MagicBytes ++ bytes_of (@Marshal_header msgpack_v5 header) ++ payloadBytes.

(** What the header decoder returns on a buffer, past the magic bytes. *)
Definition header_read (data : bytes) : EngramHeader * nat :=
  match @Decode_header msgpack_v5 (drop 6 data) with
  | Ok p => p
  | Err _ => (zero_EngramHeader, 0%nat)
  end.

(** A file with nine nodes, as many as [MemoryNode] has fields. *)
Definition nine_node_file : EngramFile :=
  {| Header := set_Version zero_EngramHeader "1.0";
     Nodes := replicate 9 (embedded_node "n" []) |}.

Definition nine_node_data : bytes := bytes_of (@Encode msgpack_v5 test_now nine_node_file).

(** Nodes with a duplicated id and a duplicated tag. *)
Definition tagged_node (id : string) (tags : list string) (parent : string) : MemoryNode :=
  {| ID := id; Content := ""; Embedding := []; Tags := tags; Entities := [];
     Links := []; Metadata := zero_NodeMeta; Children := []; ParentID := parent |}.

Definition duplicate_nodes : list MemoryNode :=
  [tagged_node "root" ["important"] ""; tagged_node "child-1" ["child"; "child"] "root";
   tagged_node "child-2" ["child"; "important"] "root"; tagged_node "root" [] ""].

(** A file whose node uses every field. *)
Definition full_file : EngramFile :=
  {| Header :=
       {| Version := ""; Created := "2025-01-01T00:00:00Z"; Modified := "";
          NodeCount := 7;
          Schema := {| Schema_Version := "1"; EmbeddingModel := "m";
                       EmbeddingDim := 3; Features := ["links"] |};
          Security := {| Integrity := "stale"; Encryption := "none"; KeyID := "k1" |};
          Header_Metadata :=
            {| Title := "Test File"; Description := ""; Author := "Gopher";
               License := ""; FileMeta_Tags := ["a"; "b"];
               FileMeta_Custom := {[ "draft" := Msgpack.VBool true ]} |} |};
     Nodes :=
       [ {| ID := "a"; Content := "Apple";
            Embedding := [float32_of_Z 1; float32_of_ratio 9 10; float32_of_Z (-3)];
            Tags := ["fruit"; "fruit"];
            Entities := [ {| Name := "Apple"; Entity_Type := "food";
                             Entity_Confidence := float32_of_ratio 1 2;
                             Entity_Start := 0; Entity_End := 5 |} ];
            Links := [ {| TargetID := "b"; Link_Type := "next";
                          Weight := float32_of_ratio 1 4;
                          Link_Metadata := {[ "why" := Msgpack.VStr "order" ]} |} ];
            Metadata :=
              {| Source := "test";
                 CreatedAt := Some {| unix_sec := 1700000000; unix_nsec := 5 |};
                 UpdatedAt := Some {| unix_sec := 1700000000; unix_nsec := 0 |};
                 NodeMeta_Confidence := float32_of_Z 1; Importance := fzero;
                 AccessCount := 70000; NodeMeta_Custom := ∅ |};
            Children := ["b"]; ParentID := "" |};
         tagged_node "b" [] "a" ] |}.

(** A file system with the encoded one-node file, its corrupted copy and
    a file that is not an Engram file. *)
Definition test_fs : filesystem := λ path,
  if bool_decide (path = "good.engram") then Ok one_node_data
  else if bool_decide (path = "bad.engram") then Ok corrupted_data
  else if bool_decide (path = "notes.txt") then Ok (list_byte_of_string "hello, world")
  else Err (lib_failure "open: no such file or directory").






(** ** tree.go: text search *)

(** [strings.HasPrefix] and [strings.Contains], on the bytes of the
    strings: [substr] occurs in [s] when some suffix of [s] starts with
    it. *)
Fixpoint strings_HasPrefix (s prefix : string) {struct prefix} : bool :=
  match prefix, s with
  | EmptyString, _ => true
  | String c prefix', String d s' => Ascii.eqb c d && strings_HasPrefix s' prefix'
  | String _ _, EmptyString => false
  end.

Fixpoint strings_Contains (s substr : string) : bool :=
  strings_HasPrefix s substr
  || match s with
     | EmptyString => false
     | String _ s' => strings_Contains s' substr
     end.

(** The loop of [SearchByContent] from index [i] on, [matches] being the
    slice built so far; the loop is left as soon as [limit > 0] matches
    have been appended.  [ToLower] is [strings.ToLower], which maps the
    upper case letters of Unicode; [strings_ToLower] is what it does to
    ASCII text. *)
Fixpoint content_matches_from (ToLower : string → string) (query : string) (limit : Z)
    (i : nat) (rest : list MemoryNode) (matches : list nat) : list nat :=
  match rest with
  | [] => matches
  | node :: rest' =>
      if strings_Contains (ToLower (Content node)) query then
        let matches := matches ++ [i] in
        if (0 <? limit) && (len matches >=? limit) then matches
        else content_matches_from ToLower query limit (S i) rest' matches
      else content_matches_from ToLower query limit (S i) rest' matches
  end.

Definition SearchByContent (ToLower : string → string) (t : MemoryTree) (query : string)
    (limit : Z) : list nat :=
  let query := ToLower query in
  content_matches_from ToLower query limit 0 (nodes t) [].

(** A node with a content and nothing else. *)
Definition content_node (id content : string) : MemoryNode :=
  {| ID := id; Content := content; Embedding := []; Tags := []; Entities := [];
     Links := []; Metadata := zero_NodeMeta; Children := []; ParentID := "" |}.

Definition notes : list MemoryNode :=
  [content_node "n0" "Alpha Beta"; content_node "n1" "gamma";
   content_node "n2" "ALPHABET"; content_node "n3" "beta alpha"].
(** ** File output *)






(** ** A stream of nodes

    What [NewStreamReader] and [Next] read: the magic bytes, a header
    and node objects one after the other. *)
Definition node_stream (header : EngramHeader) (ns : list MemoryNode) : bytes :=
  MagicBytes
  ++ Msgpack.encode (MsgpackGo.EngramHeader_value header)
  ++ mjoin ((λ n, Msgpack.encode (MsgpackGo.MemoryNode_value n)) <$> ns).

(** Three nodes behind a header that announces two. *)
Definition three_notes : list MemoryNode :=
  [content_node "n0" "Alpha Beta"; content_node "n1" "gamma"; content_node "n2" "ALPHABET"].

Definition two_of_three : bytes :=
  node_stream (set_NodeCount (set_Version zero_EngramHeader "1.0") 2) three_notes.

(** The reader [NewStreamReader] returns, when it returns one. *)
Definition reader_of (r : result error StreamReader) : StreamReader :=
  match r with
  | Ok sr => sr
  | Err _ => {| reader := []; Stream_Header := zero_EngramHeader; count := 0; index := 0 |}
  end.
(** ** Properties of the index *)

Section index_facts.
Implicit Types (ns rest : list MemoryNode) (t : MemoryTree) (id tag : string).

Lemma index_from_nodes rest : ∀ i t, nodes (index_from i rest t) = nodes t.
Proof. induction rest as [|n rest IH]; intros i t; simpl; [done|]. by rewrite IH. Qed.

(** The id table after indexing [rest] from position [i]. *)
Lemma index_from_byID rest : ∀ i t id p,
  byID (index_from i rest t) !! id = Some p ↔
    (∃ k n, p = (i + k)%nat ∧ rest !! k = Some n ∧ ID n = id ∧
            ∀ k' n', rest !! k' = Some n' → ID n' = id → (k' ≤ k)%nat)
    ∨ ((∀ n, n ∈ rest → ID n ≠ id) ∧ byID t !! id = Some p).
Proof.
  induction rest as [|n rest IH]; intros i t id p; simpl.
  - split.
    + intros H. right. split; [|done]. intros n Hn. by apply elem_of_nil in Hn.
    + intros [(k & n & _ & Hk & _)|[_ H]]; [done|done].
  - rewrite IH. clear IH. split.
    + intros [(k & m & -> & Hk & Hid & Hmax)|[Hnone Hlook]].
      * left. exists (S k), m. repeat split; [lia|done|done|].
        intros [|k'] n' Hk' Hn'; [lia|]. simpl in Hk'.
        specialize (Hmax _ _ Hk' Hn'). lia.
      * simpl in Hlook. destruct (decide (ID n = id)) as [Heq|Hne].
        -- subst id. rewrite lookup_insert_eq in Hlook. injection Hlook as <-.
           left. exists 0%nat, n. repeat split; [lia|].
           intros [|k'] n' Hk' Hn'; [lia|]. simpl in Hk'.
           exfalso. apply (Hnone n'); [|done].
           apply list_elem_of_lookup. eauto.
        -- rewrite lookup_insert_ne in Hlook by done. right. split; [|done].
           intros n' Hn'. apply elem_of_cons in Hn' as [->|Hn']; [done|by apply Hnone].
    + intros [(k & m & -> & Hk & Hid & Hmax)|[Hnone Hlook]].
      * destruct k as [|k]; simpl in Hk.
        -- injection Hk as ->. right. split.
           ++ intros n' Hn' Hid'. apply list_elem_of_lookup in Hn' as [k' Hk'].
              specialize (Hmax (S k') n' Hk' Hid'). lia.
           ++ simpl. subst id. rewrite lookup_insert_eq. f_equal. lia.
        -- left. exists k, m. repeat split; [lia|done|done|].
           intros k' n' Hk' Hn'. specialize (Hmax (S k') n' Hk' Hn'). lia.
      * right. split.
        -- intros n' Hn'. apply Hnone. by apply elem_of_cons; right.
        -- simpl. rewrite lookup_insert_ne; [done|]. apply Hnone. by apply elem_of_cons; left.
Qed.

Lemma index_from_byID_dom rest : ∀ i t id,
  is_Some (byID (index_from i rest t) !! id)
  ↔ is_Some (byID t !! id) ∨ ∃ n, n ∈ rest ∧ ID n = id.
Proof.
  induction rest as [|n rest IH]; intros i t id; simpl.
  - split; [by left|]. intros [?|(n & Hn & _)]; [done|]. by apply elem_of_nil in Hn.
  - rewrite IH. simpl. destruct (decide (ID n = id)) as [Heq|Hne].
    + subst id. rewrite lookup_insert_eq. split.
      * intros _. right. exists n. split; [by left|done].
      * intros _. left. eauto.
    + rewrite lookup_insert_ne by done. split.
      * intros [?|(m & Hm & ?)]; [by left|]. right. exists m. split; [by right|done].
      * intros [?|(m & Hm & ?)]; [by left|].
        apply elem_of_cons in Hm as [->|Hm]; [done|right; eauto].
Qed.
End index_facts.

Section tag_facts.
Implicit Types (ns rest : list MemoryNode) (t : MemoryTree) (tag : string).

Lemma occurrences_cons {A} `{EqDecision A} (x y : A) l :
  occurrences x (y :: l) = ((if decide (y = x) then 1 else 0) + occurrences x l)%nat.
Proof. unfold occurrences. rewrite filter_cons. by destruct (decide (y = x)). Qed.

Lemma occurrences_app {A} `{EqDecision A} (x : A) l1 l2 :
  occurrences x (l1 ++ l2) = (occurrences x l1 + occurrences x l2)%nat.
Proof. unfold occurrences. by rewrite filter_app, length_app. Qed.

Lemma occurrences_replicate {A} `{EqDecision A} (x y : A) k :
  occurrences x (replicate k y) = if decide (y = x) then k else 0%nat.
Proof.
  induction k as [|k IH]; simpl.
  - by destruct (decide (y = x)).
  - rewrite occurrences_cons, IH. by destruct (decide (y = x)).
Qed.

Lemma occurrences_0 {A} `{EqDecision A} (x : A) l :
  occurrences x l = 0%nat ↔ x ∉ l.
Proof.
  induction l as [|y l IH].
  - split; [intros _; apply not_elem_of_nil|done].
  - rewrite occurrences_cons, not_elem_of_cons. destruct (decide (y = x)); split.
    + intros; lia.
    + intros [? _]; congruence.
    + intros. split; [congruence|]. apply IH. lia.
    + intros [_ ?]. simpl. by apply IH.
Qed.

(** The inner loop over the tags of one node. *)
Lemma bucket_fold_lookup p tags : ∀ (m : gmap string (list nat)) tag,
  default [] (foldl (bucket_append p) m tags !! tag)
  = default [] (m !! tag) ++ replicate (occurrences tag tags) p.
Proof.
  induction tags as [|x tags IH]; intros m tag; simpl.
  - by rewrite app_nil_r.
  - rewrite IH, occurrences_cons. unfold bucket_append.
    destruct (decide (x = tag)) as [->|Hne].
    + rewrite lookup_insert_eq. simpl. by rewrite <- app_assoc.
    + by rewrite lookup_insert_ne.
Qed.

Lemma bucket_fold_is_Some p tags : ∀ (m : gmap string (list nat)) tag,
  is_Some (foldl (bucket_append p) m tags !! tag) ↔ is_Some (m !! tag) ∨ tag ∈ tags.
Proof.
  induction tags as [|x tags IH]; intros m tag; simpl.
  - split; [by left|]. intros [?|H]; [done|]. by apply elem_of_nil in H.
  - rewrite IH, elem_of_cons. unfold bucket_append.
    destruct (decide (x = tag)) as [->|Hne].
    + rewrite lookup_insert_eq. split; [intros _; right; by left|]. intros _. left. eauto.
    + rewrite lookup_insert_ne by done. split; [|intros [?|[?|?]]; [by left|congruence|by right]].
      intros [?|?]; [by left|right; by right].
Qed.

(** The bucket of [tag] after indexing [rest] from position [i]: every
    node contributes its own index once per occurrence of the tag. *)
Lemma index_from_byTag rest : ∀ i t tag,
  default [] (byTag (index_from i rest t) !! tag)
  = default [] (byTag t !! tag)
    ++ mjoin (imap (λ k n, replicate (occurrences tag (Tags n)) (i + k)%nat) rest).
Proof.
  induction rest as [|n rest IH]; intros i t tag; simpl.
  - by rewrite app_nil_r.
  - rewrite IH. simpl. rewrite bucket_fold_lookup, <- app_assoc.
    do 2 f_equal; [f_equal; lia|]. f_equal. apply imap_ext. intros k x _. simpl. f_equal. lia.
Qed.

Lemma index_from_byTag_dom rest : ∀ i t tag,
  is_Some (byTag (index_from i rest t) !! tag)
  ↔ is_Some (byTag t !! tag) ∨ ∃ n, n ∈ rest ∧ tag ∈ Tags n.
Proof.
  induction rest as [|n rest IH]; intros i t tag; simpl.
  - split; [by left|]. intros [?|(n & Hn & _)]; [done|]. by apply elem_of_nil in Hn.
  - rewrite IH. simpl. rewrite bucket_fold_is_Some. split.
    + intros [[?|?]|(m & Hm & ?)]; [by left|right; exists n; split; [by left|done]|].
      right. exists m. split; [by right|done].
    + intros [?|(m & Hm & ?)]; [left; by left|].
      apply elem_of_cons in Hm as [->|Hm]; [left; by right|right; eauto].
Qed.

Lemma occurrences_hits (c : MemoryNode → nat) rest : ∀ i j,
  occurrences j (mjoin (imap (λ k n, replicate (c n) (i + k)%nat) rest))
  = if decide (i ≤ j)%nat then from_option c 0%nat (rest !! (j - i)%nat) else 0%nat.
Proof.
  induction rest as [|n rest IH]; intros i j; simpl.
  - by destruct (decide (i ≤ j)%nat).
  - rewrite occurrences_app, occurrences_replicate.
    rewrite (imap_ext _ (λ k n, replicate (c n) (S i + k)%nat))
      by (intros k x _; simpl; f_equal; lia).
    rewrite (IH (S i) j).
    destruct (decide (i + 0 = j)%nat) as [<-|Hne].
    + rewrite (decide_True (P := (i ≤ i + 0)%nat)) by lia.
      rewrite (decide_False (P := (S i ≤ i + 0)%nat)) by lia.
      replace (i + 0 - i)%nat with 0%nat by lia. simpl. lia.
    + destruct (decide (S i ≤ j)%nat), (decide (i ≤ j)%nat); try lia.
      replace (j - i)%nat with (S (j - S i))%nat by lia. done.
Qed.
End tag_facts.

(** C9. With duplicate ids, [Get] returns the pointer to the node at the
    greatest index carrying that id (later entries overwrite earlier
    ones), and is nil exactly when no node carries the id; [Count] and
    [GetAll] still cover every node, duplicates included. *)
Theorem Get_returns_last_duplicate (ns : list MemoryNode) (id : string) :
  let t := NewMemoryTree ns in
  (∀ p, Get t id = Some p ↔
        (∃ n, deref t p = Some n ∧ ID n = id) ∧
        (∀ q n', ns !! q = Some n' → ID n' = id → (q ≤ p)%nat))
  ∧ (Get t id = None ↔ ∀ n, n ∈ ns → ID n ≠ id)
  ∧ Count t = Z.of_nat (length ns)
  ∧ GetAll t = ns.
Proof.
  intros t.
  assert (Hnodes : nodes t = ns) by (unfold t, NewMemoryTree; by rewrite index_from_nodes).
  assert (Hget : ∀ p, Get t id = Some p ↔
        (∃ n, ns !! p = Some n ∧ ID n = id) ∧
        (∀ q n', ns !! q = Some n' → ID n' = id → (q ≤ p)%nat)).
  { intros p. unfold Get, t, NewMemoryTree. rewrite index_from_byID. simpl. split.
    - intros [(k & n & -> & Hk & Hid & Hmax)|[_ H]]; [|by rewrite lookup_empty in H].
      split; [by exists n|done].
    - intros [(n & Hn & Hid) Hmax]. left. by exists p, n. }
  split; [|split; [split|split]].
  - intros p. unfold deref. rewrite Hnodes. apply Hget.
  - intros Hnone n Hn Hid.
    assert (is_Some (Get t id)) as [p Hp]; [|congruence].
    unfold Get, t, NewMemoryTree. apply index_from_byID_dom. right. eauto.
  - intros Hnone. destruct (Get t id) as [p|] eqn:Hp; [|done].
    destruct (proj1 (Hget p) eq_refl) as [(n & Hn & Hid) _]. exfalso. apply (Hnone n); [|done].
    apply list_elem_of_lookup. eauto.
  - unfold Count. by rewrite Hnodes.
  - done.
Qed.

Lemma occurrences_NoDup {A} `{EqDecision A} (x : A) l :
  NoDup l → x ∈ l → occurrences x l = 1%nat.
Proof.
  induction 1 as [|y l Hy Hl IH]; intros Hx; [by apply elem_of_nil in Hx|].
  rewrite occurrences_cons. apply elem_of_cons in Hx as [->|Hx].
  - rewrite decide_True by done. apply occurrences_0 in Hy. lia.
  - rewrite decide_False by (intros ->; done). by apply IH.
Qed.

Lemma elem_of_GetTags (t : MemoryTree) (tag : string) :
  tag ∈ GetTags t ↔ is_Some (byTag t !! tag).
Proof.
  unfold GetTags, sort_Strings. rewrite merge_sort_Permutation.
  by rewrite elem_of_elements, elem_of_dom.
Qed.

Lemma NoDup_GetTags (t : MemoryTree) : NoDup (GetTags t).
Proof.
  unfold GetTags, sort_Strings. rewrite merge_sort_Permutation. apply NoDup_elements.
Qed.

Lemma Sorted_GetTags (t : MemoryTree) : StronglySorted String.le (GetTags t).
Proof. apply StronglySorted_merge_sort; apply _. Qed.

(** [GetTags] does not depend on how the keys were enumerated or sorted:
    every increasing arrangement of the keys of the tag table is the list
    it returns. *)
Lemma GetTags_canonical (t : MemoryTree) (l : list string) :
  l ≡ₚ elements (dom (byTag t)) → StronglySorted String.le l → l = GetTags t.
Proof.
  intros Hp Hs. apply (StronglySorted_unique String.le); [done|apply Sorted_GetTags|].
  unfold GetTags, sort_Strings. by rewrite merge_sort_Permutation.
Qed.

(** C10. A node that lists a tag [k] times appears [k] times in
    [GetByTag] (buckets are appended per occurrence and never
    deduplicated); [GetTags] is duplicate-free and so lists the tag exactly
    once; for a tag carried by no node [GetByTag] is the empty (nil)
    slice and the tag is not listed. *)
Theorem GetByTag_repeats_per_occurrence (ns : list MemoryNode) (tag : string) :
  let t := NewMemoryTree ns in
  (∀ i n, ns !! i = Some n →
          occurrences i (GetByTag t tag) = occurrences tag (Tags n))
  ∧ NoDup (GetTags t)
  ∧ ((∃ n, n ∈ ns ∧ tag ∈ Tags n) → occurrences tag (GetTags t) = 1%nat)
  ∧ ((∀ n, n ∈ ns → tag ∉ Tags n) → GetByTag t tag = [] ∧ tag ∉ GetTags t).
Proof.
  intros t.
  assert (Hb : GetByTag t tag
               = mjoin (imap (λ k n, replicate (occurrences tag (Tags n)) (0 + k)%nat) ns)).
  { unfold GetByTag, t, NewMemoryTree. rewrite index_from_byTag. simpl.
    by rewrite lookup_empty. }
  assert (Hd : is_Some (byTag t !! tag) ↔ ∃ n, n ∈ ns ∧ tag ∈ Tags n).
  { unfold t, NewMemoryTree. rewrite index_from_byTag_dom. simpl.
    rewrite lookup_empty. split; [|by right]. intros [[? ?]|?]; done. }
  split; [|split; [|split]].
  - intros i n Hi. rewrite Hb, occurrences_hits.
    rewrite decide_True by lia. replace (i - 0)%nat with i by lia. by rewrite Hi.
  - apply NoDup_GetTags.
  - intros Hex. apply occurrences_NoDup; [apply NoDup_GetTags|].
    apply elem_of_GetTags. by apply Hd.
  - intros Hnone. split.
    + unfold GetByTag. destruct (byTag t !! tag) as [l|] eqn:Hl; [|done].
      exfalso. destruct (proj1 Hd (ltac:(eauto))) as (n & Hn & Htag). by apply (Hnone n).
    + rewrite elem_of_GetTags. intros Hs. destruct (proj1 Hd Hs) as (n & Hn & Htag).
      by apply (Hnone n).
Qed.

Lemma Get_returns_last_duplicate_witness :
  let t := NewMemoryTree duplicate_nodes in
  Get t "root" = Some 3%nat
  ∧ (∃ n, deref t 3%nat = Some n ∧ ID n = "root")
  ∧ (∀ q n', duplicate_nodes !! q = Some n' → ID n' = "root" → (q ≤ 3)%nat)
  ∧ Count t = 4.
Proof.
  intros t.
  destruct (Get_returns_last_duplicate duplicate_nodes "root") as (Hget & _ & Hcount & _).
  assert (Hp : Get t "root" = Some 3%nat) by (vm_compute; reflexivity).
  destruct (proj1 (Hget 3%nat) Hp) as [Hex Hmax].
  split; [exact Hp|]. split; [exact Hex|]. split; [exact Hmax|exact Hcount].
Defined.

Lemma GetByTag_repeats_per_occurrence_witness :
  let t := NewMemoryTree duplicate_nodes in
  occurrences 1%nat (GetByTag t "child") = 2%nat
  ∧ occurrences "child" (GetTags t) = 1%nat
  ∧ GetByTag t "absent" = [] ∧ "absent" ∉ GetTags t.
Proof.
  intros t.
  destruct (GetByTag_repeats_per_occurrence duplicate_nodes "child") as (Hocc & _ & Hone & _).
  destruct (GetByTag_repeats_per_occurrence duplicate_nodes "absent") as (_ & _ & _ & Hnone).
  split; [exact (Hocc 1%nat (tagged_node "child-1" ["child"; "child"] "root") eq_refl)|].
  split.
  - apply Hone. exists (tagged_node "child-1" ["child"; "child"] "root").
    split; [right; left|left].
  - apply Hnone. intros n Hn Htag.
    repeat (apply elem_of_cons in Hn as [->|Hn];
            [vm_compute in Htag;
             repeat (apply elem_of_cons in Htag as [Htag|Htag]; [discriminate|]);
             by apply elem_of_nil in Htag|]).
    by apply elem_of_nil in Hn.
Defined.

(** The index over these nodes. *)
Example index_example :
  let t := NewMemoryTree duplicate_nodes in
  Get t "root" = Some 3%nat ∧ Count t = 4 ∧
  GetByTag t "child" = [1; 1; 2]%nat ∧ GetByTag t "absent" = [] ∧
  GetTags t = ["child"; "important"] ∧ GetChildren t "root" = [1; 2]%nat ∧
  GetRoots t = [0; 3]%nat.
Proof. vm_compute. repeat split. Qed.

(** ** Order of floats *)

Lemma SFltb_key (x y : spec_float) :
  is_nan x = false → is_nan y = false →
  SFltb x y = true ↔ key_lt (float_key x) (float_key y).
Proof.
  intros Hx Hy. unfold SFltb, key_lt.
  destruct x as [sx|sx| |sx mx ex], y as [sy|sy| |sy my ey]; try discriminate;
    try destruct sx; try destruct sy; simpl;
    try (split; [discriminate|lia]); try (split; [lia|done]).
  - destruct (Z.compare_spec ex ey) as [->|?|?]; simpl.
    + change (Pos.compare_cont Eq mx my) with (mx ?= my)%positive.
      destruct (Pos.compare_spec mx my) as [->|?|?]; simpl;
        (split; [try discriminate; lia|try done; lia]).
    + split; [discriminate|lia].
    + split; [lia|done].
  - destruct (Z.compare_spec ex ey) as [->|?|?]; simpl.
    + change (Pos.compare_cont Eq mx my) with (mx ?= my)%positive.
      destruct (Pos.compare_spec mx my) as [->|?|?]; simpl;
        (split; [try discriminate; lia|try done; lia]).
    + split; [lia|done].
    + split; [discriminate|lia].
Qed.

Lemma float_gt_irrefl x : float_gt x x = false.
Proof.
  unfold float_gt. destruct (is_nan x) eqn:Hn; [by destruct x|].
  apply not_true_is_false. rewrite SFltb_key by done. unfold key_lt. lia.
Qed.

Lemma float_gt_trans x y z :
  is_nan x = false → is_nan y = false → is_nan z = false →
  float_gt x y = true → float_gt y z = true → float_gt x z = true.
Proof.
  unfold float_gt. intros Hx Hy Hz. rewrite !SFltb_key by done. unfold key_lt. lia.
Qed.

Lemma float_gt_neg_trans x y z :
  is_nan x = false → is_nan y = false → is_nan z = false →
  float_gt x y = false → float_gt y z = false → float_gt x z = false.
Proof.
  unfold float_gt. intros Hx Hy Hz H1 H2. apply not_true_is_false.
  apply not_true_iff_false in H1, H2. revert H1 H2.
  rewrite !SFltb_key by done. unfold key_lt. lia.
Qed.

(** Without NaN among the scores, the comparison of [Search] is an
    ordering. *)
Lemma by_score_desc_ordering (l : list SearchResult) :
  Forall (λ r, is_nan (Score r) = false) l → less_ordering by_score_desc l.
Proof.
  rewrite Forall_forall. intros Hl. split; unfold by_score_desc.
  - intros x _. apply float_gt_irrefl.
  - intros x y z Hx Hy Hz. apply float_gt_trans; by apply Hl.
  - intros x y z Hx Hy Hz. apply float_gt_neg_trans; by apply Hl.
Qed.

(** ** The sorters *)

Section insertion.
Context {A : Type} (less : A → A → bool).

Lemma insert_back_Permutation x r : insert_back less x r ≡ₚ x :: r.
Proof.
  induction r as [|y r IH]; simpl; [done|].
  destruct (less x y); [|done]. rewrite IH. apply Permutation_swap.
Qed.

Lemma insertion_fold_Permutation l : ∀ acc,
  foldl (λ acc x, insert_back less x acc) acc l ≡ₚ acc ++ l.
Proof.
  induction l as [|x l IH]; intros acc; simpl; [by rewrite app_nil_r|].
  rewrite IH, insert_back_Permutation. simpl. apply Permutation_middle.
Qed.

Lemma insertionSort_Permutation l : insertionSort less l ≡ₚ l.
Proof.
  unfold insertionSort. by rewrite reverse_Permutation, insertion_fold_Permutation.
Qed.

Lemma insert_back_sorted (dom : list A) x r :
  less_ordering less dom → x ∈ dom → (∀ y, y ∈ r → y ∈ dom) →
  StronglySorted (not_less less) r → StronglySorted (not_less less) (insert_back less x r).
Proof.
  intros Hord Hx. induction r as [|y r IH]; intros Hr Hs; simpl.
  - repeat constructor.
  - apply StronglySorted_inv in Hs as [Hs Hy].
    assert (Hyd : y ∈ dom) by (apply Hr; by left).
    assert (Hrd : ∀ z, z ∈ r → z ∈ dom) by (intros z Hz; apply Hr; by right).
    destruct (less x y) eqn:Hxy.
    + constructor; [by apply IH|].
      rewrite insert_back_Permutation. constructor; [|done].
      unfold not_less. destruct (less y x) eqn:Hyx; [|done].
      pose proof (less_trans _ _ Hord x y x Hx Hyd Hx Hxy Hyx) as Hxx.
      by rewrite (less_irrefl _ _ Hord x Hx) in Hxx.
    + constructor; [by constructor|]. constructor; [done|].
      rewrite Forall_forall in Hy |- *. intros z Hz.
      apply (less_neg_trans _ _ Hord x y z); auto. by apply Hy.
Qed.

Lemma insertion_fold_sorted (dom : list A) l : ∀ acc,
  less_ordering less dom → (∀ y, y ∈ acc ++ l → y ∈ dom) →
  StronglySorted (not_less less) acc →
  StronglySorted (not_less less) (foldl (λ acc x, insert_back less x acc) acc l).
Proof.
  induction l as [|x l IH]; intros acc Hord Hd Hs; simpl; [done|].
  apply IH.
  - done.
  - intros y Hy. apply Hd. revert Hy.
    rewrite !elem_of_app, insert_back_Permutation, !elem_of_cons. tauto.
  - apply (insert_back_sorted dom).
    + done.
    + apply Hd. rewrite elem_of_app, elem_of_cons. tauto.
    + intros y Hy. apply Hd. rewrite elem_of_app. tauto.
    + done.
Qed.

Lemma StronglySorted_reverse_flip (R : relation A) l :
  StronglySorted R l → StronglySorted (flip R) (reverse l).
Proof.
  induction 1 as [|x l Hs IH Hx]; [constructor|].
  rewrite reverse_cons. apply StronglySorted_app_2; [|done|repeat constructor].
  intros a b Ha Hb. apply list_elem_of_singleton in Hb as ->.
  rewrite elem_of_reverse in Ha. rewrite Forall_forall in Hx. by apply Hx.
Qed.

Lemma insertionSort_sorted l :
  less_ordering less l → sorted_by less (insertionSort less l).
Proof.
  intros Hord. unfold sorted_by, insertionSort.
  apply (StronglySorted_reverse_flip (not_less less)).
  apply (insertion_fold_sorted l); [done|by intros y Hy|constructor].
Qed.
End insertion.

Lemma less_ordering_Permutation {A} (less : A → A → bool) l l' :
  l ≡ₚ l' → less_ordering less l → less_ordering less l'.
Proof.
  intros Hp [H1 H2 H3]. split.
  - intros x Hx. apply H1. by rewrite Hp.
  - intros x y z Hx Hy Hz. apply H2; by rewrite Hp.
  - intros x y z Hx Hy Hz. apply H3; by rewrite Hp.
Qed.

Lemma swap_Permutation {A} (l : list A) i j x y :
  (i < j)%nat → l !! i = Some y → l !! j = Some x →
  <[i := x]> (<[j := y]> l) ≡ₚ l.
Proof.
  intros Hij Hi Hj.
  rewrite <- (take_drop_middle l j x Hj) at 2.
  rewrite <- (take_drop_middle l j x Hj) in Hi.
  assert (Hlen : length (take j l) = j).
  { rewrite length_take. apply lookup_lt_Some in Hj. lia. }
  rewrite lookup_app_l in Hi by lia.
  assert (Hupd : <[j := y]> l = take j l ++ y :: drop (S j) l).
  { rewrite <- (take_drop_middle l j x Hj) at 1.
    rewrite insert_app_r_alt by lia. rewrite Hlen, Nat.sub_diag. done. }
  rewrite Hupd. rewrite insert_app_l by lia.
  rewrite <- (take_drop_middle (take j l) i y Hi) at 2.
  assert (Hlen' : length (take i (take j l)) = i).
  { rewrite length_take. lia. }
  rewrite <- (take_drop_middle (take j l) i y Hi) at 1.
  rewrite insert_app_r_alt by lia. rewrite Hlen', Nat.sub_diag. simpl.
  rewrite <- !app_assoc. simpl. apply Permutation_app_head.
  rewrite <- !Permutation_middle. apply Permutation_swap.
Qed.

Lemma swap_if_less_Permutation {A} (less : A → A → bool) l i :
  swap_if_less less l i ≡ₚ l.
Proof.
  unfold swap_if_less. destruct (l !! i) as [x|] eqn:Hi; [|done].
  destruct (l !! (i - 6)%nat) as [y|] eqn:Hj; [|done].
  destruct (less x y) eqn:Hxy; [|done].
  destruct (decide (i - 6 < i)%nat) as [Hlt|Hge].
  - by apply swap_Permutation.
  - replace (i - 6)%nat with i in * by lia.
    rewrite list_insert_insert_eq. by rewrite list_insert_id.
Qed.

Lemma shell_pass_6_Permutation {A} (less : A → A → bool) l :
  shell_pass_6 less l ≡ₚ l.
Proof.
  unfold shell_pass_6. generalize (seq 6 (length l - 6)). intros idx.
  revert l. induction idx as [|i idx IH]; intros l; simpl; [done|].
  rewrite IH. apply swap_if_less_Permutation.
Qed.

Lemma insertion_sorter_spec : SliceSorterSpec insertion_sorter.
Proof.
  split; intros A less l; unfold sort_Slice, insertion_sorter.
  - apply insertionSort_Permutation.
  - apply insertionSort_sorted.
Qed.

Lemma shell_insertion_sorter_spec : SliceSorterSpec shell_insertion_sorter.
Proof.
  split; intros A less l; unfold sort_Slice, shell_insertion_sorter.
  - by rewrite insertionSort_Permutation, shell_pass_6_Permutation.
  - intros Hord. apply insertionSort_sorted.
    apply (less_ordering_Permutation less l); [|done].
    by rewrite shell_pass_6_Permutation.
Qed.

(** ** Semantic search *)

Lemma score_from_spec q rest : ∀ i r,
  r ∈ score_from q i rest ↔
  ∃ k n, Node r = (i + k)%nat ∧ rest !! k = Some n ∧ Embedding n ≠ [] ∧
         Score r = cosineSimilarity q (Embedding n).
Proof.
  induction rest as [|n rest IH]; intros i r; simpl.
  - split; [intros Hr; by apply elem_of_nil in Hr|]. by intros (k & n & _ & ? & _).
  - assert (Hshift : r ∈ score_from q (S i) rest ↔
       ∃ k m, Node r = (i + S k)%nat ∧ rest !! k = Some m ∧ Embedding m ≠ [] ∧
              Score r = cosineSimilarity q (Embedding m)).
    { rewrite IH. split; intros (k & m & Hk & ?); exists k, m; (split; [lia|done]). }
    destruct (Embedding n) as [|e emb] eqn:Hemb; simpl.
    + rewrite Hshift. split.
      * intros (k & m & ?). by exists (S k), m.
      * intros ([|k] & m & Hk & Hm & Hne & Hs); simpl in Hm.
        -- injection Hm as <-. by rewrite Hemb in Hne.
        -- by exists k, m.
    + rewrite elem_of_cons, Hshift. split.
      * intros [->|(k & m & ?)].
        -- exists 0%nat, n. simpl. rewrite Hemb. repeat split; [lia|done].
        -- by exists (S k), m.
      * intros ([|k] & m & Hk & Hm & Hne & Hs); simpl in Hm.
        -- injection Hm as <-. left. destruct r as [rn rs]; simpl in *.
           rewrite Hemb in Hs. f_equal; [lia|done].
        -- right. by exists k, m.
Qed.

Lemma score_from_Node_sorted q rest : ∀ i,
  StronglySorted lt (Node <$> score_from q i rest)
  ∧ Forall (λ p, i ≤ p)%nat (Node <$> score_from q i rest).
Proof.
  induction rest as [|n rest IH]; intros i; simpl; [split; constructor|].
  destruct (IH (S i)) as [Hs Hf].
  assert (Hf' : Forall (λ p, i < p)%nat (Node <$> score_from q (S i) rest)).
  { eapply Forall_impl; [exact Hf|]. simpl. lia. }
  destruct (length (Embedding n) =? 0)%nat.
  - split; [done|]. eapply Forall_impl; [exact Hf'|]. simpl. lia.
  - rewrite fmap_cons. simpl. split; [by constructor|].
    constructor; [lia|]. eapply Forall_impl; [exact Hf'|]. simpl. lia.
Qed.

Lemma truncate_limit (limit : Z) (l : list SearchResult) :
  (if (0 <? limit) && (limit <? Z.of_nat (length l))
   then take (Z.to_nat limit) l else l) = truncate limit l.
Proof.
  unfold truncate. destruct (Z.ltb_spec 0 limit); simpl; [|done].
  destruct (Z.ltb_spec limit (Z.of_nat (length l))); [done|].
  symmetry. apply take_ge. lia.
Qed.

(** C3, as the code has it.  An empty query gives no result.  Otherwise
    the scored pairs are exactly those of the nodes with a non-empty
    embedding, each once, with its cosine similarity to the query;
    [Search] returns a rearrangement of them, cut to [limit] entries when
    [limit > 0] and whole when [limit <= 0], and the rearrangement is by
    score descending provided no score is NaN.  The order among pairs of
    equal score is whatever [sort.Slice] leaves. *)
Theorem Search_ranked_truncated (S : SliceSorter) (HS : SliceSorterSpec S) (t : MemoryTree)
    (queryEmbedding : list float32) (limit : Z) :
  let scored := score_from queryEmbedding 0 (nodes t) in
  (queryEmbedding = [] → Search t queryEmbedding limit = [])
  ∧ (∀ r, r ∈ scored ↔
          ∃ n, deref t (Node r) = Some n ∧ Embedding n ≠ [] ∧
               Score r = cosineSimilarity queryEmbedding (Embedding n))
  ∧ StronglySorted lt (Node <$> scored)
  ∧ (queryEmbedding ≠ [] →
      ∃ ranked, ranked ≡ₚ scored
        ∧ (Forall (λ r, is_nan (Score r) = false) scored → sorted_by by_score_desc ranked)
        ∧ Search t queryEmbedding limit = truncate limit ranked).
Proof.
  intros scored. split; [|split; [|split]].
  - intros ->. done.
  - intros r. unfold scored, deref. rewrite score_from_spec. split.
    + intros (k & n & Hk & ?). exists n. by rewrite Hk.
    + intros (n & ?). by exists (Node r), n.
  - apply score_from_Node_sorted.
  - intros Hq. exists (sort_Slice by_score_desc scored). split; [|split].
    + apply sort_Slice_perm.
    + intros Hnan. apply sort_Slice_sorted. by apply by_score_desc_ordering.
    + unfold Search. destruct queryEmbedding; [done|]. simpl length. simpl Nat.eqb.
      cbv iota. apply truncate_limit.
Qed.

(** The search of the package's test: the exact match first, the close
    vector second. *)
Lemma Search_ranked_truncated_witness :
  let f := float32_of_Z in
  let t := NewMemoryTree
             [embedded_node "a" [f 1; f 0; f 0]; embedded_node "b" [f 0; f 1; f 0];
              embedded_node "c" [float32_of_ratio 9 10; float32_of_ratio 1 10; f 0]] in
  SliceSorterSpec insertion_sorter ∧
  Node <$> @Search insertion_sorter t [f 1; f 0; f 0] 2 = [0; 2]%nat ∧
  ∃ ranked, ranked ≡ₚ score_from [f 1; f 0; f 0] 0 (nodes t)
    ∧ @Search insertion_sorter t [f 1; f 0; f 0] 2 = truncate 2 ranked.
Proof.
  intros f t. split; [exact insertion_sorter_spec|]. split; [by vm_compute|].
  destruct (Search_ranked_truncated insertion_sorter insertion_sorter_spec
              t [f 1; f 0; f 0] 2) as (_ & _ & _ & Hr).
  destruct (Hr ltac:(discriminate)) as (ranked & Hp & _ & Heq).
  exists ranked. split; [exact Hp|exact Heq].
Defined.

(** C3 as stated does not hold.  (1) With an infinite component in an
    embedding the score is NaN, and the three-element insertion sort that
    [sort.Slice] runs leaves a result that is not by score descending.
    (2) [sort.Slice] is not stable: under the gap-6 pass followed by
    insertion sort, seven nodes of which the last six have the same score
    come out with node 6 before node 1. *)
Lemma Search_ranking_counterexample :
  let f := float32_of_Z in
  let q := [f 1; f 0] in
  let t1 := NewMemoryTree
              [embedded_node "a" [f 1; f 1]; embedded_node "b" [S754_infinity false; f 0];
               embedded_node "c" [f 1; f 0]] in
  let t2 := NewMemoryTree
              (embedded_node "n0" [f 0; f 1]
               :: replicate 6 (embedded_node "n" [f 1; f 0])) in
  (¬ ∃ ranked, stable_ranking (score_from q 0 (nodes t1)) ranked
               ∧ @Search insertion_sorter t1 q 0 = truncate 0 ranked)
  ∧ Node <$> @Search insertion_sorter t1 q 0 = [0; 1; 2]%nat
  ∧ (¬ ∃ ranked, stable_ranking (score_from q 0 (nodes t2)) ranked
               ∧ @Search shell_insertion_sorter t2 q 0 = truncate 0 ranked)
  ∧ Node <$> @Search shell_insertion_sorter t2 q 0 = [6; 1; 2; 3; 4; 5; 0]%nat.
Proof.
  intros f q t1 t2. split; [|split; [by vm_compute|split; [|by vm_compute]]].
  - intros (ranked & (_ & Hs & _) & Heq). vm_compute in Heq.
    subst ranked. unfold sorted_by in Hs.
    apply StronglySorted_inv in Hs as [_ Hf].
    apply Forall_cons in Hf as [_ Hf]. apply Forall_cons in Hf as [Hf _].
    discriminate Hf.
  - intros (ranked & (_ & _ & Ht) & Heq). vm_compute in Heq.
    subst ranked.
    specialize (Ht 0%nat 1%nat _ _ ltac:(lia) eq_refl eq_refl).
    vm_compute in Ht. specialize (Ht eq_refl). lia.
Qed.

(** ** SHA-256 *)

(** The constants, and the digests of the empty input, of ["abc"] and of
    an input of two blocks. *)
Example SHA256_vectors :
  take 4 SHA256.K = [0x428a2f98; 0x71374491; 0xb5c0fbcf; 0xe9b5dba5]
  ∧ List.last SHA256.K 0 = 0xc67178f2
  ∧ SHA256.a SHA256.init_state = 0x6a09e667
  ∧ SHA256.h SHA256.init_state = 0x5be0cd19
  ∧ payload_integrity []
    = "e3b0c44298fc1c149afbf4c8996fb92427ae41e4649b934ca495991b7852b855"
  ∧ payload_integrity (list_byte_of_string "abc")
    = "ba7816bf8f01cfea414140de5dae2223b00361a396177a9cb410ff61f20015ad"
  ∧ payload_integrity (list_byte_of_string
      "abcdbcdecdefdefgefghfghighijhijkijkljklmklmnlmnomnopnopq")
    = "248d6a61d20638b8e5c026930c3e6039a33ce45964ff2167f6ecedd419db06c1".
Proof. vm_compute. repeat split. Qed.

(** ** The codec *)

Section codec_facts.
Context `{MsgpackLib}.

(** The payload [Decode] hashes and decodes is exactly what the header
    decoder left unread. *)
Lemma payload_is_unread (data : bytes) (n : nat) :
  (6 ≤ length data)%nat →
  drop (Z.to_nat (6 + (len data - 6 - len (drop n (drop 6 data))))) data
  = drop n (drop 6 data).
Proof.
  intros Hlen. unfold len. rewrite !length_drop, drop_drop.
  destruct (decide (n ≤ length data - 6)%nat) as [Hn|Hn].
  - f_equal. lia.
  - rewrite !drop_ge; [done|lia|lia].
Qed.

Lemma magic_check (data : bytes) :
  (len data <? 6) || negb (bool_decide (take 6 data = MagicBytes)) = true
  ↔ (length data < 6)%nat ∨ take 6 data ≠ MagicBytes.
Proof.
  rewrite orb_true_iff, negb_true_iff, bool_decide_eq_false, Z.ltb_lt.
  unfold len. split; (intros [?|?]; [left; lia|by right]).
Qed.

(** Unfolding of [Decode] past the magic bytes and the header. *)
Lemma Decode_after_header (data : bytes) (header : EngramHeader) (n : nat) :
  (6 ≤ length data)%nat → take 6 data = MagicBytes →
  Decode_header (drop 6 data) = Ok (header, n) →
  let payloadBytes := drop n (drop 6 data) in
  Decode data =
    if negb (bool_decide (Integrity (Security header) = ""))
       && negb (bool_decide (payload_integrity payloadBytes
                             = Integrity (Security header)))
    then Err ErrIntegrityFailed
    else
      match Decode_nodes payloadBytes with
      | Err err => Err (Errorf "failed to decode nodes" err)
      | Ok (nodes, _) => Ok {| Header := header; Nodes := nodes |}
      end.
Proof.
  intros Hlen Hmagic Hhdr payloadBytes. unfold Decode.
  destruct ((len data <? 6) || negb (bool_decide (take 6 data = MagicBytes))) eqn:Hm.
  - apply magic_check in Hm as [?|?]; [lia|done].
  - rewrite Hhdr. cbv zeta. by rewrite payload_is_unread.
Qed.

(** What [Encode] returns when both serializations succeed. *)
Lemma Encode_output (now : string) (file : EngramFile)
    (payloadBytes headerBytes : bytes) :
  Marshal_nodes (Nodes file) = Ok payloadBytes →
  Marshal_header (updated_header now file (payload_integrity payloadBytes))
  = Ok headerBytes →
  Encode now file = Ok (MagicBytes ++ headerBytes ++ payloadBytes).
Proof.
  intros Hp Hh. unfold Encode. rewrite Hp. cbv zeta.
  fold (payload_integrity payloadBytes). by rewrite Hh.
Qed.

(** [Decode] of magic bytes, a header that is read back and stops at
    its last byte, and a payload with the digest of the header. *)
Lemma Decode_framed (header : EngramHeader) (headerBytes payloadBytes : bytes)
    (nodes : list MemoryNode) (k : nat) :
  Decode_header (headerBytes ++ payloadBytes) = Ok (header, length headerBytes) →
  Integrity (Security header) = payload_integrity payloadBytes →
  Decode_nodes payloadBytes = Ok (nodes, k) →
  Decode (MagicBytes ++ headerBytes ++ payloadBytes)
  = Ok {| Header := header; Nodes := nodes |}.
Proof.
  intros Hdh Hi Hdn.
  rewrite (Decode_after_header _ header (length headerBytes)).
  - cbv zeta. change (drop 6 (MagicBytes ++ headerBytes ++ payloadBytes))
      with (headerBytes ++ payloadBytes).
    rewrite drop_app_length.
    rewrite Hi, (bool_decide_eq_true_2 _ eq_refl), andb_false_r.
    by rewrite Hdn.
  - rewrite length_app. simpl. lia.
  - done.
  - exact Hdh.
Qed.
End codec_facts.

(** C4. [Decode] fails with [ErrInvalidMagic] exactly when the input has
    fewer than 6 bytes or does not start with 45 4E 47 52 41 4D, and
    whatever [Encode] returns starts with these 6 bytes. *)
Theorem magic_bytes_checked_and_written `{MsgpackLib} :
  (∀ data, Decode data = Err ErrInvalidMagic
           ↔ (length data < 6)%nat ∨ take 6 data ≠ MagicBytes)
  ∧ (∀ now file data, Encode now file = Ok data →
       take 6 data = [x45; x4e; x47; x52; x41; x4d]).
Proof.
  split.
  - intros data. rewrite <- magic_check. unfold Decode.
    destruct ((len data <? 6) || negb (bool_decide (take 6 data = MagicBytes)));
      [done|].
    split; [|done].
    destruct (Decode_header (drop 6 data)) as [[header n]|err]; [|done].
    cbv zeta. destruct (_ && _); [done|].
    by destruct (Decode_nodes _) as [[? ?]|?].
  - intros now file data. unfold Encode.
    destruct (Marshal_nodes (Nodes file)) as [payloadBytes|err]; [|done].
    cbv zeta. destruct (Marshal_header _) as [headerBytes|err]; [|done].
    by intros [= <-].
Qed.

Lemma magic_bytes_checked_and_written_witness :
  ∃ data, @Encode msgpack_v5 test_now test_file = Ok data
          ∧ take 6 data = [x45; x4e; x47; x52; x41; x4d].
Proof.
  eexists. split; [vm_compute; reflexivity|].
  apply (proj2 (@magic_bytes_checked_and_written msgpack_v5) test_now test_file).
  vm_compute. reflexivity.
Defined.

(** Every character [hex.EncodeToString] writes is a digit or one of
    [a]..[f], two per byte. *)
Lemma hex_digit_lowercase (v : Z) :
  hex_digit v ∈ list_ascii_of_string "0123456789abcdef".
Proof.
  unfold hex_digit. fold hextable.
  destruct (decide (Z.to_nat v < length hextable)%nat) as [Hlt|Hge].
  - apply list_elem_of_In, nth_In. exact Hlt.
  - rewrite nth_overflow by lia. vm_compute. left.
Qed.

Lemma hex_EncodeToString_lowercase (src : bytes) :
  Forall (λ c, c ∈ list_ascii_of_string "0123456789abcdef")
         (list_ascii_of_string (hex_EncodeToString src))
  ∧ String.length (hex_EncodeToString src) = (2 * length src)%nat.
Proof.
  induction src as [|b src [IH1 IH2]]; simpl; [split; [constructor|done]|].
  split; [|rewrite IH2; lia].
  constructor; [apply hex_digit_lowercase|].
  constructor; [apply hex_digit_lowercase|exact IH1].
Qed.

Lemma updated_header_fields (now : string) (file : EngramFile) (integrity : string) :
  let header := updated_header now file integrity in
  NodeCount header = len (Nodes file)
  ∧ Modified header = now
  ∧ Integrity (Security header) = integrity
  ∧ Created header = (if bool_decide (Created (Header file) = "") then now
                      else Created (Header file))
  ∧ Version header = (if bool_decide (Version (Header file) = "") then "1.0"
                      else Version (Header file))
  ∧ Schema header = Schema (Header file)
  ∧ Encryption (Security header) = Encryption (Security (Header file))
  ∧ KeyID (Security header) = KeyID (Security (Header file))
  ∧ Header_Metadata header = Header_Metadata (Header file).
Proof.
  unfold updated_header. simpl. repeat split; by repeat case_bool_decide.
Qed.

(** C6. In the header that [Encode] serializes, [nodeCount] is the number
    of nodes, [modified] is the current time and [integrity] is the
    lowercase hexadecimal SHA-256 of the payload bytes, whatever the
    caller had put there; [created] is the caller's unless empty, in
    which case it is the new [modified]; [version] is the caller's unless
    empty, in which case it is "1.0"; [schema], [security.encryption],
    [security.keyId] and [metadata] are the caller's. *)
Theorem Encode_header_fields `{MsgpackLib} (now : string) (file : EngramFile)
    (data : bytes) :
  Encode now file = Ok data →
  ∃ payloadBytes headerBytes header,
    Marshal_nodes (Nodes file) = Ok payloadBytes
    ∧ Marshal_header header = Ok headerBytes
    ∧ data = MagicBytes ++ headerBytes ++ payloadBytes
    ∧ NodeCount header = len (Nodes file)
    ∧ Modified header = now
    ∧ Integrity (Security header) = hex_EncodeToString (SHA256.Sum256 payloadBytes)
    ∧ Forall (λ c, c ∈ list_ascii_of_string "0123456789abcdef")
             (list_ascii_of_string (Integrity (Security header)))
    ∧ Created header = (if bool_decide (Created (Header file) = "") then now
                        else Created (Header file))
    ∧ Version header = (if bool_decide (Version (Header file) = "") then "1.0"
                        else Version (Header file))
    ∧ Schema header = Schema (Header file)
    ∧ Encryption (Security header) = Encryption (Security (Header file))
    ∧ KeyID (Security header) = KeyID (Security (Header file))
    ∧ Header_Metadata header = Header_Metadata (Header file).
Proof.
  unfold Encode.
  destruct (Marshal_nodes (Nodes file)) as [payloadBytes|err] eqn:Hp; [|done].
  cbv zeta.
  destruct (Marshal_header _) as [headerBytes|err] eqn:Hh; [|done].
  intros [= <-]. eexists payloadBytes, headerBytes, _.
  split; [done|]. split; [exact Hh|]. split; [done|].
  destruct (updated_header_fields now file
              (hex_EncodeToString (SHA256.Sum256 payloadBytes)))
    as (Hn & Hm & Hi & Hc & Hv & Hs & He & Hk & Hmeta).
  repeat (split; [assumption|]).
  split; [rewrite Hi; apply hex_EncodeToString_lowercase|].
  repeat (split; [assumption|]). assumption.
Qed.

Lemma Encode_header_fields_witness :
  ∃ data header headerBytes payloadBytes,
    @Encode msgpack_v5 test_now test_file = Ok data
    ∧ @Marshal_header msgpack_v5 header = Ok headerBytes
    ∧ data = MagicBytes ++ headerBytes ++ payloadBytes
    ∧ NodeCount header = 2 ∧ Modified header = test_now
    ∧ Created header = test_now ∧ Version header = "1.0".
Proof.
  destruct (@Encode_header_fields msgpack_v5 test_now test_file
              (MagicBytes ++
               match @Marshal_header msgpack_v5
                       (updated_header test_now test_file
                          (payload_integrity
                             (Msgpack.encode (MsgpackGo.nodes_value (Nodes test_file)))))
               with Ok b => b | Err _ => [] end
               ++ Msgpack.encode (MsgpackGo.nodes_value (Nodes test_file))))
    as (pb & hb & h & Hp & Hh & Hd & Hn & Hm & _ & _ & Hc & Hv & _).
  { reflexivity. }
  exists (MagicBytes ++ hb ++ pb), h, hb, pb.
  split; [rewrite <- Hd; reflexivity|]. split; [exact Hh|]. split; [reflexivity|].
  split; [exact Hn|]. split; [exact Hm|]. split; [exact Hc|exact Hv].
Defined.

(** C7. [VerifyIntegrity] is a full decode of the bytes of the file with
    its outcome remapped: a read failure is returned as an error, a
    decode failing with [ErrIntegrityFailed] gives [(false, nil)], any
    other decode failure is returned as it is, and a successful decode
    gives [(true, nil)]. *)
Theorem VerifyIntegrity_remaps_decode `{MsgpackLib} (fs : filesystem) (path : string) :
  VerifyIntegrity fs path =
    match fs path with
    | Err err => (false, Some (Errorf "failed to read file" err))
    | Ok data =>
        match Decode data with
        | Ok _ => (true, None)
        | Err ErrIntegrityFailed => (false, None)
        | Err err => (false, Some err)
        end
    end.
Proof.
  unfold VerifyIntegrity, ReadFile. destruct (fs path) as [data|err]; [|done].
  destruct (Decode data) as [file|[| |msg cause]]; done.
Qed.

(** The four outcomes of [VerifyIntegrity]. *)
Example VerifyIntegrity_example :
  @VerifyIntegrity msgpack_v5 test_fs "good.engram" = (true, None)
  ∧ @VerifyIntegrity msgpack_v5 test_fs "bad.engram" = (false, None)
  ∧ @VerifyIntegrity msgpack_v5 test_fs "notes.txt" = (false, Some ErrInvalidMagic)
  ∧ @VerifyIntegrity msgpack_v5 test_fs "missing"
    = (false, Some (Errorf "failed to read file"
                      (lib_failure "open: no such file or directory"))).
Proof. vm_compute. repeat split. Qed.

(** C2, as the code has it.  When the decoded header carries a non-empty
    [security.integrity], [Decode] computes the SHA-256 of the bytes the
    header decoder left unread, renders it in lowercase hexadecimal and
    compares the two strings for equality.  When they differ it fails with
    [ErrIntegrityFailed], whatever the node decoder would do with the
    payload; when they are equal it goes on to decode the payload. *)
Theorem Decode_checks_integrity_first `{L : MsgpackLib} (data : bytes)
    (header : EngramHeader) (n : nat) :
  (6 ≤ length data)%nat → take 6 data = MagicBytes →
  Decode_header (drop 6 data) = Ok (header, n) →
  Integrity (Security header) ≠ "" →
  (hex_EncodeToString (SHA256.Sum256 (drop n (drop 6 data)))
     ≠ Integrity (Security header) →
   Decode data = Err ErrIntegrityFailed
   ∧ ∀ d, @Decode (with_Decode_nodes L d) data = Err ErrIntegrityFailed)
  ∧ (hex_EncodeToString (SHA256.Sum256 (drop n (drop 6 data)))
     = Integrity (Security header) →
     Decode data =
       match Decode_nodes (drop n (drop 6 data)) with
       | Err err => Err (Errorf "failed to decode nodes" err)
       | Ok (nodes, _) => Ok {| Header := header; Nodes := nodes |}
       end).
Proof.
  intros Hlen Hmagic Hhdr Hne. split.
  - intros Hdiff. split; [|intros d].
    + rewrite (Decode_after_header data header n) by done. cbv zeta.
      unfold payload_integrity.
      rewrite (bool_decide_eq_false_2 _ Hne), (bool_decide_eq_false_2 _ Hdiff). done.
    + rewrite (@Decode_after_header (with_Decode_nodes L d) data header n) by done.
      cbv zeta. unfold payload_integrity.
      rewrite (bool_decide_eq_false_2 _ Hne), (bool_decide_eq_false_2 _ Hdiff). done.
  - intros Hsame. rewrite (Decode_after_header data header n) by done. cbv zeta.
    unfold payload_integrity.
    rewrite (bool_decide_eq_true_2 _ Hsame), andb_false_r. done.
Qed.

(** The corrupted file of the package's integrity test is rejected. *)
Lemma Decode_checks_integrity_first_witness :
  @Decode msgpack_v5 corrupted_data = Err ErrIntegrityFailed.
Proof.
  refine (proj1 (proj1 (@Decode_checks_integrity_first msgpack_v5 corrupted_data
                   (header_read corrupted_data).1 (header_read corrupted_data).2
                   _ _ _ _) _)).
  - vm_compute. lia.
  - vm_compute. reflexivity.
  - vm_compute. reflexivity.
  - vm_compute. discriminate.
  - vm_compute. discriminate.
Defined.

(** C2 as stated does not hold: the comparison is case-sensitive.  A
    buffer whose header carries the SHA-256 of its payload in uppercase
    hexadecimal is rejected with [ErrIntegrityFailed]. *)
Lemma Decode_rejects_uppercase_digest :
  let header := (header_read uppercase_digest_data).1 in
  let n := (header_read uppercase_digest_data).2 in
  @Decode_header msgpack_v5 (drop 6 uppercase_digest_data) = Ok (header, n)
  ∧ Integrity (Security header)
    = "4C0A683AE323152876FD609689A925A2A7F9DA5F88E40AD42FDF263F221CB105"
  ∧ strings_ToLower (Integrity (Security header))
    = hex_EncodeToString (SHA256.Sum256 (drop n (drop 6 uppercase_digest_data)))
  ∧ @Decode msgpack_v5 uppercase_digest_data = Err ErrIntegrityFailed.
Proof. vm_compute. repeat split. Qed.

(** The part of the round trip that is the package's own, for any
    library: when the decoder reads back what the encoder wrote (the
    header, stopping at its last byte, and the node slice), [Decode]
    returns from the output of [Encode] the nodes and the header that
    [Encode] wrote. *)
Lemma Decode_Encode_framing `{MsgpackLib} (now : string) (file : EngramFile)
    (payloadBytes headerBytes : bytes) (k : nat) :
  let header := updated_header now file (payload_integrity payloadBytes) in
  Marshal_nodes (Nodes file) = Ok payloadBytes →
  Marshal_header header = Ok headerBytes →
  Decode_header (headerBytes ++ payloadBytes) = Ok (header, length headerBytes) →
  Decode_nodes payloadBytes = Ok (Nodes file, k) →
  ∃ data,
    Encode now file = Ok data
    ∧ Decode data = Ok {| Header := header; Nodes := Nodes file |}
    ∧ NodeCount header = len (Nodes file).
Proof.
  intros header Hp Hh Hdh Hdn. exists (MagicBytes ++ headerBytes ++ payloadBytes).
  split; [|split].
  - by apply Encode_output.
  - apply (Decode_framed _ _ _ _ k); [exact Hdh| |exact Hdn].
    apply updated_header_fields.
  - apply updated_header_fields.
Qed.

(** *** Streaming *)

Section stream_facts.
Context `{MsgpackLib}.

(** [Next] returns [(nil, nil)] once [count] nodes have been returned,
    and when the decoder meets the end of the input. *)
Lemma Next_done (sr : StreamReader) :
  (count sr <= index sr)%Z ∨ Decode_node (reader sr) = Err io_EOF →
  Next sr = (NextDone, sr).
Proof.
  unfold Next. intros [Hge|Heof].
  - destruct (Z.geb_spec (index sr) (count sr)); [done|lia].
  - rewrite Heof. by destruct (index sr >=? count sr).
Qed.

(** Streaming never reports an integrity failure. *)
Lemma NewStreamReader_no_integrity (r : bytes) :
  NewStreamReader r ≠ Err ErrIntegrityFailed.
Proof.
  unfold NewStreamReader. destruct r as [|b r]; [done|].
  destruct (len (b :: r) <? 6); [done|].
  destruct (negb _); [done|].
  by destruct (Decode_header _) as [[? ?]|?].
Qed.

Lemma Next_no_integrity (sr : StreamReader) :
  (Next sr).1 ≠ NextError ErrIntegrityFailed.
Proof.
  unfold Next. destruct (index sr >=? count sr); [done|].
  by destruct (Decode_node _) as [[? ?]|[| |?]].
Qed.

(** A returned node moves [index] one step towards [count]. *)
Lemma Next_node (sr sr' : StreamReader) (node : MemoryNode) :
  Next sr = (NextNode node, sr') →
  index sr < count sr ∧ index sr' = index sr + 1 ∧ count sr' = count sr.
Proof.
  unfold Next. destruct (Z.geb_spec (index sr) (count sr)); [done|].
  destruct (Decode_node _) as [[? ?]|[| |?]]; [|done..].
  intros [= _ <-]. simpl. lia.
Qed.

(** The loop of [ReadAll] runs to its end: more fuel changes nothing. *)
Lemma collect_enough_fuel (fuel : nat) : ∀ (sr : StreamReader),
  (Z.to_nat (count sr - index sr) ≤ fuel)%nat →
  collect fuel sr = ReadAll sr.
Proof.
  unfold ReadAll. induction fuel as [|fuel IH]; intros sr Hfuel.
  - by replace (Z.to_nat (count sr - index sr)) with 0%nat by lia.
  - destruct (Z.to_nat (count sr - index sr)) as [|m] eqn:Hm.
    + simpl. destruct (Next sr) as [[node| |err] sr'] eqn:Hnext; [|done..].
      apply Next_node in Hnext. lia.
    + simpl. destruct (Next sr) as [[node| |err] sr'] eqn:Hnext; [|done..].
      apply Next_node in Hnext as (Hlt & Hi & Hc).
      rewrite (IH sr') by lia.
      replace m with (Z.to_nat (count sr' - index sr')) by lia. done.
Qed.
End stream_facts.

(** C5 fails on the code.  [Encode] writes the nodes as one msgpack array,
    and [Next] decodes a single [MemoryNode] from where the header ends,
    that is from the head of the array and not from its first element.
    On the encoded one-node file whole-buffer [Decode] returns the node
    while the first [Next] returns an error; the same holds with nine
    nodes, as many as the struct has fields. *)
Theorem StreamReader_fails_on_encoded_file :
  @Encode msgpack_v5 test_now one_node_file = Ok one_node_data
  ∧ (∃ header, @Decode msgpack_v5 one_node_data
               = Ok {| Header := header; Nodes := Nodes one_node_file |})
  ∧ @StreamDecode msgpack_v5 one_node_data
    = Err (Errorf "failed to decode node"
             (lib_failure "msgpack: number of fields in array-encoded struct doesn't match"))
  ∧ (∃ header, @Decode msgpack_v5 nine_node_data
               = Ok {| Header := header; Nodes := Nodes nine_node_file |})
  ∧ @StreamDecode msgpack_v5 nine_node_data
    = Err (Errorf "failed to decode node"
             (lib_failure "msgpack: invalid code decoding string/bytes length")).
Proof.
  split; [by vm_compute|]. split; [eexists; vm_compute; reflexivity|].
  split; [by vm_compute|]. split; [eexists; vm_compute; reflexivity|].
  by vm_compute.
Qed.

(** ** Rounding in [SpecFloat]: magnitudes *)

Lemma digits2_pos_bounds p :
  2 ^ (Zpos (digits2_pos p) - 1) <= Zpos p < 2 ^ Zpos (digits2_pos p).
Proof.
  induction p as [p IH|p IH|]; simpl digits2_pos.
  - rewrite Pos2Z.inj_succ, Z.pow_succ_r by lia.
    replace (Z.succ (Zpos (digits2_pos p)) - 1)
      with (Z.succ (Zpos (digits2_pos p) - 1)) by lia.
    rewrite Z.pow_succ_r by lia. lia.
  - rewrite Pos2Z.inj_succ, Z.pow_succ_r by lia.
    replace (Z.succ (Zpos (digits2_pos p)) - 1)
      with (Z.succ (Zpos (digits2_pos p) - 1)) by lia.
    rewrite Z.pow_succ_r by lia. lia.
  - simpl. lia.
Qed.

Lemma Zdigits2_bounds m :
  0 < m → 2 ^ (Zdigits2 m - 1) <= m < 2 ^ Zdigits2 m.
Proof. destruct m as [|p|p]; [lia| |lia]. intros _. apply digits2_pos_bounds. Qed.

Lemma Zdigits2_pos m : 0 < m → 0 < Zdigits2 m.
Proof. destruct m; simpl; lia. Qed.

Lemma Zdigits2_unique m k :
  0 < m → 2 ^ (k - 1) <= m < 2 ^ k → Zdigits2 m = k.
Proof.
  intros Hm Hk. pose proof (Zdigits2_bounds m Hm) as Hd.
  pose proof (Zdigits2_pos m Hm) as Hp.
  assert (0 < k).
  { destruct (Z.lt_ge_cases 0 k); [done|].
    rewrite (Z.pow_neg_r 2 (k - 1)) in Hk by lia.
    assert (2 ^ k <= 1); [|lia].
    destruct (Z.eq_dec k 0) as [->|]; [simpl; lia|].
    rewrite Z.pow_neg_r by lia. lia. }
  destruct (Z.lt_trichotomy (Zdigits2 m) k) as [Hlt|[Heq|Hgt]]; [|done|].
  - assert (2 ^ Zdigits2 m <= 2 ^ (k - 1)) by (apply Z.pow_le_mono_r; lia). lia.
  - assert (2 ^ k <= 2 ^ (Zdigits2 m - 1)) by (apply Z.pow_le_mono_r; lia). lia.
Qed.

Lemma Zdigits2_mono m1 m2 : 0 < m1 → m1 <= m2 → Zdigits2 m1 <= Zdigits2 m2.
Proof.
  intros H1 H12. pose proof (Zdigits2_bounds m1 H1). 
  pose proof (Zdigits2_bounds m2 ltac:(lia)).
  pose proof (Zdigits2_pos m1 H1).
  destruct (Z.le_gt_cases (Zdigits2 m1) (Zdigits2 m2)); [done|].
  assert (2 ^ Zdigits2 m2 <= 2 ^ (Zdigits2 m1 - 1)) by (apply Z.pow_le_mono_r; lia).
  lia.
Qed.

Lemma Zdigits2_div_pow2 m n :
  0 < m → 0 <= n < Zdigits2 m →
  0 < m / 2 ^ n ∧ Zdigits2 (m / 2 ^ n) = Zdigits2 m - n.
Proof.
  intros Hm Hn. pose proof (Zdigits2_bounds m Hm) as [Hlo Hhi].
  assert (Hpn : 0 < 2 ^ n) by (apply Z.pow_pos_nonneg; lia).
  assert (Hlo' : 2 ^ (Zdigits2 m - n - 1) <= m / 2 ^ n).
  { apply Z.div_le_lower_bound; [done|].
    rewrite <- Z.pow_add_r by lia.
    replace (n + (Zdigits2 m - n - 1)) with (Zdigits2 m - 1) by lia. done. }
  assert (Hhi' : m / 2 ^ n < 2 ^ (Zdigits2 m - n)).
  { apply Z.div_lt_upper_bound; [done|].
    rewrite <- Z.pow_add_r by lia.
    replace (n + (Zdigits2 m - n)) with (Zdigits2 m) by lia. done. }
  assert (Hq : 0 < m / 2 ^ n).
  { assert (0 < 2 ^ (Zdigits2 m - n - 1)) by (apply Z.pow_pos_nonneg; lia). lia. }
  split; [done|]. apply Zdigits2_unique; [done|]. split; [|done].
  replace (Zdigits2 m - n - 1) with (Zdigits2 m - n - 1) by lia. done.
Qed.

Section rounding.
Variables prec emax : Z.
Hypothesis prec_pos : 0 < prec.

Lemma fexp_ge_emin x : (SpecFloat.emin prec emax) <= SpecFloat.fexp prec emax x.
Proof. unfold SpecFloat.fexp, SpecFloat.emin. lia. Qed.

Lemma fexp_lt x : (SpecFloat.emin prec emax) < x → SpecFloat.fexp prec emax x < x.
Proof. unfold SpecFloat.fexp, SpecFloat.emin. lia. Qed.

(** Shifting right by one halves the mantissa. *)
Lemma shr_1_m mrs : 0 <= shr_m mrs → shr_m (shr_1 mrs) = shr_m mrs / 2.
Proof.
  destruct mrs as [m r s]. simpl. intros Hm.
  rewrite <- Z.div2_div. destruct m as [|[p|p|]|p]; try done; lia.
Qed.

Lemma shr_iter_m p : ∀ mrs,
  0 <= shr_m mrs → shr_m (SpecFloat.iter_pos shr_1 p mrs) = shr_m mrs / 2 ^ Zpos p.
Proof.
  assert (Hnn : ∀ q mrs, 0 <= shr_m mrs →
            (∀ mrs', 0 <= shr_m mrs' → shr_m (SpecFloat.iter_pos shr_1 q mrs') = shr_m mrs' / 2 ^ Zpos q) →
            0 <= shr_m (SpecFloat.iter_pos shr_1 q mrs)).
  { intros q mrs Hm Hq. rewrite Hq by done. apply Z.div_pos; [done|].
    apply Z.pow_pos_nonneg; lia. }
  induction p as [p IH|p IH|]; intros mrs Hm; simpl SpecFloat.iter_pos.
  - assert (H1 : 0 <= shr_m (shr_1 mrs)).
    { rewrite shr_1_m by done. apply Z.div_pos; lia. }
    assert (Hp2 : 0 < 2 ^ Zpos p) by (apply Z.pow_pos_nonneg; lia).
    rewrite IH by (apply Hnn; done). rewrite IH by done. rewrite shr_1_m by done.
    rewrite !Z.div_div by lia.
    f_equal. rewrite Pos2Z.inj_xI.
    replace (2 * Zpos p + 1) with (1 + Zpos p + Zpos p) by lia.
    rewrite !Z.pow_add_r by lia. simpl (2 ^ 1). lia.
  - assert (Hp2 : 0 < 2 ^ Zpos p) by (apply Z.pow_pos_nonneg; lia).
    rewrite IH by (apply Hnn; done). rewrite IH by done.
    rewrite !Z.div_div by lia.
    f_equal. replace (Zpos p~0) with (Zpos p + Zpos p) by lia.
    rewrite !Z.pow_add_r by lia. lia.
  - rewrite shr_1_m by done. done.
Qed.

(** Truncation to the format keeps a positive mantissa positive and the
    magnitude (number of digits plus exponent) unchanged, as long as
    the magnitude is above the smallest exponent. *)
Lemma shr_fexp_magnitude m e l :
  0 < m → (SpecFloat.emin prec emax) < Zdigits2 m + e →
  let '(mrs, e') := shr_fexp prec emax m e l in
  0 < shr_m mrs ∧ Zdigits2 (shr_m mrs) + e' = Zdigits2 m + e ∧ (SpecFloat.emin prec emax) <= e'.
Proof.
  intros Hm Hmag. unfold shr_fexp, shr.
  pose proof (fexp_lt _ Hmag) as Hf. pose proof (fexp_ge_emin (Zdigits2 m + e)) as Hg.
  assert (Hrec : shr_m (shr_record_of_loc m l) = m) by (by destruct l as [|[]]).
  destruct (SpecFloat.fexp prec emax (Zdigits2 m + e) - e) as [|n|n] eqn:Hn.
  - rewrite Hrec. repeat split; lia.
  - rewrite shr_iter_m by (rewrite Hrec; lia). rewrite Hrec.
    destruct (Zdigits2_div_pow2 m (Zpos n)) as [Hq Hd]; [done|lia|].
    rewrite Hd. repeat split; lia.
  - rewrite Hrec. repeat split; lia.
Qed.

Lemma round_nearest_even_ge m l : m <= round_nearest_even m l <= m + 1.
Proof. unfold round_nearest_even. destruct l as [|[]]; try destruct (Z.even m); lia. Qed.

(** Rounding a positive number whose magnitude is above the smallest
    exponent gives a finite non-zero number of at least that magnitude,
    or an infinity. *)
Lemma binary_round_aux_magnitude s m e l :
  0 < m → (SpecFloat.emin prec emax) < Zdigits2 m + e →
  match binary_round_aux prec emax s m e l with
  | S754_finite _ m' e' => Zdigits2 m + e <= Zpos (digits2_pos m') + e' ∧ (SpecFloat.emin prec emax) <= e'
  | S754_infinity _ => True
  | _ => False
  end.
Proof.
  intros Hm Hmag. unfold binary_round_aux.
  pose proof (shr_fexp_magnitude m e l Hm Hmag) as H1.
  destruct (shr_fexp prec emax m e l) as [mrs1 e1]. destruct H1 as (Hm1 & Hd1 & He1).
  pose proof (round_nearest_even_ge (shr_m mrs1) (loc_of_shr_record mrs1)) as Hr.
  set (m2 := round_nearest_even (shr_m mrs1) (loc_of_shr_record mrs1)) in *.
  assert (Hm2 : 0 < m2) by lia.
  assert (Hd2 : Zdigits2 (shr_m mrs1) <= Zdigits2 m2) by (apply Zdigits2_mono; lia).
  pose proof (shr_fexp_magnitude m2 e1 loc_Exact Hm2 ltac:(lia)) as H2.
  destruct (shr_fexp prec emax m2 e1 loc_Exact) as [mrs3 e3].
  destruct H2 as (Hm3 & Hd3 & He3).
  destruct (shr_m mrs3) as [|m3|m3] eqn:Hm3'; [lia| |lia].
  destruct (e3 <=? emax - prec); [|done]. simpl in Hd3. lia.
Qed.

(** The exponent of whatever rounding returns is at least the smallest
    exponent. *)
Lemma shr_fexp_exponent m e l : (SpecFloat.emin prec emax) <= (shr_fexp prec emax m e l).2.
Proof.
  unfold shr_fexp, shr. pose proof (fexp_ge_emin (Zdigits2 m + e)).
  destruct (SpecFloat.fexp prec emax (Zdigits2 m + e) - e) eqn:Hn; simpl; lia.
Qed.

Lemma binary_round_aux_exponent s m e l :
  match binary_round_aux prec emax s m e l with
  | S754_finite _ _ e' => (SpecFloat.emin prec emax) <= e'
  | _ => True
  end.
Proof.
  unfold binary_round_aux.
  destruct (shr_fexp prec emax m e l) as [mrs1 e1].
  pose proof (shr_fexp_exponent
                (round_nearest_even (shr_m mrs1) (loc_of_shr_record mrs1)) e1 loc_Exact) as H3.
  destruct (shr_fexp prec emax _ e1 loc_Exact) as [mrs3 e3]. simpl in H3.
  destruct (shr_m mrs3); [done| |done]. by destruct (e3 <=? emax - prec).
Qed.
End rounding.

(** ** Cosine similarity *)

Lemma f64_mul_above_floor x y : above_floor (f64_mul x y).
Proof.
  destruct x as [sx|sx| |sx mx ex], y as [sy|sy| |sy my ey]; simpl; try done.
  apply (binary_round_aux_exponent 53 1024).
Qed.

Lemma binary_round_above_floor s m e : above_floor (binary_round 53 1024 s m e).
Proof.
  unfold binary_round. destruct (shl_align _ _ _) as [mz ez].
  apply (binary_round_aux_exponent 53 1024).
Qed.

Lemma f64_add_above_floor x y :
  above_floor x → above_floor y → above_floor (f64_add x y).
Proof.
  intros Hx Hy.
  destruct x as [sx|sx| |sx mx ex], y as [sy|sy| |sy my ey]; simpl; try done;
    try (by destruct sx, sy).
  unfold binary_normalize.
  destruct (_ + _) as [|p|p]; [done| |]; apply binary_round_above_floor.
Qed.

Lemma accumulate_above_floor a : ∀ b acc,
  above_floor (normA acc) → above_floor (normB acc) →
  above_floor (normA (accumulate a b acc)) ∧ above_floor (normB (accumulate a b acc)).
Proof.
  induction a as [|ai a IH]; intros [|bi b] acc HA HB; simpl; try done.
  apply IH; simpl; apply f64_add_above_floor; auto using f64_mul_above_floor.
Qed.

(** The square root of a non-zero [float64] is never zero, and when
    finite it is at least 2^-537. *)
Lemma math_Sqrt_at_least x :
  above_floor x → float_eq x fzero = false → at_least (-536) (math_Sqrt x).
Proof.
  destruct x as [s|[|]| |[|] m e]; simpl; try done.
  intros He _. unfold SFsqrt_core_binary.
  set (d := Zdigits2 (Zpos m)).
  set (e' := Z.min (SpecFloat.fexp 53 1024 (Z.div2 (d + e + 1))) (Z.div2 e)).
  assert (He' : 2 * e' <= e).
  { unfold e'. rewrite (Z.div2_div e). pose proof (Z.mul_div_le e 2 ltac:(lia)). lia. }
  assert (Hfloor : -1074 <= e').
  { unfold e', SpecFloat.fexp, SpecFloat.emin. rewrite (Z.div2_div e).
    assert (-537 <= e / 2) by (apply Z.div_le_lower_bound; lia). lia. }
  set (sh := e - 2 * e').
  set (m' := match sh with Zpos _ => Z.shiftl (Zpos m) sh | 0 => Zpos m | Zneg _ => 0 end).
  assert (Hm' : m' = Zpos m * 2 ^ sh).
  { unfold m'. destruct sh as [|p|p] eqn:Hsh; [simpl; lia| |lia].
    rewrite Z.shiftl_mul_pow2 by lia. done. }
  assert (Hpow : 0 < 2 ^ sh) by (apply Z.pow_pos_nonneg; lia).
  assert (Hm'pos : 0 < m') by (rewrite Hm'; lia).
  pose proof (Z.sqrtrem_sqrt m') as Hq. destruct (Z.sqrtrem m') as [q r].
  simpl in Hq. subst q.
  pose proof (Z.sqrt_spec m' ltac:(lia)) as [Hlo Hhi].
  assert (Hqpos : 0 < Z.sqrt m') by (apply Z.sqrt_pos; lia).
  set (q := Z.sqrt m') in *.
  pose proof (Zdigits2_bounds q Hqpos) as [_ HqD].
  pose proof (Zdigits2_pos q Hqpos) as HDpos.
  pose proof (digits2_pos_bounds m) as [Hmlo _]. fold (Zdigits2 (Zpos m)) in Hmlo.
  fold d in Hmlo.
  assert (Hd : 0 < d) by (unfold d; simpl; lia).
  (* m' < 2^(2D) and 2^(d-1+sh) <= m' *)
  assert (H2D : m' < 2 ^ (2 * Zdigits2 q)).
  { replace (2 * Zdigits2 q) with (Zdigits2 q + Zdigits2 q) by lia.
    rewrite Z.pow_add_r by lia. unfold Z.succ in Hhi. nia. }
  assert (Hlow : 2 ^ (d - 1 + sh) <= m').
  { rewrite Z.pow_add_r, Hm' by lia. nia. }
  assert (Hdig : d + sh <= 2 * Zdigits2 q).
  { destruct (Z.le_gt_cases (d + sh) (2 * Zdigits2 q)); [done|].
    assert (2 ^ (2 * Zdigits2 q) <= 2 ^ (d - 1 + sh)) by (apply Z.pow_le_mono_r; lia).
    lia. }
  assert (Hmag : -536 <= Zdigits2 q + e') by (unfold sh in Hdig; lia).
  pose proof (binary_round_aux_magnitude 53 1024 ltac:(lia) false q e'
                (if r =? 0 then loc_Exact
                 else loc_Inexact (if r <=? q then Lt else Gt)) Hqpos) as Hround.
  unfold SpecFloat.emin in Hround. specialize (Hround ltac:(lia)).
  destruct (binary_round_aux _ _ _ _ _ _) as [?|?| |? mz ez]; try done.
  unfold at_least, magnitude. lia.
Qed.

(** The product of two such square roots is not zero. *)
Lemma f64_mul_at_least x y :
  at_least (-536) x → at_least (-536) y → float_eq (f64_mul x y) fzero = false.
Proof.
  unfold at_least, float_eq, f64_mul.
  destruct x as [sx|sx| |sx mx ex], y as [sy|sy| |sy my ey]; simpl; try done.
  all: try (intros _ _; by destruct (xorb sx sy)).
  unfold magnitude. intros Hx Hy.
  pose proof (digits2_pos_bounds mx) as [Hxlo _].
  pose proof (digits2_pos_bounds my) as [Hylo _].
  assert (Hd : Zpos (digits2_pos mx) + Zpos (digits2_pos my) - 1
               <= Zdigits2 (Zpos (mx * my))).
  { pose proof (Zdigits2_bounds (Zpos (mx * my)) ltac:(lia)) as [_ Hhi].
    destruct (Z.le_gt_cases (Zpos (digits2_pos mx) + Zpos (digits2_pos my) - 1)
                (Zdigits2 (Zpos (mx * my)))); [done|].
    assert (2 ^ Zdigits2 (Zpos (mx * my))
            <= 2 ^ (Zpos (digits2_pos mx) - 1 + (Zpos (digits2_pos my) - 1)))
      by (apply Z.pow_le_mono_r; lia).
    rewrite Z.pow_add_r in * by lia. pose proof (Pos2Z.inj_mul mx my) as Hmul.
    assert (2 ^ (Zpos (digits2_pos mx) - 1) * 2 ^ (Zpos (digits2_pos my) - 1)
            <= Zpos mx * Zpos my); [|lia].
    apply Z.mul_le_mono_nonneg; try done; apply Z.pow_nonneg; lia. }
  pose proof (binary_round_aux_magnitude 53 1024 ltac:(lia) (xorb sx sy)
                (Zpos (mx * my)) (ex + ey) loc_Exact ltac:(lia)) as Hround.
  unfold SpecFloat.emin in Hround. specialize (Hround ltac:(lia)).
  by destruct (binary_round_aux _ _ _ _ _ _) as [?|[|]| |[|] mz ez].
Qed.

(** The divisor of [cosineSimilarity] is not zero when neither norm is. *)
Lemma norm_product_nonzero (a b : list float32) :
  let acc := accumulate a b accum_zero in
  float_eq (normA acc) fzero = false → float_eq (normB acc) fzero = false →
  float_eq (norm_product acc) fzero = false.
Proof.
  intros acc HA HB.
  destruct (accumulate_above_floor a b accum_zero) as [FA FB]; [done..|].
  apply f64_mul_at_least; by apply math_Sqrt_at_least.
Qed.

(** C8. [cosineSimilarity] returns 0 when the lengths differ or the
    vectors are empty, and when either accumulated squared norm compares
    equal to zero.  In the remaining case it returns the quotient of the
    dot product by the product of the square roots of the norms, rounded
    to [float32], and that divisor is not zero.  The three accumulators
    are [float64] values updated with [float64] operations on the exactly
    converted components. *)
Theorem cosineSimilarity_guarded (a b : list float32) :
  let acc := accumulate a b accum_zero in
  (length a ≠ length b ∨ a = [] → cosineSimilarity a b = fzero)
  ∧ (float_eq (normA acc) fzero = true ∨ float_eq (normB acc) fzero = true →
     cosineSimilarity a b = fzero)
  ∧ (length a = length b → a ≠ [] →
     float_eq (normA acc) fzero = false → float_eq (normB acc) fzero = false →
     float_eq (norm_product acc) fzero = false
     ∧ cosineSimilarity a b
       = float32_of_float64
           (f64_div (dotProduct acc) (f64_mul (math_Sqrt (normA acc)) (math_Sqrt (normB acc)))))
  ∧ (∀ ai bi a' b' acc0,
       accumulate (ai :: a') (bi :: b') acc0
       = accumulate a' b'
           {| dotProduct := SFadd 53 1024 (dotProduct acc0)
                              (SFmul 53 1024 (float64_of_float32 ai) (float64_of_float32 bi));
              normA := SFadd 53 1024 (normA acc0)
                         (SFmul 53 1024 (float64_of_float32 ai) (float64_of_float32 ai));
              normB := SFadd 53 1024 (normB acc0)
                         (SFmul 53 1024 (float64_of_float32 bi) (float64_of_float32 bi)) |}).
Proof.
  intros acc. unfold cosineSimilarity. fold acc.
  split; [|split; [|split]].
  - intros [Hlen| ->].
    + destruct (Nat.eqb_spec (length a) (length b)); [done|]. done.
    + simpl. by rewrite orb_true_r.
  - intros Hzero. destruct (negb _ || _); [done|].
    cbv zeta. destruct Hzero as [-> | ->]; [done|]. by rewrite orb_true_r.
  - intros Hlen Hne HA HB. split; [by apply norm_product_nonzero|].
    rewrite Hlen, Nat.eqb_refl. simpl negb.
    destruct b as [|bi b]; [by destruct a|]. simpl orb. cbv iota zeta.
    by rewrite HA, HB.
  - done.
Qed.

(** The vectors of the package's tests; the dot product of
    [[2^24; 1]] with [[1; 1]] is 2^24 + 1, which only a [float64]
    accumulator holds. *)
Lemma cosineSimilarity_guarded_witness :
  let f := float32_of_Z in
  cosineSimilarity [f 1] [f 1; f 2] = fzero
  ∧ cosineSimilarity [f 0; f 0] [f 1; f 2] = fzero
  ∧ cosineSimilarity [f 1; f 0; f 0] [f (-1); f 0; f 0] = f (-1)
  ∧ float_eq (norm_product (accumulate [f 1; f 0; f 0] [f (-1); f 0; f 0] accum_zero))
             fzero = false
  ∧ dotProduct (accumulate [f 16777216; f 1] [f 1; f 1] accum_zero)
    = S754_finite false 4503599895805952 (-28).
Proof.
  intros f.
  split; [apply (proj1 (cosineSimilarity_guarded [f 1] [f 1; f 2])); left; simpl; lia|].
  split; [apply (proj1 (proj2 (cosineSimilarity_guarded [f 0; f 0] [f 1; f 2])));
          left; vm_compute; reflexivity|].
  destruct (proj1 (proj2 (proj2 (cosineSimilarity_guarded
              [f 1; f 0; f 0] [f (-1); f 0; f 0])))) as [Hnz Heq].
  - reflexivity.
  - discriminate.
  - vm_compute. reflexivity.
  - vm_compute. reflexivity.
  - split; [rewrite Heq; vm_compute; reflexivity|]. split; [exact Hnz|].
    vm_compute. reflexivity.
Defined.

(** ** The wire format reads back what it writes *)

Lemma Z_of_byte_range (b : byte) : 0 <= Z_of_byte b < 256.
Proof. unfold Z_of_byte. pose proof (Byte.to_N_bounded b). lia. Qed.

Lemma Z_of_byte_of_Z (z : Z) : Z_of_byte (byte_of_Z z) = z mod 256.
Proof.
  unfold Z_of_byte, byte_of_Z. pose proof (Z.mod_pos_bound z 256 ltac:(lia)) as Hr.
  destruct (Byte.of_N (Z.to_N (z mod 256))) as [b|] eqn:Hb.
  - apply Byte.to_of_N in Hb. rewrite Hb. lia.
  - apply Byte.of_N_None_iff in Hb. lia.
Qed.

Lemma Z_of_byte_of_Z_small (z : Z) : 0 <= z < 256 → Z_of_byte (byte_of_Z z) = z.
Proof. intros Hz. rewrite Z_of_byte_of_Z. by apply Z.mod_small. Qed.

Lemma length_be_bytes (k : nat) (z : Z) : length (be_bytes k z) = k.
Proof. induction k as [|k IH]; simpl; [done|]. by rewrite IH. Qed.

Lemma be_fold_be_bytes (k : nat) (z : Z) : ∀ acc,
  fold_left (λ acc b, acc * 256 + Z_of_byte b) (be_bytes k z) acc
  = acc * 256 ^ Z.of_nat k + z mod 256 ^ Z.of_nat k.
Proof.
  induction k as [|k IH]; intros acc.
  - simpl. rewrite Z.mod_1_r. lia.
  - cbn [be_bytes fold_left]. rewrite IH, Z_of_byte_of_Z.
    rewrite Z.shiftr_div_pow2 by lia.
    replace (2 ^ (8 * Z.of_nat k)) with (256 ^ Z.of_nat k)
      by (rewrite (Z.pow_mul_r 2 8) by lia; done).
    rewrite Nat2Z.inj_succ, Z.pow_succ_r by lia.
    assert (Hp : 0 < 256 ^ Z.of_nat k) by (apply Z.pow_pos_nonneg; lia).
    rewrite (Z.mul_comm 256 (256 ^ Z.of_nat k)).
    rewrite (Z.rem_mul_r z (256 ^ Z.of_nat k) 256) by lia. lia.
Qed.

Lemma be_value_be_bytes (k : nat) (z : Z) :
  be_value (be_bytes k z) = z mod 256 ^ Z.of_nat k.
Proof. unfold be_value. by rewrite be_fold_be_bytes. Qed.

Module MsgpackFacts.
Import Msgpack.

Lemma read_n_app (b rest : bytes) :
  read_n (len b) (b ++ rest) = Parsed b rest.
Proof.
  unfold read_n. destruct b as [|x b]; [done|].
  assert (Hlen : 0 < len (x :: b)) by (unfold len; simpl; lia).
  destruct (Z.leb_spec (len (x :: b)) 0); [lia|].
  simpl app.
  destruct (Z.ltb_spec (len (x :: b ++ rest)) (len (x :: b))) as [H'|H'].
  { unfold len in H'. simpl in H'. rewrite length_app in H'. lia. }
  unfold len. rewrite Nat2Z.id. change (x :: b ++ rest) with ((x :: b) ++ rest).
  by rewrite take_app_length, drop_app_length.
Qed.

Lemma read_uint_be (k : nat) (z : Z) (rest : bytes) :
  0 <= z < 256 ^ Z.of_nat k →
  read_uint (Z.of_nat k) (be_bytes k z ++ rest) = Parsed z rest.
Proof.
  intros Hz. unfold read_uint.
  rewrite <- (length_be_bytes k z) at 1. fold (len (be_bytes k z)).
  rewrite read_n_app. simpl. rewrite be_value_be_bytes. by rewrite Z.mod_small.
Qed.

Lemma read_int_be (k : nat) (z : Z) (rest : bytes) :
  (0 < k)%nat → - 2 ^ (8 * Z.of_nat k - 1) <= z < 2 ^ (8 * Z.of_nat k - 1) →
  read_int (Z.of_nat k) (be_bytes k z ++ rest) = Parsed z rest.
Proof.
  intros Hk Hz. unfold read_int, read_uint.
  rewrite <- (length_be_bytes k z) at 1. fold (len (be_bytes k z)).
  rewrite read_n_app. simpl. rewrite be_value_be_bytes.
  assert (Hpow : 256 ^ Z.of_nat k = 2 ^ (8 * Z.of_nat k))
    by (rewrite (Z.pow_mul_r 2 8) by lia; done).
  assert (Hhalf : 2 ^ (8 * Z.of_nat k) = 2 * 2 ^ (8 * Z.of_nat k - 1)).
  { rewrite <- Z.pow_succ_r by lia. f_equal. lia. }
  rewrite Hpow. f_equal.
  destruct (Z.lt_ge_cases z 0) as [Hneg|Hpos].
  - assert (Hm : z mod 2 ^ (8 * Z.of_nat k) = z + 2 ^ (8 * Z.of_nat k)).
    { symmetry. apply (Z.mod_unique _ _ (-1)); lia. }
    rewrite Hm. destruct (Z.ltb_spec (z + 2 ^ (8 * Z.of_nat k)) (2 ^ (8 * Z.of_nat k - 1))); lia.
  - rewrite Z.mod_small by lia.
    destruct (Z.ltb_spec z (2 ^ (8 * Z.of_nat k - 1))); lia.
Qed.
End MsgpackFacts.

Module MsgpackCodes.
Import Msgpack.

(** The objects announced by each first byte. *)
Section codes.
Context (one : bytes → parsed value) (bs : bytes).

Lemma code_nil :
  decode_object one (Z_of_byte xc0) bs = Parsed VNil bs.
Proof. reflexivity. Qed.

Lemma code_false :
  decode_object one (Z_of_byte xc2) bs = Parsed (VBool false) bs.
Proof. reflexivity. Qed.

Lemma code_true :
  decode_object one (Z_of_byte xc3) bs = Parsed (VBool true) bs.
Proof. reflexivity. Qed.

Lemma code_bin8 :
  decode_object one (Z_of_byte xc4) bs = bind (read_uint 1 bs) read_bin.
Proof. reflexivity. Qed.

Lemma code_bin16 :
  decode_object one (Z_of_byte xc5) bs = bind (read_uint 2 bs) read_bin.
Proof. reflexivity. Qed.

Lemma code_bin32 :
  decode_object one (Z_of_byte xc6) bs = bind (read_uint 4 bs) read_bin.
Proof. reflexivity. Qed.

Lemma code_ext8 :
  decode_object one (Z_of_byte xc7) bs = bind (read_uint 1 bs) read_ext.
Proof. reflexivity. Qed.

Lemma code_ext16 :
  decode_object one (Z_of_byte xc8) bs = bind (read_uint 2 bs) read_ext.
Proof. reflexivity. Qed.

Lemma code_ext32 :
  decode_object one (Z_of_byte xc9) bs = bind (read_uint 4 bs) read_ext.
Proof. reflexivity. Qed.

Lemma code_float32 :
  decode_object one (Z_of_byte xca) bs = bind (read_uint 4 bs) (λ u rest, Parsed (VFloat32 (math_Float32frombits u)) rest).
Proof. reflexivity. Qed.

Lemma code_float64 :
  decode_object one (Z_of_byte xcb) bs = bind (read_uint 8 bs) (λ u rest, Parsed (VFloat64 (math_Float64frombits u)) rest).
Proof. reflexivity. Qed.

Lemma code_uint8 :
  decode_object one (Z_of_byte xcc) bs = bind (read_uint 1 bs) (λ u rest, Parsed (VInt u) rest).
Proof. reflexivity. Qed.

Lemma code_uint16 :
  decode_object one (Z_of_byte xcd) bs = bind (read_uint 2 bs) (λ u rest, Parsed (VInt u) rest).
Proof. reflexivity. Qed.

Lemma code_uint32 :
  decode_object one (Z_of_byte xce) bs = bind (read_uint 4 bs) (λ u rest, Parsed (VInt u) rest).
Proof. reflexivity. Qed.

Lemma code_uint64 :
  decode_object one (Z_of_byte xcf) bs = bind (read_uint 8 bs) (λ u rest, Parsed (VInt u) rest).
Proof. reflexivity. Qed.

Lemma code_int8 :
  decode_object one (Z_of_byte xd0) bs = bind (read_int 1 bs) (λ u rest, Parsed (VInt u) rest).
Proof. reflexivity. Qed.

Lemma code_int16 :
  decode_object one (Z_of_byte xd1) bs = bind (read_int 2 bs) (λ u rest, Parsed (VInt u) rest).
Proof. reflexivity. Qed.

Lemma code_int32 :
  decode_object one (Z_of_byte xd2) bs = bind (read_int 4 bs) (λ u rest, Parsed (VInt u) rest).
Proof. reflexivity. Qed.

Lemma code_int64 :
  decode_object one (Z_of_byte xd3) bs = bind (read_int 8 bs) (λ u rest, Parsed (VInt u) rest).
Proof. reflexivity. Qed.

Lemma code_fixext1 :
  decode_object one (Z_of_byte xd4) bs = read_ext 1 bs.
Proof. reflexivity. Qed.

Lemma code_fixext2 :
  decode_object one (Z_of_byte xd5) bs = read_ext 2 bs.
Proof. reflexivity. Qed.

Lemma code_fixext4 :
  decode_object one (Z_of_byte xd6) bs = read_ext 4 bs.
Proof. reflexivity. Qed.

Lemma code_fixext8 :
  decode_object one (Z_of_byte xd7) bs = read_ext 8 bs.
Proof. reflexivity. Qed.

Lemma code_fixext16 :
  decode_object one (Z_of_byte xd8) bs = read_ext 16 bs.
Proof. reflexivity. Qed.

Lemma code_str8 :
  decode_object one (Z_of_byte xd9) bs = bind (read_uint 1 bs) read_str.
Proof. reflexivity. Qed.

Lemma code_str16 :
  decode_object one (Z_of_byte xda) bs = bind (read_uint 2 bs) read_str.
Proof. reflexivity. Qed.

Lemma code_str32 :
  decode_object one (Z_of_byte xdb) bs = bind (read_uint 4 bs) read_str.
Proof. reflexivity. Qed.

Lemma code_array16 :
  decode_object one (Z_of_byte xdc) bs = bind (read_uint 2 bs) (λ n bs, bind (read_values one (Z.to_nat n) bs) (λ l rest, Parsed (VArray l) rest)).
Proof. reflexivity. Qed.

Lemma code_array32 :
  decode_object one (Z_of_byte xdd) bs = bind (read_uint 4 bs) (λ n bs, bind (read_values one (Z.to_nat n) bs) (λ l rest, Parsed (VArray l) rest)).
Proof. reflexivity. Qed.

Lemma code_map16 :
  decode_object one (Z_of_byte xde) bs = bind (read_uint 2 bs) (λ n bs, bind (read_entries one (Z.to_nat n) bs) (λ l rest, Parsed (VMap l) rest)).
Proof. reflexivity. Qed.

Lemma code_map32 :
  decode_object one (Z_of_byte xdf) bs = bind (read_uint 4 bs) (λ n bs, bind (read_entries one (Z.to_nat n) bs) (λ l rest, Parsed (VMap l) rest)).
Proof. reflexivity. Qed.

End codes.
End MsgpackCodes.

Module MsgpackRoundtrip.
Import Msgpack MsgpackFacts MsgpackCodes.

Lemma decode_cons (fuel : nat) (code : byte) (bs : bytes) :
  decode (S fuel) (code :: bs) = decode_object (decode fuel) (Z_of_byte code) bs.
Proof. reflexivity. Qed.

Ltac leb_cases :=
  repeat match goal with
         | |- context [?a <=? ?b] => destruct (Z.leb_spec a b); try lia
         | |- context [?a <? ?b] => destruct (Z.ltb_spec a b); try lia
         | |- context [?a =? ?b] => destruct (Z.eqb_spec a b); try lia
         end.

(** The width-specific forms of [read_uint_be] and [read_int_be]. *)
Lemma read_uint_1 z rest : 0 <= z < 2 ^ 8 →
  read_uint 1 (be_bytes 1 z ++ rest) = Parsed z rest.
Proof. intros. apply (read_uint_be 1). simpl in *. lia. Qed.
Lemma read_uint_2 z rest : 0 <= z < 2 ^ 16 →
  read_uint 2 (be_bytes 2 z ++ rest) = Parsed z rest.
Proof. intros. apply (read_uint_be 2). simpl in *. lia. Qed.
Lemma read_uint_4 z rest : 0 <= z < 2 ^ 32 →
  read_uint 4 (be_bytes 4 z ++ rest) = Parsed z rest.
Proof. intros. apply (read_uint_be 4). simpl in *. lia. Qed.
Lemma read_uint_8 z rest : 0 <= z < 2 ^ 64 →
  read_uint 8 (be_bytes 8 z ++ rest) = Parsed z rest.
Proof. intros. apply (read_uint_be 8). simpl in *. lia. Qed.
Lemma read_int_1 z rest : - 2 ^ 7 <= z < 2 ^ 7 →
  read_int 1 (be_bytes 1 z ++ rest) = Parsed z rest.
Proof. intros. apply (read_int_be 1); [lia|]. simpl in *. lia. Qed.
Lemma read_int_2 z rest : - 2 ^ 15 <= z < 2 ^ 15 →
  read_int 2 (be_bytes 2 z ++ rest) = Parsed z rest.
Proof. intros. apply (read_int_be 2); [lia|]. simpl in *. lia. Qed.
Lemma read_int_4 z rest : - 2 ^ 31 <= z < 2 ^ 31 →
  read_int 4 (be_bytes 4 z ++ rest) = Parsed z rest.
Proof. intros. apply (read_int_be 4); [lia|]. simpl in *. lia. Qed.
Lemma read_int_8 z rest : - 2 ^ 63 <= z < 2 ^ 63 →
  read_int 8 (be_bytes 8 z ++ rest) = Parsed z rest.
Proof. intros. apply (read_int_be 8); [lia|]. simpl in *. lia. Qed.

Lemma byte_of_Z_negative (n : Z) :
  -32 <= n < 0 → Z_of_byte (byte_of_Z n) = n + 256.
Proof.
  intros Hn. rewrite Z_of_byte_of_Z. symmetry. apply (Z.mod_unique _ _ (-1)); lia.
Qed.

Lemma decode_encode_int (fuel : nat) (n : Z) (rest : bytes) :
  - 2 ^ 63 <= n < 2 ^ 64 →
  decode (S fuel) (encode_int n ++ rest) = Parsed (VInt n) rest.
Proof.
  intros Hn. unfold encode_int.
  destruct (Z.leb_spec 0 n).
  - destruct (Z.leb_spec n 127).
    { cbn [app]. rewrite decode_cons, Z_of_byte_of_Z_small by lia.
      unfold decode_object. leb_cases. done. }
    destruct (Z.leb_spec n 255).
    { cbn [app]. rewrite decode_cons, code_uint8, read_uint_1 by lia. done. }
    destruct (Z.leb_spec n 65535).
    { cbn [app]. rewrite decode_cons, code_uint16, read_uint_2 by lia. done. }
    destruct (Z.leb_spec n 4294967295).
    { cbn [app]. rewrite decode_cons, code_uint32, read_uint_4 by lia. done. }
    cbn [app]. rewrite decode_cons, code_uint64, read_uint_8 by lia. done.
  - destruct (Z.leb_spec (-32) n).
    { cbn [app]. rewrite decode_cons, byte_of_Z_negative by lia.
      unfold decode_object. leb_cases. f_equal. f_equal. lia. }
    destruct (Z.leb_spec (-128) n).
    { cbn [app]. rewrite decode_cons, code_int8, read_int_1 by lia. done. }
    destruct (Z.leb_spec (-32768) n).
    { cbn [app]. rewrite decode_cons, code_int16, read_int_2 by lia. done. }
    destruct (Z.leb_spec (-2147483648) n).
    { cbn [app]. rewrite decode_cons, code_int32, read_int_4 by lia. done. }
    cbn [app]. rewrite decode_cons, code_int64, read_int_8 by lia. done.
Qed.

Lemma decode_encode_str (fuel : nat) (s : string) (rest : bytes) :
  len (list_byte_of_string s) < 2 ^ 32 →
  decode (S fuel) (encode (VStr s) ++ rest) = Parsed (VStr s) rest.
Proof.
  intros Hs. cbn [encode]. unfold str_header.
  set (b := list_byte_of_string s) in *.
  assert (Hb : 0 <= len b) by (unfold len; lia).
  assert (Hdone : read_str (len b) (b ++ rest) = Parsed (VStr s) rest).
  { unfold read_str. rewrite read_n_app. simpl. unfold b.
    by rewrite string_of_list_byte_of_string. }
  rewrite <- app_assoc.
  destruct (Z.ltb_spec (len b) 32).
  { cbn [app]. rewrite decode_cons, Z_of_byte_of_Z_small by lia.
    unfold decode_object. leb_cases.
    replace (160 + len b - 160) with (len b) by lia. done. }
  destruct (Z.ltb_spec (len b) 256).
  { cbn [app]. rewrite decode_cons, code_str8.
    rewrite read_uint_1 by lia. done. }
  destruct (Z.ltb_spec (len b) 65536).
  { cbn [app]. rewrite decode_cons, code_str16.
    rewrite read_uint_2 by lia. done. }
  cbn [app]. rewrite decode_cons, code_str32.
  rewrite read_uint_4 by lia. done.
Qed.

Lemma decode_encode_bin (fuel : nat) (b rest : bytes) :
  len b < 2 ^ 32 →
  decode (S fuel) (encode (VBin b) ++ rest) = Parsed (VBin b) rest.
Proof.
  intros Hs. cbn [encode]. unfold bin_header.
  assert (Hb : 0 <= len b) by (unfold len; lia).
  assert (Hdone : read_bin (len b) (b ++ rest) = Parsed (VBin b) rest).
  { unfold read_bin. by rewrite read_n_app. }
  rewrite <- app_assoc.
  destruct (Z.ltb_spec (len b) 256).
  { cbn [app]. rewrite decode_cons, code_bin8.
    rewrite read_uint_1 by lia. done. }
  destruct (Z.ltb_spec (len b) 65536).
  { cbn [app]. rewrite decode_cons, code_bin16.
    rewrite read_uint_2 by lia. done. }
  cbn [app]. rewrite decode_cons, code_bin32.
  rewrite read_uint_4 by lia. done.
Qed.

Lemma be_bytes_1 (z : Z) : be_bytes 1 z = [byte_of_Z z].
Proof. simpl. by rewrite Z.shiftr_0_r. Qed.

Lemma read_ext_ok (ty : Z) (data rest : bytes) :
  -128 <= ty < 128 →
  read_ext (len data) (byte_of_Z ty :: data ++ rest) = Parsed (VExt ty data) rest.
Proof.
  intros Hty. unfold read_ext.
  change (byte_of_Z ty :: data ++ rest) with ([byte_of_Z ty] ++ data ++ rest).
  rewrite <- be_bytes_1, read_int_1 by lia. simpl. by rewrite read_n_app.
Qed.

Lemma decode_encode_ext (fuel : nat) (ty : Z) (data rest : bytes) :
  -128 <= ty < 128 → len data < 2 ^ 32 →
  decode (S fuel) (encode (VExt ty data) ++ rest) = Parsed (VExt ty data) rest.
Proof.
  intros Hty Hlen. cbn [encode]. unfold ext_header.
  assert (Hb : 0 <= len data) by (unfold len; lia).
  pose proof (read_ext_ok ty data rest Hty) as Hdone.
  rewrite <- app_assoc. rewrite <- app_comm_cons.
  destruct (Z.eqb_spec (len data) 1) as [H1|H1].
  { cbn [app]. rewrite decode_cons, code_fixext1. by rewrite <- H1. }
  destruct (Z.eqb_spec (len data) 2) as [H2|H2].
  { cbn [app]. rewrite decode_cons, code_fixext2. by rewrite <- H2. }
  destruct (Z.eqb_spec (len data) 4) as [H4|H4].
  { cbn [app]. rewrite decode_cons, code_fixext4. by rewrite <- H4. }
  destruct (Z.eqb_spec (len data) 8) as [H8|H8].
  { cbn [app]. rewrite decode_cons, code_fixext8. by rewrite <- H8. }
  destruct (Z.eqb_spec (len data) 16) as [H16|H16].
  { cbn [app]. rewrite decode_cons, code_fixext16. by rewrite <- H16. }
  destruct (Z.ltb_spec (len data) 256).
  { cbn [app]. rewrite decode_cons, code_ext8, read_uint_1 by lia. done. }
  destruct (Z.ltb_spec (len data) 65536).
  { cbn [app]. rewrite decode_cons, code_ext16, read_uint_2 by lia. done. }
  cbn [app]. rewrite decode_cons, code_ext32, read_uint_4 by lia. done.
Qed.

Lemma wf_array (l : list value) :
  wf_value (VArray l) ↔ len l < 2 ^ 32 ∧ Forall wf_value l.
Proof.
  cbn [wf_value]. apply and_iff_compat_l.
  induction l as [|x l IH]; [split; [constructor|done]|].
  rewrite Forall_cons, IH. done.
Qed.

Lemma wf_map (l : list (value * value)) :
  wf_value (VMap l)
  ↔ len l < 2 ^ 32 ∧ Forall (λ kv, wf_value kv.1 ∧ wf_value kv.2) l.
Proof.
  cbn [wf_value]. apply and_iff_compat_l.
  induction l as [|[k x] l IH]; [split; [constructor|done]|].
  rewrite Forall_cons, IH. simpl. tauto.
Qed.

Lemma depth_array (l : list value) (n : nat) :
  (depth (VArray l) ≤ S n)%nat ↔ Forall (λ x, depth x ≤ n)%nat l.
Proof.
  cbn [depth]. induction l as [|x l IH]; simpl.
  - split; [constructor|lia].
  - rewrite Forall_cons, <- IH. lia.
Qed.

Lemma depth_map (l : list (value * value)) (n : nat) :
  (depth (VMap l) ≤ S n)%nat
  ↔ Forall (λ kv, depth kv.1 ≤ n ∧ depth kv.2 ≤ n)%nat l.
Proof.
  cbn [depth]. induction l as [|[k x] l IH]; simpl.
  - split; [constructor|lia].
  - rewrite Forall_cons, <- IH. simpl. lia.
Qed.

Lemma depth_pos (v : value) : (1 ≤ depth v)%nat.
Proof. destruct v; simpl; lia. Qed.

Lemma read_values_encoded (one : bytes → parsed value) (l : list value) (rest : bytes) :
  Forall (λ x, ∀ rest, one (encode x ++ rest) = Parsed x rest) l →
  read_values one (length l) (flat_map encode l ++ rest) = Parsed l rest.
Proof.
  induction 1 as [|x l Hx Hl IH]; [done|].
  cbn [length flat_map read_values]. rewrite <- app_assoc, Hx. simpl.
  by rewrite IH.
Qed.

Lemma read_entries_encoded (one : bytes → parsed value)
    (l : list (value * value)) (rest : bytes) :
  Forall (λ kv, (∀ rest, one (encode kv.1 ++ rest) = Parsed kv.1 rest)
                ∧ (∀ rest, one (encode kv.2 ++ rest) = Parsed kv.2 rest)) l →
  read_entries one (length l)
    (flat_map (λ kv : value * value, let (k, x) := kv in encode k ++ encode x) l ++ rest)
  = Parsed l rest.
Proof.
  induction 1 as [|[k x] l [Hk Hx] Hl IH]; [done|].
  cbn [length flat_map read_entries]. simpl in Hk, Hx.
  rewrite <- !app_assoc, Hk. simpl. rewrite Hx. simpl. by rewrite IH.
Qed.

(** Reading back.  An object within the ranges of the format, written
    and followed by any bytes, is read as itself and the bytes that
    follow are left. *)
Theorem decode_encode (fuel : nat) : ∀ (v : value) (rest : bytes),
  wf_value v → (depth v ≤ fuel)%nat →
  decode fuel (encode v ++ rest) = Parsed v rest.
Proof.
  induction fuel as [|fuel IH]; intros v rest Hwf Hd.
  { pose proof (depth_pos v). lia. }
  destruct v as [|[|]|n|f|f|s|b|l|l|ty data].
  - reflexivity.
  - reflexivity.
  - reflexivity.
  - by apply decode_encode_int.
  - destruct Hwf as [Hr Hf]. cbn [encode app].
    rewrite decode_cons, code_float32, read_uint_4 by lia. simpl. by rewrite Hf.
  - destruct Hwf as [Hr Hf]. cbn [encode app].
    rewrite decode_cons, code_float64, read_uint_8 by lia. simpl. by rewrite Hf.
  - by apply decode_encode_str.
  - by apply decode_encode_bin.
  - apply wf_array in Hwf as [Hlen Hall]. apply depth_array in Hd.
    assert (Helems : read_values (decode fuel) (length l) (flat_map encode l ++ rest)
                     = Parsed l rest).
    { apply read_values_encoded. rewrite Forall_forall in Hall, Hd |- *.
      intros x Hx rest'. apply IH; auto. }
    assert (Hb : 0 <= len l) by (unfold len; lia).
    cbn [encode]. unfold array_header. rewrite <- app_assoc.
    destruct (Z.ltb_spec (len l) 16).
    { cbn [app]. rewrite decode_cons, Z_of_byte_of_Z_small by lia.
      unfold decode_object. leb_cases.
      replace (Z.to_nat (144 + len l - 144)) with (length l) by (unfold len; lia).
      by rewrite Helems. }
    destruct (Z.ltb_spec (len l) 65536).
    { cbn [app]. rewrite decode_cons, code_array16, read_uint_2 by lia. simpl.
      replace (Z.to_nat (len l)) with (length l) by (unfold len; lia).
      by rewrite Helems. }
    cbn [app]. rewrite decode_cons, code_array32, read_uint_4 by lia. simpl.
    replace (Z.to_nat (len l)) with (length l) by (unfold len; lia).
    by rewrite Helems.
  - apply wf_map in Hwf as [Hlen Hall]. apply depth_map in Hd.
    assert (Helems : read_entries (decode fuel) (length l)
              (flat_map (λ kv : value * value, let (k, x) := kv in encode k ++ encode x) l
               ++ rest) = Parsed l rest).
    { apply read_entries_encoded. rewrite Forall_forall in Hall, Hd |- *.
      intros kv Hkv. destruct (Hall kv Hkv), (Hd kv Hkv).
      split; intros rest'; apply IH; auto. }
    assert (Hb : 0 <= len l) by (unfold len; lia).
    cbn [encode]. unfold map_header. rewrite <- app_assoc.
    destruct (Z.ltb_spec (len l) 16).
    { cbn [app]. rewrite decode_cons, Z_of_byte_of_Z_small by lia.
      unfold decode_object. leb_cases.
      replace (Z.to_nat (128 + len l - 128)) with (length l) by (unfold len; lia).
      by rewrite Helems. }
    destruct (Z.ltb_spec (len l) 65536).
    { cbn [app]. rewrite decode_cons, code_map16, read_uint_2 by lia. simpl.
      replace (Z.to_nat (len l)) with (length l) by (unfold len; lia).
      by rewrite Helems. }
    cbn [app]. rewrite decode_cons, code_map32, read_uint_4 by lia. simpl.
    replace (Z.to_nat (len l)) with (length l) by (unfold len; lia).
    by rewrite Helems.
  - destruct Hwf. by apply decode_encode_ext.
Qed.

Lemma headers_nonempty (n : Z) :
  (1 ≤ length (encode_int n))%nat ∧ (1 ≤ length (str_header n))%nat
  ∧ (1 ≤ length (bin_header n))%nat ∧ (1 ≤ length (array_header n))%nat
  ∧ (1 ≤ length (map_header n))%nat ∧ (1 ≤ length (ext_header n))%nat.
Proof.
  unfold encode_int, str_header, bin_header, array_header, map_header, ext_header.
  repeat split; repeat case_match; simpl; lia.
Qed.

Lemma depth_le_length (n : nat) : ∀ v,
  (depth v ≤ n)%nat → (depth v ≤ length (encode v))%nat.
Proof.
  induction n as [|n IH]; intros v Hd; [pose proof (depth_pos v); lia|].
  destruct v as [|[|]|z|f|f|s|b|l|l|ty data]; cbn [encode depth];
    rewrite ?length_app; try (simpl; lia).
  - apply (headers_nonempty z).
  - pose proof (headers_nonempty (len (list_byte_of_string s))). lia.
  - pose proof (headers_nonempty (len b)). lia.
  - apply depth_array in Hd.
    assert (fold_right (λ x d, Nat.max (depth x) d) 0%nat l
            ≤ length (flat_map encode l))%nat.
    { induction Hd as [|x l Hx Hl IHl]; simpl; [lia|].
      rewrite length_app. specialize (IH x Hx). lia. }
    pose proof (headers_nonempty (len l)) as (_ & _ & _ & Hh & _). lia.
  - apply depth_map in Hd.
    assert (fold_right (λ (kv : value * value) d,
              let (k, x) := kv in Nat.max (depth k) (Nat.max (depth x) d)) 0%nat l
            ≤ length (flat_map (λ kv : value * value,
                                  let (k, x) := kv in encode k ++ encode x) l))%nat.
    { induction Hd as [|[k x] l [Hk Hx] Hl IHl]; simpl; [lia|].
      rewrite !length_app. simpl in Hk, Hx.
      pose proof (IH k Hk). pose proof (IH x Hx). lia. }
    pose proof (headers_nonempty (len l)) as (_ & _ & _ & _ & Hh & _). lia.
Qed.

(** The same for the decoder with its own bound on the depth. *)
Theorem decode_value_encode (v : value) (rest : bytes) :
  wf_value v → decode_value (encode v ++ rest) = Parsed v rest.
Proof.
  intros Hwf. unfold decode_value. apply decode_encode; [done|].
  pose proof (depth_le_length (depth v) v ltac:(lia)). rewrite length_app. lia.
Qed.
End MsgpackRoundtrip.

(** ** The structs read back *)

Module StructFacts.
Import Msgpack MsgpackGo Wf MsgpackRoundtrip.

Lemma bind_Ok {A B} (a : A) (k : A → res B) : (Ok a ≫= k) = k a.
Proof. reflexivity. Qed.

Lemma bind_id {A} (r : res A) : (r ≫= Ok) = r.
Proof. by destruct r. Qed.

Lemma traverse_ok {A B} (dec : A → res B) (f : B → A) (l : list B) :
  Forall (λ x, dec (f x) = Ok x) l → traverse dec (f <$> l) = Ok l.
Proof.
  induction 1 as [|x l Hx Hl IH]; [done|].
  rewrite fmap_cons. cbn [traverse]. rewrite Hx. rewrite bind_Ok.
  by rewrite IH.
Qed.

Lemma struct_entries_string_map (names : list string) (l : list (string * value)) :
  struct_entries names (string_map l) = Ok l.
Proof.
  unfold string_map. cbn [struct_entries]. apply traverse_ok.
  apply Forall_forall. by intros [k v] _.
Qed.

Lemma field_absent {A} (name : string) (dec : value → res A) (es : list (string * value)) :
  ∀ cur, name ∉ es.*1 → field name dec cur es = Ok cur.
Proof.
  induction es as [|[k v] es IH]; intros cur Hn; [done|].
  cbn [field]. rewrite fmap_cons, not_elem_of_cons in Hn. destruct Hn as [Hk Hn].
  rewrite bool_decide_eq_false_2 by (simpl in Hk; congruence). by apply IH.
Qed.

Lemma present_keys (t : fields) (name : string) : name ∈ (present t).*1 → name ∈ t.*1.
Proof.
  induction t as [|[k [v|]] t IH]; simpl; [done| |].
  - rewrite !elem_of_cons. intros [?|?]; [by left|right; by apply IH].
  - rewrite elem_of_cons. intros ?. right. by apply IH.
Qed.

(** A field is decoded from the object its table holds for it. *)
Lemma field_present {A} (name : string) (dec : value → res A) (zero : A) (t : fields) :
  NoDup t.*1 →
  field name dec zero (present t) = decode_field dec zero (table_get name t).
Proof.
  induction t as [|[k ov] t IH]; intros Hnd; [done|].
  rewrite fmap_cons in Hnd. apply NoDup_cons in Hnd as [Hk Hnd]. simpl in Hk.
  cbn [table_get]. destruct (String.eqb_spec k name) as [->|Hne].
  - assert (Habs : name ∉ (present t).*1) by (intros ?; by apply Hk, present_keys).
    destruct ov as [v|]; cbn [present field decode_field].
    + rewrite bool_decide_eq_true_2 by done.
      destruct (dec v) as [x|e]; [|done]. rewrite bind_Ok. by apply field_absent.
    + by apply field_absent.
  - destruct ov as [v|]; cbn [present field].
    + rewrite bool_decide_eq_false_2 by done. by apply IH.
    + by apply IH.
Qed.

Lemma wf_value_string_map (l : list (string * value)) :
  len l < 2 ^ 32 →
  Forall (λ kv : string * value, wf_string kv.1 ∧ wf_value kv.2) l →
  wf_value (string_map l).
Proof.
  intros Hlen Hall. unfold string_map. apply wf_map. split.
  - unfold len in *. by rewrite length_fmap.
  - apply Forall_fmap. eapply Forall_impl; [exact Hall|]. by intros [k v].
Qed.

Lemma present_length (t : fields) : (length (present t) ≤ length t)%nat.
Proof. induction t as [|[k [v|]] t IH]; simpl; lia. Qed.

Lemma wf_value_struct (t : fields) :
  len t < 2 ^ 32 → wf_fields t → wf_value (struct_value t).
Proof.
  intros Hlen Hall. apply wf_value_string_map.
  - pose proof (present_length t). unfold len in *. lia.
  - clear Hlen. induction Hall as [|[k [v|]] t [Hk Hv] Hall IH]; simpl; [done| |done].
    constructor; [done|exact IH].
Qed.

Lemma wf_value_array {A} (f : A → value) (l : list A) :
  len l < 2 ^ 32 → Forall (λ x, wf_value (f x)) l → wf_value (VArray (f <$> l)).
Proof.
  intros Hlen Hall. apply wf_array. split.
  - unfold len in *. by rewrite length_fmap.
  - by apply Forall_fmap.
Qed.
End StructFacts.

Module FieldFacts.
Import Msgpack MsgpackGo Wf MsgpackRoundtrip StructFacts.

Lemma decode_string (s : string) :
  decode_field as_string "" (if str_empty s then None else Some (VStr s)) = Ok s.
Proof. unfold str_empty. by case_bool_decide; subst. Qed.

Lemma signed64_int (z : Z) : wf_int z → signed64 z = z.
Proof. unfold wf_int, signed64. intros Hz. destruct (Z.ltb_spec z (2 ^ 63)); lia. Qed.

Lemma decode_int (z : Z) :
  wf_int z → decode_field as_int 0 (if z =? 0 then None else Some (VInt z)) = Ok z.
Proof.
  intros Hz. destruct (Z.eqb_spec z 0); [by subst|].
  cbn [decode_field as_int]. by rewrite signed64_int.
Qed.

Lemma decode_int_kept (z : Z) :
  wf_int z → decode_field as_int 0 (Some (VInt z)) = Ok z.
Proof. intros Hz. cbn [decode_field as_int]. by rewrite signed64_int. Qed.

Lemma float_eq_zero (f : float32) : float_eq f fzero = true → ∃ s, f = S754_zero s.
Proof.
  destruct f as [s|s| |s m e]; [by exists s| | |]; intros H; exfalso;
    try destruct s; by vm_compute in H.
Qed.

Lemma decode_float32 (f : float32) :
  wf_float32_omitempty f →
  decode_field as_float32 fzero (if float_eq f fzero then None else Some (VFloat32 f))
  = Ok f.
Proof.
  intros [_ Hneg]. destruct (float_eq f fzero) eqn:Heq; [|done].
  apply float_eq_zero in Heq as [[] ->]; done.
Qed.

Lemma decode_slice {A} (dec : value → res A) (f : A → value) (l : list A) :
  Forall (λ x, dec (f x) = Ok x) l →
  decode_field (as_slice dec) [] (if list_empty l then None else Some (VArray (f <$> l)))
  = Ok l.
Proof.
  intros Hall. destruct l as [|x l]; [done|].
  cbn [list_empty decode_field as_slice]. by apply traverse_ok.
Qed.

Lemma decode_strings (l : list string) :
  decode_field (as_slice as_string) []
    (if list_empty l then None else Some (strings_value l)) = Ok l.
Proof. apply decode_slice, Forall_forall. done. Qed.

Lemma foldl_insert (l : list (string * value)) : ∀ m0 : gmap string value,
  foldl (λ (m : gmap string value) (kv : string * value), <[kv.1 := kv.2]> m) m0 l
  = list_to_map (reverse l) ∪ m0.
Proof.
  induction l as [|[k v] l IH]; intros m0.
  - simpl. by rewrite (left_id_L ∅ (∪)).
  - cbn [foldl]. rewrite IH, reverse_cons, list_to_map_app. simpl.
    rewrite <- (assoc_L (∪)). f_equal.
    by rewrite insert_empty, <- insert_union_singleton_l.
Qed.

Lemma foldl_insert_map_to_list (m : gmap string value) :
  foldl (λ (m : gmap string value) (kv : string * value), <[kv.1 := kv.2]> m) ∅
        (map_to_list m) = m.
Proof.
  rewrite foldl_insert, (right_id_L ∅ (∪)). symmetry.
  apply list_to_map_flip. by rewrite reverse_Permutation.
Qed.

(** The values of [wf_interface] are objects of the format, and the
    decoder returns them as they are. *)
Lemma wf_interface_value (v : value) : wf_interface v → wf_value v.
Proof. by destruct v. Qed.

Lemma as_interface_wf (v : value) : wf_interface v → as_interface v = Ok v.
Proof. by destruct v. Qed.

Lemma as_custom_value (m : gmap string value) :
  wf_custom m → as_custom (custom_value m) = Ok m.
Proof.
  intros [_ Hall]. unfold custom_value, string_map. cbn [as_custom].
  rewrite (traverse_ok as_entry (λ kv : string * value, (VStr kv.1, kv.2))).
  - by rewrite bind_Ok, foldl_insert_map_to_list.
  - eapply Forall_impl; [exact Hall|]. intros [k v] [_ Hv]. unfold as_entry.
    cbn [fst snd as_string]. by rewrite bind_Ok, (as_interface_wf v Hv), bind_Ok.
Qed.

Lemma decode_custom (m : gmap string value) :
  wf_custom m →
  decode_field as_custom ∅
    (if bool_decide (m = ∅) then None else Some (custom_value m)) = Ok m.
Proof. intros Hm. case_bool_decide; [by subst|]. by apply as_custom_value. Qed.

Lemma wf_value_custom (m : gmap string value) : wf_custom m → wf_value (custom_value m).
Proof.
  intros [Hlen Hall]. apply wf_value_string_map; [done|].
  eapply Forall_impl; [exact Hall|]. intros [k v] [Hk Hv].
  split; [done|by apply wf_interface_value].
Qed.

(** Times *)

Lemma lor_shiftl_disjoint (n s : Z) :
  0 <= n → 0 <= s < 2 ^ 34 → Z.lor (Z.shiftl n 34) s = n * 2 ^ 34 + s.
Proof.
  intros Hn Hs. rewrite Z.shiftl_mul_pow2 by lia.
  rewrite <- Z.add_nocarry_lor; [done|].
  apply Z.bits_inj'. intros i Hi. rewrite Z.land_spec, Z.bits_0.
  destruct (Z.ltb_spec i 34).
  - rewrite Z.mul_pow2_bits_low by lia. done.
  - destruct (Z.eqb_spec s 0) as [->|]; [by rewrite Z.bits_0, andb_false_r|].
    rewrite (Z.bits_above_log2 s i), andb_false_r; [done|lia|].
    apply Z.log2_lt_pow2; [lia|]. eapply Z.lt_le_trans; [apply Hs|].
    apply Z.pow_le_mono_r; lia.
Qed.

Lemma as_time_encodeTime (t : Time) :
  wf_time t → as_time (VExt (-1) (encodeTime t)) = Ok (Some t).
Proof.
  destruct t as [sec nsec]. unfold wf_time, encodeTime. cbn [unix_sec unix_nsec].
  intros [Hn Hs].
  assert (Hmod : 0 <= sec mod 2 ^ 64 < 2 ^ 64) by (apply Z.mod_pos_bound; lia).
  destruct (Z.eqb_spec (Z.shiftr (sec mod 2 ^ 64) 34) 0) as [Hlow|Hhigh].
  - rewrite Z.shiftr_div_pow2 in Hlow by lia.
    assert (Hsmall : 0 <= sec mod 2 ^ 64 < 2 ^ 34).
    { split; [lia|]. apply Z.div_small_iff in Hlow; lia. }
    assert (Hsec : sec mod 2 ^ 64 = sec).
    { destruct (Z.ltb_spec sec 0).
      - rewrite <- (Z.mod_add sec 1 (2 ^ 64)) in Hsmall by lia.
        rewrite Z.mod_small in Hsmall by lia. lia.
      - apply Z.mod_small. lia. }
    rewrite Hsec in *. rewrite lor_shiftl_disjoint by lia.
    destruct (Z.eqb_spec (Z.shiftr (nsec * 2 ^ 34 + sec) 32) 0) as [H32|H32];
      rewrite Z.shiftr_div_pow2 in H32 by lia.
    + apply Z.div_small_iff in H32; [|lia].
      assert (nsec = 0) by nia. subst nsec.
      cbn [as_time]. rewrite length_be_bytes, be_value_be_bytes.
      rewrite Z.mod_small by (change (256 ^ Z.of_nat 4) with (2 ^ 32); lia).
      do 3 f_equal; lia.
    + cbn [as_time]. rewrite length_be_bytes, be_value_be_bytes. cbv zeta.
      rewrite (Z.mod_small _ (256 ^ _))
        by (change (256 ^ Z.of_nat 8) with (2 ^ 64); nia).
      change 17179869183 with (Z.ones 34). rewrite Z.land_ones by lia.
      rewrite Z.shiftr_div_pow2 by lia.
      rewrite Z.add_comm, Z.mod_add, Z.div_add by lia.
      rewrite Z.mod_small, Z.div_small by lia. done.
  - cbn [as_time]. rewrite length_app, !length_be_bytes. cbn [Nat.add].
    rewrite drop_app_length', take_app_length' by (by rewrite length_be_bytes).
    rewrite !be_value_be_bytes.
    change (256 ^ Z.of_nat 8) with (2 ^ 64). change (256 ^ Z.of_nat 4) with (2 ^ 32).
    rewrite Z.mod_mod by lia. rewrite (Z.mod_small nsec) by lia.
    do 3 f_equal. unfold signed64.
    destruct (Z.ltb_spec (sec mod 2 ^ 64) (2 ^ 63)).
    + destruct (Z.ltb_spec sec 0).
      * rewrite <- (Z.mod_add sec 1 (2 ^ 64)) in H by lia.
        rewrite Z.mod_small in H by lia. lia.
      * apply Z.mod_small. lia.
    + destruct (Z.ltb_spec sec 0).
      * rewrite <- (Z.mod_add sec 1 (2 ^ 64)) by lia.
        rewrite Z.mod_small by lia. lia.
      * rewrite Z.mod_small in H by lia. lia.
Qed.

Lemma decode_time (t : option Time) :
  wf_time_pointer t →
  decode_field as_time None (if time_empty t then None else Some (time_value t)) = Ok t.
Proof.
  destruct t as [t|]; [|done]. intros [Hwf Hne]. cbn [time_empty time_value].
  destruct (_ && _) eqn:Hz.
  - apply andb_true_iff in Hz as [Hs%Z.eqb_eq Hn%Z.eqb_eq].
    destruct Hne. destruct t as [sec nsec]. simpl in *. by subst.
  - apply as_time_encodeTime, Hwf.
Qed.

Lemma wf_value_time (t : option Time) : wf_value (time_value t).
Proof.
  destruct t as [t|]; [|done]. cbn [time_value wf_value]. split; [lia|].
  unfold encodeTime, len. repeat case_match;
    rewrite ?length_app, !length_be_bytes; simpl; lia.
Qed.

(** Nested structs *)

Lemma decode_struct {A} (of_value : value → res A) (zero x : A) (t : fields) :
  of_value (VMap []) = Ok zero →
  of_value (struct_value t) = Ok x →
  decode_field of_value zero (if struct_empty t then None else Some (struct_value t))
  = Ok x.
Proof.
  unfold struct_empty, struct_value. intros Hzero Hx.
  destruct (present t); [|done]. unfold string_map in Hx.
  rewrite fmap_nil in Hx. cbn [decode_field]. congruence.
Qed.

Lemma wf_value_strings (l : list string) : wf_strings l → wf_value (strings_value l).
Proof.
  intros [Hlen Hall]. apply wf_value_array; [done|].
  eapply Forall_impl; [exact Hall|]. done.
Qed.

Lemma wf_option (b : bool) (v : value) :
  wf_value v → from_option wf_value True (if b then None else Some v).
Proof. by destruct b. Qed.
End FieldFacts.

Module StructRoundtrip.
Import Msgpack MsgpackGo Wf MsgpackRoundtrip StructFacts FieldFacts.

Lemma wf_keep (name : string) (v : value) :
  wf_string name → wf_value v →
  wf_string (keep name v).1 ∧ from_option wf_value True (keep name v).2.
Proof. done. Qed.

Lemma wf_omitempty (name : string) (empty : bool) (v : value) :
  wf_string name → wf_value v →
  wf_string (omitempty name empty v).1
  ∧ from_option wf_value True (omitempty name empty v).2.
Proof. by destruct empty. Qed.

Lemma wf_value_float32 (f : float32) : wf_float32_omitempty f → wf_value (VFloat32 f).
Proof. by intros [? _]. Qed.

Lemma wf_value_int (z : Z) : wf_int z → wf_value (VInt z).
Proof. unfold wf_int. cbn [wf_value]. lia. Qed.

Lemma wf_value_floats (l : list float32) :
  len l < 2 ^ 32 → Forall is_float32 l → wf_value (VArray (VFloat32 <$> l)).
Proof. intros. by apply wf_value_array. Qed.

Lemma decode_floats (l : list float32) :
  decode_field (as_slice as_float32) []
    (if list_empty l then None else Some (VArray (VFloat32 <$> l))) = Ok l.
Proof. apply decode_slice, Forall_forall. done. Qed.

Create HintDb wf.
#[local] Hint Resolve wf_value_float32 wf_value_int wf_value_custom wf_value_strings
  wf_value_time wf_value_floats : wf.

Ltac wf_table :=
  apply wf_value_struct;
  [ by vm_compute
  | repeat (apply Forall_cons; split;
            [ first [apply wf_keep | apply wf_omitempty];
              [ by vm_compute | first [ assumption | by auto with wf | idtac ] ]
            | ]);
    try apply Forall_nil_2 ].

Ltac read_table fields :=
  unfold struct_value; rewrite struct_entries_string_map, bind_Ok;
  rewrite !field_present by (apply (bool_decide_unpack _); by vm_compute);
  lazy [table_get fields keep omitempty String.eqb Ascii.eqb Bool.eqb];
  rewrite ?decode_string, ?decode_strings, ?decode_floats;
  rewrite ?decode_int by assumption;
  rewrite ?decode_int_kept by assumption;
  rewrite ?decode_custom by assumption;
  rewrite ?decode_float32 by assumption;
  rewrite ?decode_time by assumption.

Lemma Entity_roundtrip (e : Entity) :
  wf_Entity e → wf_value (Entity_value e) ∧ Entity_of_value (Entity_value e) = Ok e.
Proof.
  intros (Hname & Htype & Hconf & Hstart & Hend). split.
  - unfold Entity_value. wf_table.
  - unfold Entity_of_value, Entity_value. read_table Entity_fields.
    by destruct e.
Qed.

Lemma Link_roundtrip (l : Link) :
  wf_Link l → wf_value (Link_value l) ∧ Link_of_value (Link_value l) = Ok l.
Proof.
  intros (Htarget & Htype & Hweight & Hmeta). split.
  - unfold Link_value. wf_table.
  - unfold Link_of_value, Link_value. read_table Link_fields.
    by destruct l.
Qed.

Lemma NodeMeta_roundtrip (m : NodeMeta) :
  wf_NodeMeta m →
  wf_value (NodeMeta_value m) ∧ NodeMeta_of_value (NodeMeta_value m) = Ok m.
Proof.
  intros (Hsource & Hcreated & Hupdated & Hconf & Himp & Hcount & Hcustom). split.
  - unfold NodeMeta_value. wf_table.
  - unfold NodeMeta_of_value, NodeMeta_value. read_table NodeMeta_fields.
    by destruct m.
Qed.

Lemma SchemaInfo_roundtrip (s : SchemaInfo) :
  wf_SchemaInfo s →
  wf_value (SchemaInfo_value s) ∧ SchemaInfo_of_value (SchemaInfo_value s) = Ok s.
Proof.
  intros (Hversion & Hmodel & Hdim & Hfeatures). split.
  - unfold SchemaInfo_value. wf_table.
  - unfold SchemaInfo_of_value, SchemaInfo_value. read_table SchemaInfo_fields.
    by destruct s.
Qed.

Lemma SecurityInfo_roundtrip (s : SecurityInfo) :
  wf_SecurityInfo s →
  wf_value (SecurityInfo_value s)
  ∧ SecurityInfo_of_value (SecurityInfo_value s) = Ok s.
Proof.
  intros (Hintegrity & Hencryption & Hkey). split.
  - unfold SecurityInfo_value. wf_table.
  - unfold SecurityInfo_of_value, SecurityInfo_value. read_table SecurityInfo_fields.
    by destruct s.
Qed.

Lemma FileMeta_roundtrip (m : FileMeta) :
  wf_FileMeta m →
  wf_value (FileMeta_value m) ∧ FileMeta_of_value (FileMeta_value m) = Ok m.
Proof.
  intros (Htitle & Hdescr & Hauthor & Hlicense & Htags & Hcustom). split.
  - unfold FileMeta_value. wf_table.
  - unfold FileMeta_of_value, FileMeta_value. read_table FileMeta_fields.
    by destruct m.
Qed.

Lemma structs_roundtrip {A} (to_value : A → value) (of_value : value → res A)
    (wf : A → Prop) (l : list A) :
  (∀ x, wf x → wf_value (to_value x) ∧ of_value (to_value x) = Ok x) →
  len l < 2 ^ 32 → Forall wf l →
  wf_value (VArray (to_value <$> l))
  ∧ decode_field (as_slice of_value) []
      (if list_empty l then None else Some (VArray (to_value <$> l))) = Ok l.
Proof.
  intros Hrt Hlen Hall. split.
  - apply wf_value_array; [done|]. eapply Forall_impl; [exact Hall|].
    intros x Hx. by apply Hrt.
  - apply decode_slice. eapply Forall_impl; [exact Hall|].
    intros x Hx. by apply Hrt.
Qed.

Lemma MemoryNode_roundtrip (n : MemoryNode) :
  wf_MemoryNode n →
  wf_value (MemoryNode_value n) ∧ MemoryNode_of_value (MemoryNode_value n) = Ok n.
Proof.
  intros (Hid & Hcontent & [Hemb_len Hemb] & Htags & [Hent_len Hent] & [Hlnk_len Hlnk]
          & Hmeta & Hchildren & Hparent).
  destruct (structs_roundtrip _ _ _ _ Entity_roundtrip Hent_len Hent) as [Hent_wf Hent_rt].
  destruct (structs_roundtrip _ _ _ _ Link_roundtrip Hlnk_len Hlnk) as [Hlnk_wf Hlnk_rt].
  destruct (NodeMeta_roundtrip _ Hmeta) as [Hmeta_wf Hmeta_rt].
  split.
  - unfold MemoryNode_value. wf_table.
  - unfold MemoryNode_of_value, MemoryNode_value. read_table MemoryNode_fields.
    rewrite Hent_rt, Hlnk_rt.
    rewrite (decode_struct NodeMeta_of_value zero_NodeMeta (Metadata n)) by done.
    by destruct n.
Qed.

Lemma EngramHeader_roundtrip (h : EngramHeader) :
  wf_EngramHeader h →
  wf_value (EngramHeader_value h)
  ∧ EngramHeader_of_value (EngramHeader_value h) = Ok h.
Proof.
  intros (Hversion & Hcreated & Hmodified & Hcount & Hschema & Hsecurity & Hmeta).
  destruct (SchemaInfo_roundtrip _ Hschema) as [Hschema_wf Hschema_rt].
  destruct (SecurityInfo_roundtrip _ Hsecurity) as [Hsecurity_wf Hsecurity_rt].
  destruct (FileMeta_roundtrip _ Hmeta) as [Hmeta_wf Hmeta_rt].
  split.
  - unfold EngramHeader_value. wf_table.
  - unfold EngramHeader_of_value, EngramHeader_value. read_table EngramHeader_fields.
    rewrite (decode_struct SchemaInfo_of_value zero_SchemaInfo (Schema h)) by done.
    rewrite (decode_struct SecurityInfo_of_value zero_SecurityInfo (Security h)) by done.
    rewrite (decode_struct FileMeta_of_value zero_FileMeta (Header_Metadata h)) by done.
    by destruct h.
Qed.

Lemma nodes_roundtrip (ns : list MemoryNode) :
  wf_nodes ns →
  wf_value (nodes_value ns) ∧ nodes_of_value (nodes_value ns) = Ok ns.
Proof.
  intros [Hlen Hall]. destruct ns as [|n ns]; [done|].
  destruct (structs_roundtrip _ _ _ _ MemoryNode_roundtrip Hlen Hall) as [Hwf Hrt].
  split; [exact Hwf|exact Hrt].
Qed.
End StructRoundtrip.

(** ** The library as modelled reads back what it writes *)

Module LibraryFacts.
Import Msgpack MsgpackGo Wf MsgpackRoundtrip StructFacts StructRoundtrip.

Lemma length_list_byte_of_string (s : string) :
  length (list_byte_of_string s) = String.length s.
Proof.
  unfold list_byte_of_string. rewrite length_map.
  induction s as [|c s IH]; simpl; [done|]. by rewrite IH.
Qed.

Lemma length_hex_EncodeToString (src : bytes) :
  String.length (hex_EncodeToString src) = (2 * length src)%nat.
Proof. induction src as [|b src IH]; simpl; [done|]. rewrite IH. lia. Qed.

Lemma length_Sum256 (data : bytes) : length (SHA256.Sum256 data) = 32%nat.
Proof. unfold SHA256.Sum256. cbv zeta. by rewrite !length_app, !length_be_bytes. Qed.

Lemma wf_payload_integrity (payloadBytes : bytes) :
  wf_string (payload_integrity payloadBytes).
Proof.
  unfold wf_string, payload_integrity, len.
  by rewrite length_list_byte_of_string, length_hex_EncodeToString, length_Sum256.
Qed.

Lemma wf_updated_header (now : string) (file : EngramFile) (integrity : string) :
  wf_file now file → wf_string integrity →
  wf_EngramHeader (updated_header now file integrity).
Proof.
  intros (Hnow & (Hv & Hc & Hm & Hn & Hschema & (Hi & He & Hk) & Hmeta) & [Hlen _]) Hint.
  destruct (updated_header_fields now file integrity)
    as (HN & HM & HI & HC & HV & HS & HE & HK & HMeta).
  unfold wf_EngramHeader, wf_SecurityInfo.
  rewrite HN, HM, HC, HV, HS, HMeta.
  replace (Security (updated_header now file integrity))
    with {| Integrity := integrity; Encryption := Encryption (Security (Header file));
            KeyID := KeyID (Security (Header file)) |}
    by (rewrite <- HI, <- HE, <- HK; by destruct (Security _)).
  cbn [Integrity Encryption KeyID]. clear HN HM HI HC HV HS HE HK HMeta.
  split; [case_bool_decide; [by vm_compute|done]|].
  split; [by case_bool_decide|]. split; [done|].
  split; [unfold wf_int, len in *; lia|]. done.
Qed.

(** [decoder.Decode] on the bytes of [msgpack.Marshal], followed by
    anything: the value written, and the reader left at its end. *)
Lemma Decode_Marshal {A} (to_value : A → value) (of_value : value → res A)
    (x : A) (rest : bytes) :
  wf_value (to_value x) → of_value (to_value x) = Ok x →
  Decode of_value (encode (to_value x) ++ rest)
  = Ok (x, length (encode (to_value x))).
Proof.
  intros Hwf Hrt. unfold Decode. rewrite decode_value_encode by done.
  rewrite Hrt, bind_Ok, length_app. do 2 f_equal. lia.
Qed.
End LibraryFacts.

(** The premises of the round trip hold of the library as modelled, for
    every file within the ranges of the format. *)
Lemma msgpack_v5_reads_back (now : string) (file : EngramFile) :
  Wf.wf_file now file →
  let payloadBytes := Msgpack.encode (MsgpackGo.nodes_value (Nodes file)) in
  let header := updated_header now file (payload_integrity payloadBytes) in
  let headerBytes := Msgpack.encode (MsgpackGo.EngramHeader_value header) in
  @Marshal_nodes msgpack_v5 (Nodes file) = Ok payloadBytes
  ∧ @Marshal_header msgpack_v5 header = Ok headerBytes
  ∧ @Decode_header msgpack_v5 (headerBytes ++ payloadBytes)
    = Ok (header, length headerBytes)
  ∧ @Decode_nodes msgpack_v5 payloadBytes = Ok (Nodes file, length payloadBytes).
Proof.
  intros Hwf payloadBytes header headerBytes.
  split; [done|]. split; [done|].
  pose proof (LibraryFacts.wf_updated_header now file _ Hwf
                (LibraryFacts.wf_payload_integrity payloadBytes)) as Hheader.
  apply StructRoundtrip.EngramHeader_roundtrip in Hheader as [Hhwf Hhrt].
  destruct Hwf as (_ & _ & Hnodes).
  apply StructRoundtrip.nodes_roundtrip in Hnodes as [Hnwf Hnrt].
  split.
  - by apply (LibraryFacts.Decode_Marshal MsgpackGo.EngramHeader_value
                MsgpackGo.EngramHeader_of_value).
  - cbn [Decode_nodes msgpack_v5]. rewrite <- (app_nil_r payloadBytes) at 1.
    by apply (LibraryFacts.Decode_Marshal MsgpackGo.nodes_value MsgpackGo.nodes_of_value).
Qed.




(** ** Navigation: children, roots and filters *)

Section navigation_facts.
Implicit Types (ns rest : list MemoryNode) (t : MemoryTree) (p : string).

(** The pointers, from position [i] on, to the nodes satisfying a
    predicate. *)
Lemma filter_imap_cons (pred : MemoryNode → bool) (i : nat) n rest :
  filter (λ q : nat * MemoryNode, pred q.2 = true)
         (imap (λ k m, ((i + k)%nat, m)) (n :: rest))
  = (if pred n then [(i, n)] else [])
    ++ filter (λ q : nat * MemoryNode, pred q.2 = true)
              (imap (λ k m, ((S i + k)%nat, m)) rest).
Proof.
  cbn [imap]. rewrite filter_cons. cbn [snd].
  rewrite (imap_ext _ (λ k m, ((S i + k)%nat, m)))
    by (intros k x _; simpl; f_equal; lia).
  replace (i + 0)%nat with i by lia.
  destruct (pred n); [by rewrite decide_True|by rewrite decide_False].
Qed.

Lemma elem_of_filter_imap (pred : MemoryNode → bool) rest : ∀ i (j : nat),
  j ∈ (filter (λ q : nat * MemoryNode, pred q.2 = true)
              (imap (λ k m, ((i + k)%nat, m)) rest)).*1
  ↔ ∃ k n, j = (i + k)%nat ∧ rest !! k = Some n ∧ pred n = true.
Proof.
  induction rest as [|n rest IH]; intros i j.
  - simpl. split; [intros H; by apply elem_of_nil in H|]. by intros (k & n & _ & ? & _).
  - rewrite filter_imap_cons, fmap_app, elem_of_app, IH. split.
    + intros [Hj|(k & m & -> & Hk & Hm)].
      * destruct (pred n) eqn:Hn; [|by apply elem_of_nil in Hj].
        apply list_elem_of_singleton in Hj as ->. exists 0%nat, n.
        split; [simpl; lia|done].
      * exists (S k), m. split; [lia|done].
    + intros ([|k] & m & -> & Hk & Hm); simpl in Hk.
      * injection Hk as ->. left. rewrite Hm. simpl.
        apply list_elem_of_singleton. lia.
      * right. exists k, m. split; [lia|done].
Qed.

Lemma sorted_filter_imap (pred : MemoryNode → bool) rest : ∀ i,
  StronglySorted lt
    (filter (λ q : nat * MemoryNode, pred q.2 = true)
            (imap (λ k m, ((i + k)%nat, m)) rest)).*1.
Proof.
  induction rest as [|n rest IH]; intros i; [constructor|].
  rewrite filter_imap_cons, fmap_app.
  assert (Hlater : Forall (λ j, (i < j)%nat)
    (filter (λ q : nat * MemoryNode, pred q.2 = true)
            (imap (λ k m, ((S i + k)%nat, m)) rest)).*1).
  { apply Forall_forall. intros j Hj. apply elem_of_filter_imap in Hj as (k & m & -> & _).
    lia. }
  destruct (pred n); cbn [fmap list_fmap app fst];
    [constructor; [apply (IH (S i))|done]|apply (IH (S i))].
Qed.

(** The children table after indexing [rest] from position [i]. *)
Lemma index_from_children rest : ∀ i t p,
  default [] (children (index_from i rest t) !! p)
  = default [] (children t !! p)
    ++ (if bool_decide (p = "") then []
        else (filter (λ q : nat * MemoryNode, bool_decide (ParentID q.2 = p) = true)
                     (imap (λ k m, ((i + k)%nat, m)) rest)).*1).
Proof.
  induction rest as [|n rest IH]; intros i t p.
  - simpl. case_bool_decide; by rewrite app_nil_r.
  - cbn [index_from]. rewrite IH. cbn [index_node children].
    pose proof (filter_imap_cons (λ m, bool_decide (ParentID m = p)) i n rest) as Hcons.
    cbv beta in Hcons. rewrite Hcons, fmap_app. clear Hcons.
    destruct (decide (ParentID n = "")) as [Hroot|Hchild].
    + case_bool_decide as Hp; [done|].
      rewrite (bool_decide_eq_false_2 (ParentID n = p)) by congruence. done.
    + unfold bucket_append. case_bool_decide as Hp.
      * subst p. by rewrite lookup_insert_ne.
      * case_bool_decide as Hn.
        -- subst p. rewrite lookup_insert_eq. simpl. by rewrite <- app_assoc.
        -- by rewrite lookup_insert_ne.
Qed.
End navigation_facts.

(** X1. [GetChildren] lists, in the order of the collection, the nodes
    whose [ParentID] is the given id, which is what [Filter] returns for
    that test; for the empty id it returns nothing, since nodes without
    a parent are not entered in the table. *)
Theorem GetChildren_filters_by_parent (ns : list MemoryNode) (parentID : string) :
  let t := NewMemoryTree ns in
  GetChildren t parentID
  = if bool_decide (parentID = "") then []
    else Filter t (λ n, bool_decide (ParentID n = parentID)).
Proof.
  intros t. unfold GetChildren, Filter, t, NewMemoryTree.
  rewrite index_from_children, index_from_nodes. simpl. rewrite lookup_empty. simpl.
  case_bool_decide; [done|]. done.
Qed.

Lemma StronglySorted_lt_NoDup (l : list nat) : StronglySorted lt l → NoDup l.
Proof.
  induction 1 as [|x l Hs IH Hx]; constructor; [|done].
  intros Hin. rewrite Forall_forall in Hx. specialize (Hx _ Hin). lia.
Qed.

(** X2. The index reaches every node once: a node with an empty
    [ParentID] is among the roots, any other node is among the children
    of its [ParentID] (whether or not a node with that id exists) and
    nowhere else; the pointers returned are pairwise distinct and point
    into the collection. *)
Theorem roots_and_children_partition (ns : list MemoryNode) :
  let t := NewMemoryTree ns in
  (∀ i, i ∈ GetRoots t ↔ ∃ n, ns !! i = Some n ∧ ParentID n = "")
  ∧ (∀ i parentID, i ∈ GetChildren t parentID
                   ↔ ∃ n, ns !! i = Some n ∧ ParentID n = parentID ∧ parentID ≠ "")
  ∧ NoDup (GetRoots t)
  ∧ (∀ parentID, NoDup (GetChildren t parentID)).
Proof.
  intros t.
  assert (Hroots : GetRoots t
    = (filter (λ q : nat * MemoryNode, bool_decide (ParentID q.2 = "") = true)
              (imap (λ k m, ((0 + k)%nat, m)) ns)).*1).
  { unfold GetRoots, t, NewMemoryTree. rewrite index_from_nodes. simpl. f_equal.
    apply list_filter_iff. intros q. by rewrite bool_decide_eq_true. }
  assert (Hchildren : ∀ p, GetChildren t p
    = if bool_decide (p = "") then []
      else (filter (λ q : nat * MemoryNode, bool_decide (ParentID q.2 = p) = true)
                   (imap (λ k m, ((0 + k)%nat, m)) ns)).*1).
  { intros p. unfold GetChildren, t, NewMemoryTree. rewrite index_from_children.
    simpl. by rewrite lookup_empty. }
  split; [|split; [|split]].
  - intros i. rewrite Hroots.
    pose proof (elem_of_filter_imap (λ m, bool_decide (ParentID m = "")) ns 0 i) as Hin.
    cbv beta in Hin. rewrite Hin. clear Hin. split.
    + intros (k & n & -> & Hk & Hp%bool_decide_eq_true). by exists n.
    + intros (n & Hi & Hp). exists i, n. by rewrite bool_decide_eq_true.
  - intros i p. rewrite Hchildren. case_bool_decide as Hp.
    + split; [intros H; by apply elem_of_nil in H|]. by intros (n & _ & _ & ?).
    + pose proof (elem_of_filter_imap (λ m, bool_decide (ParentID m = p)) ns 0 i) as Hin.
      cbv beta in Hin. rewrite Hin. clear Hin. split.
      * intros (k & n & -> & Hk & Hn%bool_decide_eq_true). by exists n.
      * intros (n & Hi & Hn & _). exists i, n. by rewrite bool_decide_eq_true.
  - rewrite Hroots. apply StronglySorted_lt_NoDup.
    pose proof (sorted_filter_imap (λ m, bool_decide (ParentID m = "")) ns 0) as Hs.
    exact Hs.
  - intros p. rewrite Hchildren. case_bool_decide; [constructor|].
    apply StronglySorted_lt_NoDup.
    pose proof (sorted_filter_imap (λ m, bool_decide (ParentID m = p)) ns 0) as Hs.
    exact Hs.
Qed.

(** X3. [Filter] returns, in the order of the collection and each once,
    the pointers to the nodes the predicate accepts; [GetRoots] is the
    filter of the nodes with an empty [ParentID]. *)
Theorem Filter_in_collection_order (t : MemoryTree) (predicate : MemoryNode → bool) :
  (∀ i, i ∈ Filter t predicate ↔ ∃ n, deref t i = Some n ∧ predicate n = true)
  ∧ StronglySorted lt (Filter t predicate)
  ∧ GetRoots t = Filter t (λ n, bool_decide (ParentID n = "")).
Proof.
  split; [|split].
  - intros i. unfold Filter, deref.
    change (imap pair (nodes t)) with (imap (λ k m, ((0 + k)%nat, m)) (nodes t)).
    rewrite elem_of_filter_imap. split.
    + intros (k & n & -> & ?). by exists n.
    + intros (n & ?). by exists i, n.
  - unfold Filter.
    change (imap pair (nodes t)) with (imap (λ k m, ((0 + k)%nat, m)) (nodes t)).
    apply sorted_filter_imap.
  - unfold GetRoots, Filter. f_equal. apply list_filter_iff. intros q.
    by rewrite bool_decide_eq_true.
Qed.

(** The pointers a tag bucket holds, and their order. *)
Lemma elem_of_tag_bucket (tag : string) (rest : list MemoryNode) : ∀ (i j : nat),
  j ∈ mjoin (imap (λ k n, replicate (occurrences tag (Tags n)) (i + k)%nat) rest)
  ↔ ∃ k n, j = (i + k)%nat ∧ rest !! k = Some n ∧ tag ∈ Tags n.
Proof.
  induction rest as [|n rest IH]; intros i j.
  - simpl. split; [intros H; by apply elem_of_nil in H|]. by intros (k & n & _ & ? & _).
  - cbn [imap mjoin list_join].
    rewrite (imap_ext _ (λ k n, replicate (occurrences tag (Tags n)) (S i + k)%nat))
      by (intros k x _; simpl; f_equal; lia).
    rewrite elem_of_app, IH, elem_of_replicate. split.
    + intros [[-> Hocc]|(k & m & -> & Hk & Hm)].
      * exists 0%nat, n. split; [done|]. split; [done|].
        destruct (decide (tag ∈ Tags n)) as [|Hno]; [done|].
        apply occurrences_0 in Hno. lia.
      * exists (S k), m. split; [lia|done].
    + intros ([|k] & m & -> & Hk & Hm); simpl in Hk.
      * injection Hk as ->. left. split; [done|]. intros Hocc.
        by apply occurrences_0 in Hocc.
      * right. exists k, m. split; [lia|done].
Qed.

Lemma sorted_tag_bucket (tag : string) (rest : list MemoryNode) : ∀ (i : nat),
  StronglySorted le
    (mjoin (imap (λ k n, replicate (occurrences tag (Tags n)) (i + k)%nat) rest)).
Proof.
  induction rest as [|n rest IH]; intros i; [constructor|].
  cbn [imap mjoin list_join].
  rewrite (imap_ext _ (λ k n, replicate (occurrences tag (Tags n)) (S i + k)%nat))
    by (intros k x _; simpl; f_equal; lia).
  apply StronglySorted_app_2; [| |apply IH].
  - intros x y Hx Hy. apply elem_of_replicate in Hx as [-> _].
    apply elem_of_tag_bucket in Hy as (k & m & -> & _). lia.
  - generalize (occurrences tag (Tags n)) as c. intros c.
    induction c as [|c IHc]; simpl; [constructor|]. constructor; [done|].
    apply Forall_forall. intros x Hx. apply elem_of_replicate in Hx as [-> _]. lia.
Qed.

(** X4. [GetByTag] returns pointers into the collection, in the order of
    the collection, to exactly the nodes that list the tag. *)
Theorem GetByTag_in_collection_order (ns : list MemoryNode) (tag : string) :
  let t := NewMemoryTree ns in
  (∀ i, i ∈ GetByTag t tag ↔ ∃ n, deref t i = Some n ∧ tag ∈ Tags n)
  ∧ StronglySorted le (GetByTag t tag).
Proof.
  intros t.
  assert (Hb : GetByTag t tag
               = mjoin (imap (λ k n, replicate (occurrences tag (Tags n)) (0 + k)%nat) ns)).
  { unfold GetByTag, t, NewMemoryTree. rewrite index_from_byTag. simpl.
    by rewrite lookup_empty. }
  assert (Hnodes : nodes t = ns) by (unfold t, NewMemoryTree; by rewrite index_from_nodes).
  rewrite Hb. split; [|apply sorted_tag_bucket].
  intros i. unfold deref. rewrite Hnodes, elem_of_tag_bucket. split.
  - intros (k & n & -> & ?). by exists n.
  - intros (n & ?). by exists i, n.
Qed.

(** X5. [GetTags] lists, in increasing byte order, exactly the tags that
    some node carries, which are the tags whose [GetByTag] is not
    empty. *)
Theorem GetTags_lists_carried_tags (ns : list MemoryNode) :
  let t := NewMemoryTree ns in
  StronglySorted String.le (GetTags t)
  ∧ (∀ tag, tag ∈ GetTags t ↔ ∃ n, n ∈ ns ∧ tag ∈ Tags n)
  ∧ (∀ tag, tag ∈ GetTags t ↔ GetByTag t tag ≠ []).
Proof.
  intros t.
  assert (Hd : ∀ tag, is_Some (byTag t !! tag) ↔ ∃ n, n ∈ ns ∧ tag ∈ Tags n).
  { intros tag. unfold t, NewMemoryTree. rewrite index_from_byTag_dom. simpl.
    rewrite lookup_empty. split; [|by right]. intros [[? ?]|?]; done. }
  assert (Hb : ∀ tag, GetByTag t tag
               = mjoin (imap (λ k n, replicate (occurrences tag (Tags n)) (0 + k)%nat) ns)).
  { intros tag. unfold GetByTag, t, NewMemoryTree. rewrite index_from_byTag. simpl.
    by rewrite lookup_empty. }
  split; [apply Sorted_GetTags|]. split.
  - intros tag. by rewrite elem_of_GetTags, Hd.
  - intros tag. rewrite elem_of_GetTags, Hd. split.
    + intros (n & Hn & Htag) Hempty.
      apply list_elem_of_lookup in Hn as [i Hi].
      assert (Hin : i ∈ GetByTag t tag).
      { rewrite Hb. apply elem_of_tag_bucket. by exists i, n. }
      rewrite Hempty in Hin. by apply elem_of_nil in Hin.
    + intros Hne. destruct (GetByTag t tag) as [|i l] eqn:Hl; [done|].
      assert (Hin : i ∈ GetByTag t tag) by (rewrite Hl; left).
      rewrite Hb in Hin. apply elem_of_tag_bucket in Hin as (k & n & _ & Hk & Htag).
      exists n. split; [|done]. apply list_elem_of_lookup. eauto.
Qed.

(** ** Text search *)

Lemma strings_HasPrefix_app (s prefix : string) :
  strings_HasPrefix s prefix = true ↔ ∃ post, s = (prefix +:+ post)%string.
Proof.
  revert s. induction prefix as [|c p IH]; intros s; simpl.
  - split; [intros _; exists s; reflexivity|done].
  - destruct s as [|d s]; [split; [done|by intros [? ?]]|].
    rewrite andb_true_iff, Ascii.eqb_eq, IH. split.
    + intros [-> [post ->]]. by exists post.
    + intros [post [= -> ->]]. split; [done|by exists post].
Qed.

(** [strings.Contains(s, substr)] reports whether [s] is [substr]
    between two strings. *)
Lemma strings_Contains_spec (s substr : string) :
  strings_Contains s substr = true
  ↔ ∃ pre post, s = (pre +:+ substr +:+ post)%string.
Proof.
  induction s as [|d s IH]; cbn [strings_Contains]; rewrite orb_true_iff.
  - rewrite strings_HasPrefix_app. split.
    + intros [[post ->]|?]; [|done]. by exists ""%string, post.
    + intros (pre & post & H). left. destruct pre; [by exists post|done].
  - rewrite strings_HasPrefix_app, IH. split.
    + intros [[post ->]|(pre & post & ->)]; [by exists ""%string, post|].
      by exists (String d pre), post.
    + intros ([|c pre] & post & H); [left; by exists post|].
      right. injection H as -> ->. by exists pre, post.
Qed.

Lemma strings_Contains_empty (s : string) : strings_Contains s "" = true.
Proof. by destruct s. Qed.

(** The loop with its early exit, against the filter of the whole
    collection. *)
Lemma content_matches_from_spec (ToLower : string → string) (query : string) (limit : Z)
    (rest : list MemoryNode) : ∀ (i : nat) (matches : list nat),
  ¬ (0 < limit ∧ limit <= len matches) →
  content_matches_from ToLower query limit i rest matches
  = let all := matches
               ++ (filter (λ q : nat * MemoryNode,
                             strings_Contains (ToLower (Content q.2)) query = true)
                          (imap (λ k m, ((i + k)%nat, m)) rest)).*1 in
    if 0 <? limit then take (Z.to_nat limit) all else all.
Proof.
  induction rest as [|n rest IH]; intros i matches Hroom; cbv zeta.
  - simpl. rewrite app_nil_r. destruct (Z.ltb_spec 0 limit); [|done].
    symmetry. apply take_ge. unfold len in Hroom. lia.
  - pose proof (filter_imap_cons
                  (λ m, strings_Contains (ToLower (Content m)) query) i n rest) as Hcons.
    cbv beta in Hcons. rewrite Hcons. clear Hcons. cbn [content_matches_from].
    destruct (strings_Contains (ToLower (Content n)) query); [|by apply IH].
    cbv zeta. cbn [fmap list_fmap app fst].
    set (later := (filter _ (imap _ rest)).*1).
    replace (matches ++ i :: later) with ((matches ++ [i]) ++ later)
      by (by rewrite <- (assoc_L (++))).
    destruct (Z.ltb_spec 0 limit) as [Hpos|Hnon]; cbn [andb].
    + destruct (Z.geb_spec (len (matches ++ [i])) limit) as [Hfull|Hmore].
      * unfold len in *. rewrite length_app in Hfull. simpl in Hfull.
        rewrite take_app_length'; [done|]. rewrite length_app. simpl. lia.
      * rewrite IH by lia. cbv zeta. destruct (Z.ltb_spec 0 limit); [done|lia].
    + rewrite IH by lia. cbv zeta. destruct (Z.ltb_spec 0 limit); [lia|done].
Qed.

(** X6. [SearchByContent] returns what [Filter] returns for the test
    "the lower-cased content contains the lower-cased query", cut to the
    first [limit] matches when [limit > 0]: leaving the loop early loses
    nothing but the later matches, and [limit <= 0] means no limit. *)
Theorem SearchByContent_is_truncated_Filter (ToLower : string → string) (t : MemoryTree)
    (query : string) (limit : Z) :
  let matches :=
    Filter t (λ n, strings_Contains (ToLower (Content n)) (ToLower query)) in
  SearchByContent ToLower t query limit
  = if 0 <? limit then take (Z.to_nat limit) matches else matches.
Proof.
  intros matches. unfold SearchByContent. cbv zeta.
  rewrite content_matches_from_spec by (unfold len; simpl; lia). done.
Qed.

Lemma filter_true_imap (pred : MemoryNode → bool) (rest : list MemoryNode) : ∀ (i : nat),
  (∀ n, n ∈ rest → pred n = true) →
  (filter (λ q : nat * MemoryNode, pred q.2 = true)
          (imap (λ k m, ((i + k)%nat, m)) rest)).*1 = seq i (length rest).
Proof.
  induction rest as [|n rest IH]; intros i Hall; [done|].
  rewrite filter_imap_cons, (Hall n) by left. cbn [fmap list_fmap app fst length seq].
  f_equal. apply (IH (S i)). intros m Hm. apply Hall. by right.
Qed.

(** X7. With an empty query every node matches: [SearchByContent]
    returns the pointers to the first [limit] nodes of the collection,
    and to all of them when [limit <= 0]. *)
Theorem SearchByContent_empty_query (ToLower : string → string) (t : MemoryTree)
    (limit : Z) :
  ToLower "" = "" →
  SearchByContent ToLower t "" limit
  = if 0 <? limit then take (Z.to_nat limit) (seq 0 (length (nodes t)))
    else seq 0 (length (nodes t)).
Proof.
  intros Hempty. unfold SearchByContent. cbv zeta. rewrite Hempty.
  rewrite content_matches_from_spec by (unfold len; simpl; lia). cbv zeta.
  pose proof (filter_true_imap (λ m, strings_Contains (ToLower (Content m)) "")
                (nodes t) 0 (λ n _, strings_Contains_empty _)) as Hall.
  cbv beta in Hall. rewrite Hall. done.
Qed.

Lemma SearchByContent_empty_query_witness :
  strings_ToLower "" = ""
  ∧ SearchByContent strings_ToLower (NewMemoryTree notes) "" 2 = [0; 1]%nat.
Proof.
  split; [reflexivity|].
  exact (SearchByContent_empty_query strings_ToLower (NewMemoryTree notes) 2 eq_refl).
Defined.

(** ** More on the cosine similarity *)

Lemma SFmul_comm (prec emax : Z) (x y : spec_float) :
  SFmul prec emax x y = SFmul prec emax y x.
Proof.
  destruct x as [sx|sx| |sx mx ex], y as [sy|sy| |sy my ey]; simpl;
    rewrite ?(xorb_comm sx sy); try done.
  by rewrite (Pos.mul_comm mx my), (Z.add_comm ex ey).
Qed.

Lemma accumulate_swap (a : list float32) : ∀ (b : list float32) (acc : accum),
  accumulate b a {| dotProduct := dotProduct acc; normA := normB acc; normB := normA acc |}
  = let r := accumulate a b acc in
    {| dotProduct := dotProduct r; normA := normB r; normB := normA r |}.
Proof.
  induction a as [|ai a IH]; intros [|bi b] acc; try done.
  cbn [accumulate]. cbv zeta. rewrite <- IH. f_equal.
  unfold accum_step, f64_mul. cbn [dotProduct normA normB].
  by rewrite (SFmul_comm _ _ (float64_of_float32 bi)).
Qed.

(** X8. The cosine similarity is symmetric: exchanging the two
    arguments gives the same [float32].  The floats here have a single
    NaN, so for a result that is NaN this says that the other one is
    NaN too, and nothing of its sign or payload; every other result is
    the same bit for bit. *)
Theorem cosineSimilarity_symmetric (a b : list float32) :
  cosineSimilarity a b = cosineSimilarity b a.
Proof.
  unfold cosineSimilarity.
  destruct (Nat.eqb_spec (length a) (length b)) as [Hlen|Hlen].
  - rewrite <- Hlen, Nat.eqb_refl. cbn [negb orb].
    destruct (length a =? 0)%nat; [done|]. cbv zeta.
    pose proof (accumulate_swap a b accum_zero) as Hswap. cbv zeta in Hswap.
    change {| dotProduct := dotProduct accum_zero; normA := normB accum_zero;
              normB := normA accum_zero |} with accum_zero in Hswap.
    rewrite Hswap. cbn [dotProduct normA normB]. unfold norm_product.
    cbn [normA normB]. rewrite orb_comm. unfold f64_mul.
    by rewrite (SFmul_comm _ _ (math_Sqrt (normB (accumulate a b accum_zero)))).
  - destruct (Nat.eqb_spec (length b) (length a)); [congruence|done].
Qed.

(** X9. A node whose embedding has another dimension than the query is
    not left out of [Search]: [cosineSimilarity] gives it the score 0,
    and with no limit it is among the results with that score, as if it
    were orthogonal to the query. *)
Theorem Search_keeps_other_dimensions (S : SliceSorter) (HS : SliceSorterSpec S)
    (t : MemoryTree) (queryEmbedding : list float32) (limit : Z) (i : nat)
    (n : MemoryNode) :
  queryEmbedding ≠ [] → limit <= 0 →
  deref t i = Some n → Embedding n ≠ [] →
  length (Embedding n) ≠ length queryEmbedding →
  {| Node := i; Score := fzero |} ∈ Search t queryEmbedding limit.
Proof.
  intros Hq Hlimit Hi Hemb Hdim. unfold Search.
  destruct queryEmbedding as [|q0 q]; [done|]. cbn [length Nat.eqb]. cbv zeta.
  destruct (Z.ltb_spec 0 limit); [lia|]. cbn [andb].
  rewrite sort_Slice_perm. apply score_from_spec.
  exists i, n. cbn [Node Score]. split; [done|]. split; [exact Hi|]. split; [done|].
  unfold cosineSimilarity.
  destruct (Nat.eqb_spec (length (q0 :: q)) (length (Embedding n))); [congruence|done].
Qed.

Lemma Search_keeps_other_dimensions_witness :
  let f := float32_of_Z in
  let t := NewMemoryTree [embedded_node "a" [f 1; f 0]; embedded_node "b" [f 1; f 0; f 0]] in
  {| Node := 1%nat; Score := fzero |} ∈ @Search insertion_sorter t [f 1; f 0] 0.
Proof.
  intros f t.
  apply (Search_keeps_other_dimensions insertion_sorter insertion_sorter_spec t
           [f 1; f 0] 0 1%nat (embedded_node "b" [f 1; f 0; f 0])).
  - done.
  - lia.
  - reflexivity.
  - done.
  - simpl. lia.
Defined.

(** ** More on the codec *)

(** Evaluation of a range condition on given data. *)
Ltac in_range :=
  repeat (hnf;
          match goal with
          | |- _ ∧ _ => split
          | |- True => exact I
          | |- Forall _ [] => apply Forall_nil_2
          | |- Forall _ (_ :: _) => apply Forall_cons_2
          | |- Forall _ ?l =>
              let l' := eval vm_compute in l in
              let E := fresh in
              assert (E : l = l') by (vm_compute; reflexivity); rewrite E; clear E
          | |- _ = _ => vm_compute; reflexivity
          | |- _ → False => let H := fresh in intros H; vm_compute in H; discriminate H
          end).


(** X10. What [NewStreamReader] reports on a bad start, and how it
    differs from [Decode]: an empty source is an end of file and a
    source of one to five bytes an unexpected end of file, both wrapped
    as a failure to read the magic bytes, where [Decode] answers
    [ErrInvalidMagic]; [ErrInvalidMagic] is returned exactly for six
    bytes or more that do not start with the magic bytes. *)
Theorem NewStreamReader_bad_start `{MsgpackLib} (r : bytes) :
  (NewStreamReader r = Err (Errorf "failed to read magic bytes" io_EOF) ↔ r = [])
  ∧ (NewStreamReader r = Err (Errorf "failed to read magic bytes" io_ErrUnexpectedEOF)
     ↔ (0 < length r < 6)%nat)
  ∧ (NewStreamReader r = Err ErrInvalidMagic
     ↔ (6 ≤ length r)%nat ∧ take 6 r ≠ MagicBytes)
  ∧ ((length r < 6)%nat → Decode r = Err ErrInvalidMagic).
Proof.
  assert (Hstart : NewStreamReader r =
    match r with
    | [] => Err (Errorf "failed to read magic bytes" io_EOF)
    | _ =>
        if decide (length r < 6)%nat
        then Err (Errorf "failed to read magic bytes" io_ErrUnexpectedEOF)
        else if decide (take 6 r = MagicBytes)
        then match Decode_header (drop 6 r) with
             | Err err => Err (Errorf "failed to decode header" err)
             | Ok (header, n) =>
                 Ok {| reader := drop n (drop 6 r); Stream_Header := header;
                       count := NodeCount header; index := 0 |}
             end
        else Err ErrInvalidMagic
    end).
  { unfold NewStreamReader. destruct r as [|b r]; [done|].
    destruct (Z.ltb_spec (len (b :: r)) 6) as [Hlt|Hge]; unfold len in *.
    - by rewrite decide_True by lia.
    - rewrite decide_False by lia. by case_bool_decide; [rewrite decide_True|rewrite decide_False]. }
  split; [|split; [|split]]; [rewrite Hstart..|]; clear Hstart.
  - destruct r as [|b r]; [done|]. split; [|done].
    repeat case_decide; [done| |done]. by destruct (Decode_header _) as [[? ?]|?].
  - destruct r as [|b r]; [split; [done|simpl; lia]|].
    assert (0 < length (b :: r))%nat by (simpl; lia).
    repeat case_decide; (split; [|lia || done]); try done.
    by destruct (Decode_header _) as [[? ?]|?].
  - destruct r as [|b r]; [split; [done|simpl; lia]|].
    repeat case_decide; (split; [|try (intros [? ?]; done || lia)]); try done.
    + by destruct (Decode_header _) as [[? ?]|?].
    + intros _. split; [lia|done].
  - intros Hshort. unfold Decode.
    destruct (Z.ltb_spec (len r) 6) as [_|Hge]; [done|]. unfold len in Hge. lia.
Qed.

(** X11. Whatever [Decode] accepts, [NewStreamReader] accepts too, with
    the same header: the reader starts at index 0 with [count] the
    [NodeCount] of that header, and is left where the payload begins. *)
Theorem NewStreamReader_reads_Decode_header `{MsgpackLib} (data : bytes)
    (file : EngramFile) :
  Decode data = Ok file →
  ∃ sr n, NewStreamReader data = Ok sr
          ∧ Decode_header (drop 6 data) = Ok (Header file, n)
          ∧ Stream_Header sr = Header file
          ∧ count sr = NodeCount (Header file)
          ∧ index sr = 0
          ∧ reader sr = drop n (drop 6 data).
Proof.
  unfold Decode, NewStreamReader. intros Hd.
  destruct (Z.ltb_spec (len data) 6) as [?|Hlen]; [done|]. cbn [orb] in Hd.
  destruct (bool_decide (take 6 data = MagicBytes)); [|done]. cbn [negb] in *.
  destruct data as [|b data]; [unfold len in Hlen; simpl in Hlen; lia|].
  destruct (Decode_header _) as [[header n]|err]; [|done]. cbv zeta in Hd.
  destruct (_ && _); [done|].
  destruct (Decode_nodes _) as [[ns k]|err]; [|done]. injection Hd as <-.
  by eexists _, n.
Qed.

Lemma NewStreamReader_reads_Decode_header_witness :
  ∃ sr n, @NewStreamReader msgpack_v5 one_node_data = Ok sr
          ∧ @Decode_header msgpack_v5 (drop 6 one_node_data)
            = Ok (updated_header test_now one_node_file
                    (payload_integrity
                       (bytes_of (@Marshal_nodes msgpack_v5 (Nodes one_node_file)))), n)
          ∧ count sr = 1 ∧ index sr = 0.
Proof.
  destruct (@NewStreamReader_reads_Decode_header msgpack_v5 one_node_data
              {| Header := updated_header test_now one_node_file
                    (payload_integrity
                       (bytes_of (@Marshal_nodes msgpack_v5 (Nodes one_node_file))));
                 Nodes := Nodes one_node_file |})
    as (sr & n & Hsr & Hh & _ & Hc & Hi & _).
  - vm_compute. reflexivity.
  - exists sr, n. split; [exact Hsr|]. split; [exact Hh|]. split; [exact Hc|exact Hi].
Defined.

(** X12. The loop over [Next] never collects more nodes than [count]
    allows: at most what is left between [index] and [count], whatever
    the stream holds and however long the loop is let run. *)
Theorem collect_at_most_count `{MsgpackLib} (fuel : nat) (sr : StreamReader)
    (l : list MemoryNode) :
  collect fuel sr = Ok l → len l <= Z.max 0 (count sr - index sr).
Proof.
  revert sr l. induction fuel as [|fuel IH]; intros sr l; cbn [collect];
    destruct (Next sr) as [[node| |err] sr'] eqn:Hnext; try done.
  - intros [= <-]. apply Next_node in Hnext. unfold len. simpl. lia.
  - intros [= <-]. unfold len. simpl. lia.
  - destruct (collect fuel sr') as [l'|err] eqn:Hrest; [|done]. intros [= <-].
    apply IH in Hrest. apply Next_node in Hnext as (Hlt & Hi & Hc).
    unfold len in *. simpl. lia.
  - intros [= <-]. unfold len. simpl. lia.
Qed.

Lemma collect_at_most_count_witness :
  let sr := reader_of (@NewStreamReader msgpack_v5 two_of_three) in
  @collect msgpack_v5 5 sr = Ok (take 2 three_notes)
  ∧ len (take 2 three_notes) <= Z.max 0 (count sr - index sr).
Proof.
  intros sr.
  assert (Hc : @collect msgpack_v5 5 sr = Ok (take 2 three_notes)) by (vm_compute; reflexivity).
  split; [exact Hc|]. exact (@collect_at_most_count msgpack_v5 5 sr _ Hc).
Defined.




Lemma EngramHeader_ext (h h' : EngramHeader) :
  Version h = Version h' → Created h = Created h' → Modified h = Modified h' →
  NodeCount h = NodeCount h' → Schema h = Schema h' →
  Integrity (Security h) = Integrity (Security h') →
  Encryption (Security h) = Encryption (Security h') →
  KeyID (Security h) = KeyID (Security h') →
  Header_Metadata h = Header_Metadata h' → h = h'.
Proof.
  destruct h as [? ? ? ? ? [? ? ?] ?], h' as [? ? ? ? ? [? ? ?] ?]. simpl.
  by intros -> -> -> -> -> -> -> -> ->.
Qed.

(** X14. The header update of [Encode] is idempotent: applied, at the
    same clock reading, to a header it has already updated (under any
    digest), it gives the header it gives on the original one.  (The
    bytes of two runs of [Encode] need not be the same, for the order
    in which the library writes a Go map varies.) *)
Theorem Encode_header_update_idempotent (now : string) (file : EngramFile)
    (stale integrity : string) :
  updated_header now {| Header := updated_header now file stale; Nodes := Nodes file |}
    integrity
  = updated_header now file integrity.
Proof.
  destruct (updated_header_fields now file stale)
    as (HN1 & HM1 & HI1 & HC1 & HV1 & HS1 & HE1 & HK1 & HX1).
  destruct (updated_header_fields now file integrity)
    as (HN & HM & HI & HC & HV & HS & HE & HK & HX).
  destruct (updated_header_fields now
              {| Header := updated_header now file stale; Nodes := Nodes file |} integrity)
    as (HN2 & HM2 & HI2 & HC2 & HV2 & HS2 & HE2 & HK2 & HX2).
  cbn [Header Nodes] in *.
  apply EngramHeader_ext; try congruence.
  - rewrite HV2, HV, HV1. by repeat case_bool_decide.
  - rewrite HC2, HC, HC1. repeat case_bool_decide; congruence.
Qed.

(** X15. [Decode] fails with [ErrIntegrityFailed] in one situation
    only: the magic bytes are there, the header decodes, its
    [security.integrity] is not empty and differs from the digest of
    the bytes after the header.  So a file without a digest is never
    rejected for its integrity, and [VerifyIntegrity] answers
    [(false, nil)] exactly for a readable file in that situation. *)
Theorem integrity_failure_only_on_mismatch `{MsgpackLib} :
  (∀ data, Decode data = Err ErrIntegrityFailed
     ↔ (6 ≤ length data)%nat ∧ take 6 data = MagicBytes
       ∧ ∃ header n, Decode_header (drop 6 data) = Ok (header, n)
                     ∧ Integrity (Security header) ≠ ""
                     ∧ payload_integrity (drop n (drop 6 data))
                       ≠ Integrity (Security header))
  ∧ (∀ fs path, VerifyIntegrity fs path = (false, None)
       ↔ ∃ data, fs path = Ok data ∧ Decode data = Err ErrIntegrityFailed).
Proof.
  split.
  - intros data. split.
    + intros Hd.
      destruct (decide ((length data < 6)%nat ∨ take 6 data ≠ MagicBytes)) as [Hbad|Hok].
      { apply magic_check in Hbad. unfold Decode in Hd. by rewrite Hbad in Hd. }
      assert (Hlen : (6 ≤ length data)%nat).
      { destruct (decide (length data < 6)%nat); [exfalso; apply Hok; by left|lia]. }
      assert (Hmagic : take 6 data = MagicBytes).
      { destruct (decide (take 6 data = MagicBytes)); [done|exfalso; apply Hok; by right]. }
      split; [done|]. split; [done|].
      destruct (Decode_header (drop 6 data)) as [[header n]|err] eqn:Hh.
      * rewrite (Decode_after_header data header n) in Hd by done. cbv zeta in Hd.
        exists header, n. split; [done|].
        do 2 case_bool_decide; cbn [negb andb] in Hd; try done;
          by destruct (Decode_nodes _) as [[? ?]|?].
      * unfold Decode in Hd. rewrite Hh in Hd.
        by destruct (_ || _).
    + intros (Hlen & Hmagic & header & n & Hh & Hne & Hdiff).
      rewrite (Decode_after_header data header n) by done. cbv zeta.
      by rewrite (bool_decide_eq_false_2 _ Hne), (bool_decide_eq_false_2 _ Hdiff).
  - intros fs path. unfold VerifyIntegrity, ReadFile.
    destruct (fs path) as [data|err].
    + split.
      * intros Hv. exists data. split; [done|].
        by destruct (Decode data) as [file|[| |msg cause]].
      * intros (d & [= <-] & Hd). by rewrite Hd.
    + split; [done|]. by intros (? & ? & _).
Qed.

Lemma payload_integrity_nonempty (payloadBytes : bytes) :
  payload_integrity payloadBytes ≠ "".
Proof.
  intros Hempty. pose proof (LibraryFacts.length_hex_EncodeToString
                               (SHA256.Sum256 payloadBytes)) as Hlen.
  unfold payload_integrity in Hempty.
  rewrite Hempty, LibraryFacts.length_Sum256 in Hlen. done.
Qed.

(** X16. A file written by [Encode] always carries a digest, so a change
    of its payload is detected: if the bytes after the header are
    replaced by bytes of another SHA-256 digest, and the header still
    reads back, [Decode] fails with [ErrIntegrityFailed]. *)
Theorem Decode_detects_changed_payload `{MsgpackLib} (now : string) (file : EngramFile)
    (payloadBytes headerBytes changed : bytes) :
  let header := updated_header now file (payload_integrity payloadBytes) in
  Marshal_nodes (Nodes file) = Ok payloadBytes →
  Marshal_header header = Ok headerBytes →
  Decode_header (headerBytes ++ changed) = Ok (header, length headerBytes) →
  payload_integrity changed ≠ payload_integrity payloadBytes →
  Encode now file = Ok (MagicBytes ++ headerBytes ++ payloadBytes)
  ∧ Decode (MagicBytes ++ headerBytes ++ changed) = Err ErrIntegrityFailed.
Proof.
  intros header Hp Hh Hdh Hdiff. split; [by apply Encode_output|].
  assert (Hi : Integrity (Security header) = payload_integrity payloadBytes)
    by apply updated_header_fields.
  rewrite (Decode_after_header _ header (length headerBytes)).
  - cbv zeta. change (drop 6 (MagicBytes ++ headerBytes ++ changed))
      with (headerBytes ++ changed).
    rewrite drop_app_length, Hi.
    rewrite (bool_decide_eq_false_2 _ (payload_integrity_nonempty payloadBytes)).
    by rewrite (bool_decide_eq_false_2 _ Hdiff).
  - rewrite length_app. simpl. lia.
  - done.
  - exact Hdh.
Qed.

Lemma Decode_detects_changed_payload_witness :
  let payloadBytes := bytes_of (@Marshal_nodes msgpack_v5 (Nodes one_node_file)) in
  let header := updated_header test_now one_node_file (payload_integrity payloadBytes) in
  let headerBytes := bytes_of (@Marshal_header msgpack_v5 header) in
  let changed := take (length payloadBytes - 1) payloadBytes ++ [xff] in
  @Decode msgpack_v5 (MagicBytes ++ headerBytes ++ changed) = Err ErrIntegrityFailed.
Proof.
  intros payloadBytes header headerBytes changed.
  apply (@Decode_detects_changed_payload msgpack_v5 test_now one_node_file
           payloadBytes headerBytes changed).
  - reflexivity.
  - reflexivity.
  - vm_compute. reflexivity.
  - vm_compute. discriminate.
Defined.








(** X21. The one case where streaming agrees with [Decode] on what
    [Encode] wrote: a file without nodes.  Its header announces no
    node, so the first [Next] returns no node and no error, and the
    payload is not read. *)
Theorem StreamDecode_empty_file (now : string) (file : EngramFile) :
  Wf.wf_file now file → Nodes file = [] →
  ∃ data, @Encode msgpack_v5 now file = Ok data
          ∧ @StreamDecode msgpack_v5 data = Ok [].
Proof.
  intros Hwf Hempty.
  destruct (msgpack_v5_reads_back now file Hwf) as (Hp & Hh & Hdh & _).
  set (payloadBytes := Msgpack.encode (MsgpackGo.nodes_value (Nodes file))) in *.
  set (header := updated_header now file (payload_integrity payloadBytes)) in *.
  set (headerBytes := Msgpack.encode (MsgpackGo.EngramHeader_value header)) in *.
  exists (MagicBytes ++ headerBytes ++ payloadBytes).
  split; [by apply Encode_output|].
  unfold StreamDecode, NewStreamReader.
  change (MagicBytes ++ headerBytes ++ payloadBytes)
    with (x45 :: x4e :: x47 :: x52 :: x41 :: x4d :: headerBytes ++ payloadBytes).
  cbn [take drop]. rewrite (bool_decide_eq_true_2 _ (eq_refl MagicBytes)).
  destruct (Z.ltb_spec (len (x45 :: x4e :: x47 :: x52 :: x41 :: x4d
                                 :: headerBytes ++ payloadBytes)) 6) as [Hlt|_].
  { unfold len in Hlt. simpl in Hlt. lia. }
  cbn [negb]. rewrite !drop_0, Hdh.
  assert (Hcount : NodeCount header = 0).
  { unfold header. destruct (updated_header_fields now file (payload_integrity payloadBytes))
      as [-> _]. by rewrite Hempty. }
  unfold ReadAll. cbn [count index]. rewrite Hcount.
  change (Z.to_nat (0 - 0)) with 0%nat. cbn [collect].
  unfold Next. by cbn [count index].
Qed.

Lemma StreamDecode_empty_file_witness :
  let file := {| Header := Header full_file; Nodes := [] |} in
  ∃ data, @Encode msgpack_v5 test_now file = Ok data
          ∧ @StreamDecode msgpack_v5 data = Ok [].
Proof.
  intros file. apply (StreamDecode_empty_file test_now file); [|reflexivity].
  in_range.
Defined.

(** X22. When the ids of the collection are pairwise distinct, every
    node is found under its id: [Get] returns the pointer to that very
    node. *)
Theorem Get_finds_each_node (ns : list MemoryNode) (i : nat) (n : MemoryNode) :
  NoDup (ID <$> ns) → ns !! i = Some n →
  Get (NewMemoryTree ns) (ID n) = Some i.
Proof.
  intros Hnd Hi. unfold Get, NewMemoryTree. apply index_from_byID. left.
  exists i, n. split; [done|]. split; [done|]. split; [done|].
  intros k' n' Hk' Hid.
  assert (k' = i); [|lia].
  apply (NoDup_lookup (ID <$> ns) k' i (ID n)); [done| |];
    rewrite list_lookup_fmap; [by rewrite Hk', <- Hid|by rewrite Hi].
Qed.

Lemma Get_finds_each_node_witness :
  Get (NewMemoryTree notes) "n2" = Some 2%nat.
Proof.
  apply (Get_finds_each_node notes 2 (content_node "n2" "ALPHABET")).
  - apply (bool_decide_unpack _). by vm_compute.
  - reflexivity.
Defined.
